(** * Supabase Storage Migrator: the migration engine of [+page.svelte]

    A shallow embedding of the script block of [src/routes/+page.svelte]:
    the content-type resolver [getMimeType], the archive layout inferencer
    [parseZipStructure], the preview [detectBucketsInZip], and the two
    run drivers [migrateLiveProject] and [migrateFromZip] with the
    recursive walk [migrateFilesFromBucket]; then the conditions of the
    markup ([canMigrateLive], [canMigrateFromZip], the progress panel), the
    upload form ([handleZipUpload], [setActiveTab]) and the parts of the
    older variant of the page that differ from the current one.

    Modelling choices.
    - Strings are [string]; JavaScript's [split], [join], [includes],
      [toLowerCase] and the regular expression [/^[a-z0-9]{20,}$/] are
      written out as functions on them.
    - The reactive variables ([progress], [totalItems], [logs], [error],
      [success], ...) form the record [State].  Every assignment yields a
      new [State]; a run keeps the states it went through, so that a
      property of "every observed instant" is a property of every state of
      that history.  The [timestamp] of a log entry is wall-clock time and
      is left out.
    - The collaborators (Supabase storage clients, JSZip) are not part of
      the program.  What they answer is given by a scenario: each call site
      reads the answer of its call from the scenario, and each call issued
      is recorded in the list of requests of the run.  That list is not a
      variable of the page: nothing that the page does removes a call from
      it.
    - A run is interleaved with the user at its [await]s on the
      collaborators.  The inputs and both migration buttons are disabled
      while a run is in progress; the two tab buttons are not, and a click
      on one calls [setActiveTab], hence [clearLogs], on the variables that
      the run is using.  A scenario tells how many such clicks happen
      during each [await] of the run; the run is quiet when there is none.
    - The source tree of a live scenario is a finite tree of listings, so
      that the recursive walk is a structural recursion.
    - The object literals [mimeTypes] and [bucketFiles] are maps on their
      own keys with the members of [Object.prototype] behind them: reading
      a key that is not an own key but names such a member gives that
      member, which is neither [undefined] nor a string nor an array.
      [getMimeType] then returns the member, and [.push] on it throws a
      [TypeError].  [bucketFiles] keeps its own keys in creation order and
      is enumerated in the order of [Object.entries].
    - [handleZipUpload] and [setActiveTab] are functions on the variables
      of the page; the size of a file is taken as the text that the page
      prints for it.  [progressPercentage] is floating-point arithmetic
      and is left out. *)

From Stdlib Require Import String Ascii List Arith NArith Lia Bool PeanoNat Sorted.
From Stdlib Require Import Permutation.
From Stdlib Require DecimalString.
Import ListNotations.
Local Open Scope string_scope.
Local Open Scope list_scope.

(* ================================================================== *)
(** ** JavaScript string primitives *)

Module Js.

(** [s.split(sep)] for a one-character separator: never the empty list. *)
Fixpoint split (sep : ascii) (s : string) : list string :=
  match s with
  | EmptyString => [EmptyString]
  | String c r =>
      if Ascii.eqb c sep then EmptyString :: split sep r
      else match split sep r with
           | [] => [String c EmptyString]
           | h :: t => String c h :: t
           end
  end.

(** [parts.join(sep)]. *)
Fixpoint join (sep : string) (parts : list string) : string :=
  match parts with
  | [] => EmptyString
  | [p] => p
  | p :: rest => p ++ sep ++ join sep rest
  end.

(** [arr.pop()] on a fresh array: its last element, [undefined] when empty. *)
Fixpoint pop (l : list string) : option string :=
  match l with
  | [] => None
  | [x] => Some x
  | _ :: r => pop r
  end.

(** [arr.slice(n)]. *)
Definition slice (n : nat) (l : list string) : list string := skipn n l.

Definition lowerChar (c : ascii) : ascii :=
  let n := nat_of_ascii c in
  if ((65 <=? n)%nat && (n <=? 90)%nat)%bool then ascii_of_nat (n + 32) else c.

(** [s.toLowerCase()], on the ASCII letters: no other letter lower-cases
    to a key of [mimeTypes]. *)
Fixpoint toLowerCase (s : string) : string :=
  match s with
  | EmptyString => EmptyString
  | String c r => String (lowerChar c) (toLowerCase r)
  end.

Fixpoint startsWith (p s : string) : bool :=
  match p, s with
  | EmptyString, _ => true
  | String a p', String b s' => Ascii.eqb a b && startsWith p' s'
  | String _ _, EmptyString => false
  end.

(** [s.includes(needle)]. *)
Fixpoint includes (needle s : string) : bool :=
  startsWith needle s ||
  match s with
  | EmptyString => false
  | String _ r => includes needle r
  end.

(** A template placeholder [${n}] for a number. *)
Definition ofNat (n : nat) : string := DecimalString.NilZero.string_of_uint (Nat.to_uint n).

(** Truthiness of a string: non-empty. *)
Definition truthy (s : string) : bool := negb (s =? "").

(** [s.endsWith(suffix)] *)
Definition endsWith (suffix s : string) : bool :=
  (String.length suffix <=? String.length s)%nat
  && (substring (String.length s - String.length suffix)
        (String.length suffix) s =? suffix).

End Js.

(* ================================================================== *)
(** ** Content-type resolver *)

(** The object literal [mimeTypes] of [getMimeType]. *)
Definition mimeTypes : list (string * string) :=
  [ ("jpg", "image/jpeg");
    ("jpeg", "image/jpeg");
    ("png", "image/png");
    ("gif", "image/gif");
    ("webp", "image/webp");
    ("svg", "image/svg+xml");
    ("ico", "image/x-icon");
    ("pdf", "application/pdf");
    ("doc", "application/msword");
    ("docx", "application/vnd.openxmlformats-officedocument.wordprocessingml.document");
    ("xls", "application/vnd.ms-excel");
    ("xlsx", "application/vnd.openxmlformats-officedocument.spreadsheetml.sheet");
    ("ppt", "application/vnd.ms-powerpoint");
    ("pptx", "application/vnd.openxmlformats-officedocument.presentationml.presentation");
    ("txt", "text/plain");
    ("csv", "text/csv");
    ("json", "application/json");
    ("xml", "application/xml");
    ("html", "text/html");
    ("css", "text/css");
    ("js", "application/javascript");
    ("zip", "application/zip");
    ("rar", "application/x-rar-compressed");
    ("7z", "application/x-7z-compressed");
    ("tar", "application/x-tar");
    ("gz", "application/gzip");
    ("mp3", "audio/mpeg");
    ("wav", "audio/wav");
    ("mp4", "video/mp4");
    ("avi", "video/x-msvideo");
    ("mov", "video/quicktime");
    ("webm", "video/webm");
    ("bin", "application/octet-stream") ].

(** The own property [key] of an object, if it has one. *)
Fixpoint lookup {A : Type} (key : string) (obj : list (string * A)) : option A :=
  match obj with
  | [] => None
  | (k, v) :: rest => if k =? key then Some v else lookup key rest
  end.

(** The names of the members that an object literal inherits from
    [Object.prototype]: functions, and for [__proto__] the prototype
    itself.  Every one of them is truthy, and none is a string or an
    array. *)
Definition objectPrototype : list string :=
  [ "constructor"; "__defineGetter__"; "__defineSetter__"; "hasOwnProperty";
    "__lookupGetter__"; "__lookupSetter__"; "isPrototypeOf";
    "propertyIsEnumerable"; "toString"; "valueOf"; "__proto__";
    "toLocaleString" ].

Definition inherited (key : string) : bool :=
  existsb (String.eqb key) objectPrototype.

(** What [obj[key]] evaluates to on an object literal: its own property,
    else the member of that name of [Object.prototype], else [undefined]. *)
Inductive Property (A : Type) :=
| Own (a : A)
| Inherited
| Undefined.
Arguments Own {A} a.
Arguments Inherited {A}.
Arguments Undefined {A}.

Definition get {A : Type} (key : string) (obj : list (string * A)) : Property A :=
  match lookup key obj with
  | Some a => Own a
  | None => if inherited key then Inherited else Undefined
  end.

(** A value that the program takes for a string: a string, or the member
    of [Object.prototype] of that name. *)
Inductive Value :=
| Str (s : string)
| Member (key : string).

(** [filename.split('.').pop()?.toLowerCase() || ''] *)
Definition extension (filename : string) : string :=
  match Js.pop (Js.split "." filename) with
  | Some e => Js.toLowerCase e
  | None => ""
  end.

(** [mimeTypes[ext] || 'application/octet-stream'] *)
Definition getMimeType (filename : string) : Value :=
  match get (extension filename) mimeTypes with
  | Own m => if Js.truthy m then Str m else Str "application/octet-stream"
  | Inherited => Member (extension filename)
  | Undefined => Str "application/octet-stream"
  end.

(* ================================================================== *)
(** ** Data model *)

(** [LogEntry['type']] *)
Inductive LogType := Info | Success | Error | Warning.

Record LogEntry := { message : string; type : LogType }.

(** What a Supabase storage call resolves to: [{ data, error: null }],
    [{ data: null, error }] with the error's message, or a rejection (an
    exception at the [await]) with the message its handler reads. *)
Inductive Reply (A : Type) :=
| Data (a : A)
| ErrorResult (msg : string)
| Thrown (msg : string).
Arguments Data {A} a.
Arguments ErrorResult {A} msg.
Arguments Thrown {A} msg.

(** What a call without an [error] field resolves to ([createClient],
    [zip.loadAsync], [file.async]). *)
Inductive Attempt (A : Type) :=
| Returned (a : A)
| Raised (msg : string).
Arguments Returned {A} a.
Arguments Raised {A} msg.

(** The pattern [const { error } = await call; if (error) throw error]:
    the message of the exception in flight after it, if any. *)
Definition thrownBy {A : Type} (reply : Reply A) : option string :=
  match reply with
  | Data _ => None
  | ErrorResult msg => Some msg
  | Thrown msg => Some msg
  end.

(** The calls issued to the collaborators. *)
Inductive Request :=
| ZipLoadAsync
| ZipAsync (name : string)
| SrcListBuckets
| SrcList (bucket path : string)
| SrcDownload (bucket path : string)
| DstListBuckets
| DstCreateBucket (name : string) (public : bool)
| DstUpload (bucket path : string) (contentType : Value).

(** The reactive variables of the page that the engine writes, and
    [requests], which is not a variable of the page: the calls issued since
    the start of the run. *)
Record State := {
  isProcessing : bool;
  progress : nat;
  totalItems : nat;
  logs : list LogEntry;
  error : string;
  success : string;
  currentOperation : string;
  requests : list Request
}.

(** A run: the current state and the states it went through, the most
    recent first, and what the user does meanwhile: [switches] gives, for
    each [await] of the run on a collaborator in turn, the number of times
    the tab is switched while the run waits (none once the list is
    exhausted).  The tab buttons are the only controls of the page that
    stay enabled during a run. *)
Record Run := { now : State; past : list State; switches : list nat }.

Definition start (s : State) : Run := {| now := s; past := []; switches := [] |}.

(** The run with the user switching tabs as [n] tells. *)
Definition interruptedBy (n : list nat) (r : Run) : Run :=
  {| now := now r; past := past r; switches := n |}.

(** The states of a run, the most recent first. *)
Definition history (r : Run) : list State := now r :: past r.

(** One assignment to the variables: a new current state. *)
Definition assign (f : State -> State) (r : Run) : Run :=
  {| now := f (now r); past := now r :: past r; switches := switches r |}.

Definition setIsProcessing (b : bool) (s : State) : State :=
  {| isProcessing := b; progress := progress s; totalItems := totalItems s;
     logs := logs s; error := error s; success := success s;
     currentOperation := currentOperation s; requests := requests s |}.

Definition setProgress (n : nat) (s : State) : State :=
  {| isProcessing := isProcessing s; progress := n; totalItems := totalItems s;
     logs := logs s; error := error s; success := success s;
     currentOperation := currentOperation s; requests := requests s |}.

Definition setTotalItems (n : nat) (s : State) : State :=
  {| isProcessing := isProcessing s; progress := progress s; totalItems := n;
     logs := logs s; error := error s; success := success s;
     currentOperation := currentOperation s; requests := requests s |}.

Definition setLogs (l : list LogEntry) (s : State) : State :=
  {| isProcessing := isProcessing s; progress := progress s;
     totalItems := totalItems s; logs := l; error := error s;
     success := success s; currentOperation := currentOperation s;
     requests := requests s |}.

Definition setError (e : string) (s : State) : State :=
  {| isProcessing := isProcessing s; progress := progress s;
     totalItems := totalItems s; logs := logs s; error := e;
     success := success s; currentOperation := currentOperation s;
     requests := requests s |}.

Definition setSuccess (m : string) (s : State) : State :=
  {| isProcessing := isProcessing s; progress := progress s;
     totalItems := totalItems s; logs := logs s; error := error s;
     success := m; currentOperation := currentOperation s;
     requests := requests s |}.

Definition setCurrentOperation (o : string) (s : State) : State :=
  {| isProcessing := isProcessing s; progress := progress s;
     totalItems := totalItems s; logs := logs s; error := error s;
     success := success s; currentOperation := o; requests := requests s |}.

Definition setRequests (q : list Request) (s : State) : State :=
  {| isProcessing := isProcessing s; progress := progress s;
     totalItems := totalItems s; logs := logs s; error := error s;
     success := success s; currentOperation := currentOperation s;
     requests := q |}.

(** [addLog(message, type)]: [logs = [...logs, { message, type, timestamp }]]. *)
Definition addLog (message : string) (type : LogType) : Run -> Run :=
  assign (fun s => setLogs (logs s ++ [{| message := message; type := type |}]) s).

(** [clearLogs()]; its six assignments are taken as one step. *)
Definition clearedState (s : State) : State :=
  {| isProcessing := isProcessing s; progress := 0; totalItems := 0;
     logs := []; error := ""; success := "";
     currentOperation := ""; requests := [] |}.

(** A run begins with [clearLogs()]: its history starts at the state that
    the reset leaves. *)
Definition clearLogs (s : State) : Run := start (clearedState s).

(** [setActiveTab(tab)] clicked during a run: [clearLogs()] on the
    variables of the page.  The calls issued by the run stay issued. *)
Definition tabSwitched (s : State) : State :=
  setRequests (requests s) (clearedState s).

(** An [await] on a collaborator's call: the call is issued, and while the
    run waits for the answer the tab is switched as many times as
    [switches] tells for this [await]. *)
Definition request (q : Request) (r : Run) : Run :=
  Nat.iter (nth (length (requests (now r))) (switches r) 0)
    (assign tabSwitched)
    (assign (fun s => setRequests (requests s ++ [q]) s) r).

(** [progress += 1] *)
Definition incrementProgress : Run -> Run :=
  assign (fun s => setProgress (progress s + 1) s).

(** How a [try] block ends. *)
Inductive Completion := Normal | Throw (msg : string).

(** The [catch] and [finally] blocks of the two run drivers. *)
Definition catchFinally (body : Completion * Run) : Run :=
  let r :=
    match fst body with
    | Normal => snd body
    | Throw msg =>
        addLog ("Migration failed: " ++ msg) Error
          (assign (setError msg) (snd body))
    end in
  assign (setIsProcessing false) r.

(** The terminal states of the orchestrator, as the page shows them: a run
    has completed when its success summary is set, and has failed when its
    last log entry is the failure report of the [catch] block. *)
Definition isCompleted (s : State) : bool :=
  negb (isProcessing s) && Js.truthy (success s).

Definition lastLog (s : State) : option LogEntry :=
  match rev (logs s) with
  | [] => None
  | e :: _ => Some e
  end.

Definition isFailedEntry (reason : string) (e : LogEntry) : bool :=
  (message e =? "Migration failed: " ++ reason) &&
  match type e with Error => true | _ => false end.

Definition isFailed (s : State) : bool :=
  negb (isProcessing s) && negb (Js.truthy (success s)) &&
  match lastLog s with
  | Some e => isFailedEntry (error s) e
  | None => false
  end.

Definition isErrorEntry (e : LogEntry) : bool :=
  match type e with Error => true | _ => false end.

(** The number of [Error]-severity entries of a log. *)
Definition errorCount (l : list LogEntry) : nat :=
  length (filter isErrorEntry l).

(* ================================================================== *)
(** ** Archive layout inferencer *)

(** A [JSZip.JSZipObject]: its [name] (the key of [zip.files]), its [dir]
    flag, and what the scenario answers when the entry is decompressed
    ([file.async('arraybuffer')]) and when it is uploaded. *)
Record ZipObject := {
  name : string;
  dir : bool;
  async : Attempt unit;
  uploadReply : Reply unit
}.

(** [interface FileInfo] *)
Record FileInfo := { path : string; file : ZipObject }.

(** [interface BucketFiles]: an object used as a map from bucket names to
    arrays, kept in the order in which its keys were created. *)
Definition BucketFiles := list (string * list FileInfo).

(** [path.split('/').filter(p => p.length > 0)] *)
Definition pathParts (p : string) : list string :=
  filter (fun part => 0 <? String.length part)%nat (Js.split "/" p).

Definition isLowerAlnum (c : ascii) : bool :=
  let n := nat_of_ascii c in
  (((97 <=? n) && (n <=? 122)) || ((48 <=? n) && (n <=? 57)))%nat.

(** [/^[a-z0-9]{20,}$/.test(s)] *)
Definition looksLikeProjectId (s : string) : bool :=
  (20 <=? String.length s)%nat && forallb isLowerAlnum (list_ascii_of_string s).

(** [set.add(x)] on a [Set<string>] kept in insertion order. *)
Definition setAdd (x : string) (set : list string) : list string :=
  if existsb (String.eqb x) set then set else set ++ [x].

(** The first [forEach] of [parseZipStructure]. *)
Definition rootCandidates (entries : list ZipObject) : list string :=
  fold_left
    (fun set f =>
       if dir f then set
       else match pathParts (name f) with
            | [] => set
            | part0 :: _ => setAdd part0 set
            end)
    entries [].

(** [rootFolder] after the test of the only candidate. *)
Definition detectRootFolder (entries : list ZipObject) : option string :=
  match rootCandidates entries with
  | [candidate] =>
      if looksLikeProjectId candidate then Some candidate else None
  | _ => None
  end.

(** The branches of the second [forEach]: the bucket name and the relative
    path of an entry with these parts, [None] where the callback returns
    without adding anything. *)
Definition bucketAndPath (rootFolder : option string) (parts : list string)
  : option (string * string) :=
  let underRoot :=
    match rootFolder, parts with
    | Some root, part0 :: _ => Js.truthy root && (part0 =? root)
    | _, _ => false
    end in
  if underRoot then
    if (3 <=? length parts)%nat
    then Some (nth 1 parts "", Js.join "/" (Js.slice 2 parts))
    else None
  else if (2 <=? length parts)%nat
    then Some (nth 0 parts "", Js.join "/" (Js.slice 1 parts))
    else None.

(** The two statements on an array of the object's own:
    [bucketFiles[bucketName] = []] when the key is absent, then
    [bucketFiles[bucketName].push(info)]. *)
Fixpoint pushOwn (bucketName : string) (info : FileInfo) (o : BucketFiles)
  : BucketFiles :=
  match o with
  | [] => [(bucketName, [info])]
  | (k, infos) :: rest =>
      if k =? bucketName then (k, infos ++ [info]) :: rest
      else (k, infos) :: pushOwn bucketName info rest
  end.

(** The message of the [TypeError] of a call of [push] on a value that has
    no such method, in the words of V8. *)
Definition notAFunction : string :=
  "bucketFiles[bucketName].push is not a function".

(** [if (!bucketFiles[bucketName]) bucketFiles[bucketName] = [];
     bucketFiles[bucketName].push(info)] on the object literal
    [bucketFiles]: for a name that the object inherits and does not own,
    [bucketFiles[bucketName]] is truthy, no array is created, and the call
    of [push] throws. *)
Definition pushFile (bucketName : string) (info : FileInfo) (o : BucketFiles)
  : Attempt BucketFiles :=
  match get bucketName o with
  | Inherited => Raised notAFunction
  | Own _ | Undefined => Returned (pushOwn bucketName info o)
  end.

(** The second [forEach] of [parseZipStructure]: an exception of its
    callback ends it. *)
Definition groupEntries (rootFolder : option string) (entries : list ZipObject)
  : Attempt BucketFiles :=
  fold_left
    (fun grouped f =>
       match grouped with
       | Raised msg => Raised msg
       | Returned bucketFiles =>
           if dir f then Returned bucketFiles
           else match bucketAndPath rootFolder (pathParts (name f)) with
                | Some (bucketName, relativePath) =>
                    pushFile bucketName {| path := relativePath; file := f |}
                      bucketFiles
                | None => Returned bucketFiles
                end
       end)
    entries (Returned []).

(** [parseZipStructure(zip)], on the entries of [zip.files]. *)
Definition parseZipStructure (entries : list ZipObject) (r : Run)
  : Attempt BucketFiles * Run :=
  let rootFolder := detectRootFolder entries in
  let r :=
    match rootFolder with
    | Some root => addLog ("Detected root folder (project ID): " ++ root) Info r
    | None => r
    end in
  (groupEntries rootFolder entries, r).

(** What [parseZipStructure] returns or throws. *)
Definition parsed (entries : list ZipObject) : Attempt BucketFiles :=
  groupEntries (detectRootFolder entries) entries.

(** [detectBucketsInZip(file)]: the preview of the upload form.  A failure
    of [zip.loadAsync] is written to the console and gives [[]]. *)
Definition detectBucketsInZip (loaded : Attempt (list ZipObject)) : list string :=
  match loaded with
  | Raised _ => []
  | Returned entries =>
      let buckets :=
        fold_left
          (fun set f =>
             let parts := pathParts (name f) in
             if (2 <=? length parts)%nat && negb (dir f) then
               let set := setAdd (nth 0 parts "") set in
               if (3 <=? length parts)%nat then setAdd (nth 1 parts "") set
               else set
             else set)
          entries [] in
      let filteredBuckets :=
        filter (fun n => negb (looksLikeProjectId n)) buckets in
      if (0 <? length filteredBuckets)%nat then filteredBuckets else buckets
  end.

(** *** [Object.entries] of a map object

    The keys that are array indices come first, in ascending numeric
    order, then the other keys in the order of their creation. *)

Definition digitValue (c : ascii) : option N :=
  let n := N_of_ascii c in
  if ((48 <=? n) && (n <=? 57))%N then Some (n - 48)%N else None.

Fixpoint decimalValue (acc : N) (s : string) : option N :=
  match s with
  | EmptyString => Some acc
  | String c r =>
      match digitValue c with
      | Some d => decimalValue (acc * 10 + d)%N r
      | None => None
      end
  end.

(** The value of a key that is a canonical array index (below [2^32 - 1]). *)
Definition arrayIndex (key : string) : option N :=
  match key with
  | EmptyString => None
  | String c rest =>
      if Ascii.eqb c "0" && negb (rest =? "") then None
      else match decimalValue 0 key with
           | Some v => if (v <? 4294967295)%N then Some v else None
           | None => None
           end
  end.

Section ObjectEntries.
Context {A : Type}.

Fixpoint insertIndexed (i : N) (e : string * A) (l : list (N * (string * A)))
  : list (N * (string * A)) :=
  match l with
  | [] => [(i, e)]
  | (j, e') :: rest =>
      if (i <? j)%N then (i, e) :: l else (j, e') :: insertIndexed i e rest
  end.

Fixpoint indexedEntries (o : list (string * A)) : list (N * (string * A)) :=
  match o with
  | [] => []
  | e :: rest =>
      match arrayIndex (fst e) with
      | Some i => insertIndexed i e (indexedEntries rest)
      | None => indexedEntries rest
      end
  end.

Definition namedEntries (o : list (string * A)) : list (string * A) :=
  filter (fun e => match arrayIndex (fst e) with Some _ => false | None => true end) o.

(** [Object.entries(o)] *)
Definition objectEntries (o : list (string * A)) : list (string * A) :=
  map snd (indexedEntries o) ++ namedEntries o.

(** [Object.keys(o)] *)
Definition objectKeys (o : list (string * A)) : list string :=
  map fst (objectEntries o).

(** [Object.values(o)] *)
Definition objectValues (o : list (string * A)) : list A :=
  map snd (objectEntries o).
End ObjectEntries.

(* ================================================================== *)
(** ** Archive mode *)

Definition checkMark : string := "‚úì".
Definition crossMark : string := "‚úó".
Definition newline : string := String (ascii_of_nat 10) EmptyString.

(** What the collaborators answer in an archive run: the selected file
    with the result of [zip.loadAsync], the result of [createClient], the
    reply of [listBuckets] (the names of the existing buckets) and the reply
    of [createBucket] for each name; and what the user does during the run:
    the tab switches during each [await]. *)
Record ZipScenario := {
  uploadedZip : option (Attempt (list ZipObject));
  zipClient : Attempt unit;
  existingBuckets : Reply (list string);
  createBucket : string -> Reply unit;
  zipSwitches : list nat
}.

(** The body of the loop [for (const fileInfo of files)]. *)
Definition uploadFromZip (bucketName : string) (fileInfo : FileInfo) (r : Run)
  : Run :=
  let failed errorMessage r :=
    incrementProgress
      (addLog (crossMark ++ " Failed: " ++ bucketName ++ "/" ++ path fileInfo
               ++ " - " ++ errorMessage) Error r) in
  let r := request (ZipAsync (name (file fileInfo))) r in
  match async (file fileInfo) with
  | Raised errorMessage => failed errorMessage r
  | Returned _ =>
      let r := request (DstUpload bucketName (path fileInfo)
                          (getMimeType (path fileInfo))) r in
      match thrownBy (uploadReply (file fileInfo)) with
      | Some errorMessage => failed errorMessage r
      | None =>
          addLog (checkMark ++ " Uploaded: " ++ bucketName ++ "/"
                  ++ path fileInfo) Success
            (incrementProgress r)
      end
  end.

Definition uploadAll (bucketName : string) (files : list FileInfo) (r : Run)
  : Run :=
  fold_left (fun r fileInfo => uploadFromZip bucketName fileInfo r) files r.

(** The body of the loop [for (const [bucketName, files] of
    Object.entries(bucketFiles))]. *)
Definition processZipBucket (sc : ZipScenario) (existingBucketNames : list string)
  (entry : string * list FileInfo) (r : Run) : Run :=
  let bucketName := fst entry in
  let files := snd entry in
  let r := addLog (newline ++ "Processing bucket: " ++ bucketName) Info r in
  if existsb (String.eqb bucketName) existingBucketNames
  then uploadAll bucketName files r
  else
    let r := request (DstCreateBucket bucketName false) r in
    match thrownBy (createBucket sc bucketName) with
    | None =>
        uploadAll bucketName files
          (addLog (checkMark ++ " Created bucket: " ++ bucketName) Success r)
    | Some errorMessage =>
        if Js.includes "already exists" errorMessage
        then uploadAll bucketName files r
        else addLog (crossMark ++ " Failed to create bucket " ++ bucketName
                     ++ ": " ++ errorMessage) Error r
    end.

Definition countFiles (bucketFiles : BucketFiles) : nat :=
  fold_left (fun sum files => sum + length files) (objectValues bucketFiles) 0.

(** The second half of the [try] block of [migrateFromZip], from "Count
    total files" to the success summary. *)
Definition transferPlan (sc : ZipScenario) (bucketFiles : BucketFiles) (r : Run)
  : Completion * Run :=
  let r := assign (setTotalItems (countFiles bucketFiles)) r in
  let r := addLog ("Total files to upload: "
                   ++ Js.ofNat (totalItems (now r))) Info r in
  let r := request DstListBuckets r in
  match existingBuckets sc with
  | Thrown msg => (Throw msg, r)
  | reply =>
      let existingBucketNames :=
        match reply with Data names => names | _ => [] end in
      let r := fold_left
                 (fun r entry =>
                    processZipBucket sc existingBucketNames entry r)
                 (objectEntries bucketFiles) r in
      (Normal,
       assign (fun s =>
         setSuccess ("Migration completed! Uploaded "
                     ++ Js.ofNat (progress s) ++ " out of "
                     ++ Js.ofNat (totalItems s) ++ " files.") s) r)
  end.

(** The [try] block of [migrateFromZip]. *)
Definition migrateFromZipBody (sc : ZipScenario)
  (loaded : Attempt (list ZipObject)) (r : Run) : Completion * Run :=
  let r := addLog "Initializing Supabase client..." Info r in
  match zipClient sc with
  | Raised msg => (Throw msg, r)
  | Returned _ =>
      let r := addLog "Loading ZIP file..." Info r in
      let r := request ZipLoadAsync r in
      match loaded with
      | Raised msg => (Throw msg, r)
      | Returned entries =>
          let parse := parseZipStructure entries r in
          let r := snd parse in
          match fst parse with
          | Raised msg => (Throw msg, r)
          | Returned bucketFiles =>
              let buckets := objectKeys bucketFiles in
              if (length buckets =? 0)%nat
              then (Throw "No valid bucket structure found in ZIP file", r)
              else
                let r := addLog ("Found " ++ Js.ofNat (length buckets)
                                 ++ " bucket(s): " ++ Js.join ", " buckets)
                           Info r in
                transferPlan sc bucketFiles r
          end
      end
  end.

(** [migrateFromZip()], from the state [s0] of the page.  Without a selected
    file nothing happens. *)
Definition migrateFromZip (sc : ZipScenario) (s0 : State) : Run :=
  match uploadedZip sc with
  | None => start s0
  | Some loaded =>
      let r := interruptedBy (zipSwitches sc) (clearLogs s0) in
      let r := assign (setIsProcessing true) r in
      let r := assign (setCurrentOperation "Migrating from ZIP file") r in
      catchFinally (migrateFromZipBody sc loaded r)
  end.

(* ================================================================== *)
(** ** Live mode *)

(** An item of a listing of the source, with what the scenario answers to
    the calls made for it: [mimetype] is [file.metadata?.mimetype] (empty
    when absent), [download] and [upload] are the replies to the transfer of
    the item, and [children] is the reply to the listing of the item's own
    path.  The source tree of a scenario is finite. *)
#[warnings="-register-all"]
Inductive FileObject := mkFileObject {
  fileName : string;
  mimetype : string;
  download : Reply unit;
  upload : Reply unit;
  children : Reply (list FileObject)
}.

(** A bucket of the source, with the reply of the destination to its
    creation and the reply of the source to the listing of its root. *)
Record SourceBucket := {
  bucketName : string;
  public : bool;
  createReply : Reply unit;
  rootListing : Reply (list FileObject)
}.

(** What the collaborators answer in a live run, and the tab switches of
    the user during each [await] of the run. *)
Record LiveScenario := {
  liveClients : Attempt unit;
  sourceBuckets : Reply (list SourceBucket);
  liveSwitches : list nat
}.

(** The branch "It's a file, download and upload". *)
Definition transferFile (bucket filePath contentType : string)
  (downloaded uploaded : Reply unit) (r : Run) : Run :=
  let failed errorMessage r :=
    addLog (crossMark ++ " Failed: " ++ filePath ++ " - " ++ errorMessage)
      Error r in
  let r := addLog ("Downloading: " ++ filePath) Info r in
  let r := request (SrcDownload bucket filePath) r in
  match thrownBy downloaded with
  | Some errorMessage => failed errorMessage r
  | None =>
      let r := addLog ("Uploading: " ++ filePath) Info r in
      let r := request (DstUpload bucket filePath (Str contentType)) r in
      match thrownBy uploaded with
      | Some errorMessage => failed errorMessage r
      | None =>
          addLog (checkMark ++ " Migrated: " ++ filePath) Success
            (incrementProgress r)
      end
  end.

(** [path ? `${path}/${file.name}` : file.name] *)
Definition joinPath (dirPath fname : string) : string :=
  if Js.truthy dirPath then dirPath ++ "/" ++ fname else fname.

(** The body of [migrateFilesFromBucket] for the listing [listed] of
    [dirPath], with [each] for the body of its loop. *)
Definition listDirectory (each : FileObject -> Run -> Run)
  (bucket dirPath : string) (listed : Reply (list FileObject)) (r : Run) : Run :=
  let r := request (SrcList bucket dirPath) r in
  match listed with
  | Data files =>
      match files with
      | [] => r
      | _ :: _ =>
          let r := assign (fun s => setTotalItems (totalItems s + length files) s) r in
          fold_left (fun r f => each f r) files r
      end
  | ErrorResult errorMessage | Thrown errorMessage =>
      addLog ("Error listing files in " ++ bucket ++ "/" ++ dirPath ++ ": "
              ++ errorMessage) Error r
  end.

(** The body of the loop [for (const file of files)]: a transfer, or the
    recursive call of [migrateFilesFromBucket] on the folder. *)
Fixpoint migrateFile (bucket dirPath : string) (f : FileObject) (r : Run)
  {struct f} : Run :=
  match f with
  | mkFileObject fname mime downloaded uploaded listed =>
      let filePath := joinPath dirPath fname in
      if Js.truthy mime
      then transferFile bucket filePath mime downloaded uploaded r
      else listDirectory (migrateFile bucket filePath) bucket filePath listed r
  end.

(** [migrateFilesFromBucket(oldClient, newClient, bucketName, path)] *)
Definition migrateFilesFromBucket (bucket dirPath : string)
  (listed : Reply (list FileObject)) (r : Run) : Run :=
  listDirectory (migrateFile bucket dirPath) bucket dirPath listed r.

(** The body of the loop [for (const bucket of buckets)]. *)
Definition processLiveBucket (b : SourceBucket) (r : Run) : Run :=
  let r := addLog (newline ++ "Processing bucket: " ++ bucketName b) Info r in
  let r := request (DstCreateBucket (bucketName b) (public b)) r in
  let caught r :=
    addLog ("Bucket " ++ bucketName b ++ " already exists, continuing...")
      Info r in
  let r :=
    match createReply b with
    | Data _ => addLog (checkMark ++ " Created bucket: " ++ bucketName b) Success r
    | ErrorResult msg =>
        if negb (Js.includes "already exists" msg) then caught r else r
    | Thrown _ => caught r
    end in
  migrateFilesFromBucket (bucketName b) "" (rootListing b) r.

(** The [try] block of [migrateLiveProject]. *)
Definition migrateLiveProjectBody (sc : LiveScenario) (r : Run)
  : Completion * Run :=
  let r := addLog "Initializing Supabase clients..." Info r in
  match liveClients sc with
  | Raised msg => (Throw msg, r)
  | Returned _ =>
      let r := addLog "Fetching buckets from source project..." Info r in
      let r := request SrcListBuckets r in
      match sourceBuckets sc with
      | ErrorResult msg => (Throw ("Failed to list buckets: " ++ msg), r)
      | Thrown msg => (Throw msg, r)
      | Data buckets =>
          if (length buckets =? 0)%nat then
            let r := addLog "No buckets found in source project" Warning r in
            (Normal, assign (setSuccess "Migration completed (no buckets found)") r)
          else
            let r := addLog ("Found " ++ Js.ofNat (length buckets)
                             ++ " bucket(s): "
                             ++ Js.join ", " (map bucketName buckets)) Info r in
            let r := fold_left (fun r b => processLiveBucket b r) buckets r in
            (Normal,
             assign (fun s =>
               setSuccess ("Migration completed! Processed "
                           ++ Js.ofNat (length buckets) ++ " bucket(s) with "
                           ++ Js.ofNat (progress s) ++ " total files.") s) r)
      end
  end.

(** [migrateLiveProject()], from the state [s0] of the page. *)
Definition migrateLiveProject (sc : LiveScenario) (s0 : State) : Run :=
  let r := interruptedBy (liveSwitches sc) (clearLogs s0) in
  let r := assign (setIsProcessing true) r in
  let r := assign (setCurrentOperation "Migrating from live project") r in
  catchFinally (migrateLiveProjectBody sc r).

(** The page before any run. *)
Definition initialState : State :=
  {| isProcessing := false; progress := 0; totalItems := 0; logs := [];
     error := ""; success := ""; currentOperation := ""; requests := [] |}.

(* ================================================================== *)
(** ** Derived state and markup conditions *)

(** [canMigrateLive], as the [disabled] attribute of the button reads it. *)
Definition canMigrateLive
  (oldProjectUrl oldProjectKey newProjectUrl newProjectKey : string)
  (s : State) : bool :=
  Js.truthy oldProjectUrl && Js.truthy oldProjectKey
  && Js.truthy newProjectUrl && Js.truthy newProjectKey
  && negb (isProcessing s).

(** [canMigrateFromZip]; [selected] tells whether [uploadedZip] is set. *)
Definition canMigrateFromZip (selected : bool)
  (newProjectUrl newProjectKey : string) (s : State) : bool :=
  selected && Js.truthy newProjectUrl && Js.truthy newProjectKey
  && negb (isProcessing s).

(** The condition of the block that renders the progress bar and the log:
    [(totalItems > 0 || logs.length > 0) && !error]. *)
Definition showsProgress (s : State) : bool :=
  ((0 <? totalItems s)%nat || (0 <? length (logs s))%nat)
  && negb (Js.truthy (error s)).

(* ================================================================== *)
(** ** The upload form *)

Module Form.

Inductive ActiveTab := Live | Zip.

(** A [File] of the file input: its [name], its size in megabytes as the
    page prints it ([(file.size / 1024 / 1024).toFixed(2)]), and what
    [zip.loadAsync] makes of it. *)
Record File := {
  name : string;
  sizeText : string;
  contents : Attempt (list ZipObject)
}.

(** The page: the variables that the runs read and write, and those of the
    form. *)
Record Page := {
  view : State;
  uploadedZip : option File;
  detectedBuckets : list string;
  activeTab : ActiveTab
}.

(** [addLog] on the variables of the page. *)
Definition logged (message : string) (type : LogType) (s : State) : State :=
  now (addLog message type (start s)).

(** [handleZipUpload(event)], with [input] for [input.files?.[0]]. *)
Definition handleZipUpload (input : option File) (p : Page) : Page :=
  let rejected :=
    {| view := setError "Please select a valid ZIP file" (view p);
       uploadedZip := None;
       detectedBuckets := detectedBuckets p;
       activeTab := activeTab p |} in
  match input with
  | Some file =>
      if Js.endsWith ".zip" (name file) then
        let s := logged ("ZIP file selected: " ++ name file ++ " ("
                         ++ sizeText file ++ " MB)") Info (view p) in
        let buckets := detectBucketsInZip (contents file) in
        let s :=
          if (0 <? length buckets)%nat
          then logged ("Detected " ++ Js.ofNat (length buckets)
                       ++ " bucket(s): " ++ Js.join ", " buckets) Info s
          else logged "Could not detect bucket structure. Will attempt to parse during migration."
                 Warning s in
        {| view := s;
           uploadedZip := Some file;
           detectedBuckets := buckets;
           activeTab := activeTab p |}
      else rejected
  | None => rejected
  end.

(** [setActiveTab(tab)] *)
Definition setActiveTab (tab : ActiveTab) (p : Page) : Page :=
  {| view := clearedState (view p);
     uploadedZip := uploadedZip p;
     detectedBuckets := detectedBuckets p;
     activeTab := tab |}.

(** The archive that [migrateFromZip] reads: the selected file. *)
Definition archive (p : Page) : option (Attempt (list ZipObject)) :=
  option_map contents (uploadedZip p).

(** [uploadedZip] as a condition. *)
Definition hasFile (p : Page) : bool :=
  match uploadedZip p with
  | Some _ => true
  | None => false
  end.

End Form.

(* ================================================================== *)
(** ** The older variant of the archive mode *)

(** The parts of the older variant of the page that differ from the
    current one and involve no collaborator: the preview written inside
    [handleZipUpload], the grouping written inside [migrateFromZip], and
    the arguments of the probe for an existing object. *)
Module Legacy.

(** The callback of the [forEach] of [handleZipUpload], over the keys of
    [contents.files]. *)
Definition previewBuckets (entries : list ZipObject) : list string :=
  fold_left
    (fun buckets f =>
       let parts := Js.split "/" (name f) in
       if (1 <? length parts)%nat && Js.truthy (nth 0 parts "")
       then setAdd (nth 0 parts "") buckets
       else buckets)
    entries [].

(** The callback of the [forEach] of [migrateFromZip], over
    [Object.entries(contents.files)]; [bucketFiles] is an object literal
    here too, and an exception of the callback ends the [forEach]. *)
Definition groupEntries (entries : list ZipObject) : Attempt BucketFiles :=
  fold_left
    (fun grouped f =>
       match grouped with
       | Raised msg => Raised msg
       | Returned bucketFiles =>
           if dir f then Returned bucketFiles
           else
             let parts := Js.split "/" (name f) in
             if (1 <? length parts)%nat
             then pushFile (nth 0 parts "")
                    {| path := Js.join "/" (Js.slice 1 parts); file := f |}
                    bucketFiles
             else Returned bucketFiles
       end)
    entries (Returned []).

(** [fileInfo.path.split('/').slice(0, -1).join('/')]: the folder that the
    probe lists. *)
Definition probeFolder (path : string) : string :=
  Js.join "/" (removelast (Js.split "/" path)).

(** [fileInfo.path.split('/').pop()]: the name that the probe searches. *)
Definition probeName (path : string) : option string :=
  Js.pop (Js.split "/" path).

End Legacy.

(* ================================================================== *)
(** * Vocabulary of the properties *)

(** ** The rule of the inferencer, in the words of its description *)

(** The first path segments of the non-directory entries. *)
Definition firstSegments (entries : list ZipObject) : list string :=
  flat_map (fun f => if dir f then [] else firstn 1 (pathParts (name f))) entries.

(** The wrapping root: the first segment, when there is exactly one
    distinct first segment and it has the shape of an opaque identifier. *)
Definition wrappingRoot (entries : list ZipObject) : option string :=
  match firstSegments entries with
  | [] => None
  | segment :: others =>
      if forallb (String.eqb segment) others && looksLikeProjectId segment
      then Some segment else None
  end.

(** With a wrapping root the second segment is the bucket and the rest the
    relative path, and shorter entries are skipped; otherwise the first
    segment is the bucket. *)
Definition layoutOf (stripRoot : bool) (parts : list string)
  : option (string * string) :=
  if stripRoot then
    if (3 <=? length parts)%nat
    then Some (nth 1 parts "", Js.join "/" (skipn 2 parts)) else None
  else
    if (2 <=? length parts)%nat
    then Some (nth 0 parts "", Js.join "/" (skipn 1 parts)) else None.

(** The archive has a wrapping root. *)
Definition stripsRoot (entries : list ZipObject) : bool :=
  match wrappingRoot entries with Some _ => true | None => false end.

(** The objects of a bucket, in the order of the archive. *)
Definition objectsOf (bucket : string) (entries : list ZipObject) : list FileInfo :=
  flat_map
    (fun f =>
       if dir f then []
       else match layoutOf (stripsRoot entries) (pathParts (name f)) with
            | Some (b, rel) =>
                if b =? bucket then [{| path := rel; file := f |}] else []
            | None => []
            end)
    entries.

(** An archive entry that is a file, whatever the scenario answers for it. *)
Definition fileEntry (path : string) (decompressed : Attempt unit)
  (uploaded : Reply unit) : ZipObject :=
  {| name := path; dir := false; async := decompressed; uploadReply := uploaded |}.

(** The mapping as the description writes it: bucket names with the
    relative paths of their objects. *)
Definition layout (o : BucketFiles) : list (string * list string) :=
  map (fun bucket => (fst bucket, map path (snd bucket))) o.

(** Every object of every bucket of a mapping satisfies [P]. *)
Definition Inferred (P : FileInfo -> Prop) (o : BucketFiles) : Prop :=
  Forall (fun bucket => Forall P (snd bucket)) o.

(** [set.add] of the elements of a list, in order. *)
Definition addAll (xs set : list string) : list string :=
  fold_left (fun s x => setAdd x s) xs set.

(** The files of a bucket in an object, none when the key is absent. *)
Definition filesIn (bucket : string) (o : BucketFiles) : list FileInfo :=
  match lookup bucket o with
  | Some infos => infos
  | None => []
  end.

(** What the callback of the second [forEach] adds for an entry. *)
Definition cutEntry (rule : list string -> option (string * string))
  (f : ZipObject) : option (string * FileInfo) :=
  if dir f then None
  else match rule (pathParts (name f)) with
       | Some (b, rel) => Some (b, {| path := rel; file := f |})
       | None => None
       end.

(** The grouping of the second [forEach], for any way [cut] of cutting an
    entry into a bucket and an object. *)
Definition group (cut : ZipObject -> option (string * FileInfo))
  (l : list ZipObject) (acc : BucketFiles) : BucketFiles :=
  fold_left
    (fun acc f =>
       match cut f with
       | Some (b, info) => pushOwn b info acc
       | None => acc
       end) l acc.

(** The mapping of the rule: every placed entry pushed on an array of its
    bucket.  It is what [parseZipStructure] returns whenever it returns. *)
Definition infer (entries : list ZipObject) : BucketFiles :=
  group (cutEntry (bucketAndPath (detectRootFolder entries))) entries [].

(** The grouping of the second [forEach] from an object built so far, with
    its exceptions. *)
Definition groupFrom (cut : ZipObject -> option (string * FileInfo))
  (l : list ZipObject) (acc : Attempt BucketFiles) : Attempt BucketFiles :=
  fold_left
    (fun grouped f =>
       match grouped with
       | Raised msg => Raised msg
       | Returned bucketFiles =>
           match cut f with
           | Some (b, info) => pushFile b info bucketFiles
           | None => Returned bucketFiles
           end
       end) l acc.

(** What a call returns, if it returns. *)
Definition returned {A : Type} (a : Attempt A) : option A :=
  match a with
  | Returned x => Some x
  | Raised _ => None
  end.

(** No bucket of the mapping has the name of an inherited member. *)
Definition plainKeys (o : BucketFiles) : bool :=
  forallb (fun bucket => negb (inherited (fst bucket))) o.

(** The objects that [cut] gives to a bucket. *)
Definition selected (cut : ZipObject -> option (string * FileInfo))
  (bucket : string) (l : list ZipObject) : list FileInfo :=
  flat_map
    (fun f =>
       match cut f with
       | Some (b, info) => if b =? bucket then [info] else []
       | None => []
       end) l.

(** ** Histories of runs *)

(** [Evolves Step r r']: the run [r'] continues [r] by assignments that
    each satisfy [Step] between the state before and the state after. *)
Inductive Evolves (Step : State -> State -> Prop) (r : Run) : Run -> Prop :=
| Evolves_refl : Evolves Step r r
| Evolves_assign (r' : Run) (f : State -> State) :
    Evolves Step r r' -> Step (now r') (f (now r')) ->
    Evolves Step r (assign f r').

(** [l] is an initial segment of [l']. *)
Definition Prefix {A : Type} (l l' : list A) : Prop := exists t, l' = l ++ t.

(** The steps of a run in either mode while the tabs are left alone: the
    counter never decreases, and log entries and requests are only
    appended. *)
Definition Grows (s s' : State) : Prop :=
  progress s <= progress s'
  /\ Prefix (logs s) (logs s')
  /\ Prefix (requests s) (requests s').

(** Every bucket creation requested so far is private. *)
Definition PrivateOnly (s : State) : Prop :=
  forall n p, In (DstCreateBucket n p) (requests s) -> p = false.

(** The steps of an archive run once the total is set. *)
Definition ZipStep (s s' : State) : Prop :=
  Grows s s'
  /\ totalItems s' = totalItems s
  /\ (PrivateOnly s -> PrivateOnly s').

(** A request of a transfer: a decompression or an upload. *)
Definition isTransfer (q : Request) : bool :=
  match q with
  | ZipAsync _ | DstUpload _ _ _ | SrcDownload _ _ => true
  | _ => false
  end.

(** The counters at rest, before anything is transferred. *)
Definition AtRest (s : State) : Prop :=
  totalItems s = 0 /\ progress s = 0 /\ filter isTransfer (requests s) = []
  /\ PrivateOnly s /\ success s = "".

(** The counter is within the total. *)
Definition Bounded (s : State) : Prop := progress s <= totalItems s.

(** [Counted k r]: every state of [r] is bounded, and the current one
    leaves room for [k] more increments. *)
Definition Counted (k : nat) (r : Run) : Prop :=
  progress (now r) + k <= totalItems (now r) /\ Forall Bounded (history r).

(** Later states never have a smaller counter than earlier ones. *)
Definition Monotone (r : Run) : Prop :=
  StronglySorted (fun newer older => progress older <= progress newer)
    (history r).

(** ** Plans, buckets and source trees *)

(** The number of objects of a plan. *)
Definition planSize (entries : list (string * list FileInfo)) : nat :=
  list_sum (map (fun entry => length (snd entry)) entries).

(** The run at the start of the loop over the buckets of the plan. *)
Definition planStart (bucketFiles : BucketFiles) (pre : Run) : Run :=
  let r := assign (setTotalItems (countFiles bucketFiles)) pre in
  let r := addLog ("Total files to upload: "
                   ++ Js.ofNat (totalItems (now r))) Info r in
  request DstListBuckets r.

(** The archive gives no plan: it cannot be read, or no bucket is inferred
    from it. *)
Definition noPlan (loaded : Attempt (list ZipObject)) : Prop :=
  match loaded with
  | Raised _ => True
  | Returned entries => infer entries = []
  end.

(** The names that [migrateFromZip] takes for the existing buckets, when
    the listing does not throw. *)
Definition knownBuckets (sc : ZipScenario) : option (list string) :=
  match existingBuckets sc with
  | Data names => Some names
  | ErrorResult _ => Some []
  | Thrown _ => None
  end.

(** The destination has the bucket, or accepts or already has it when its
    creation is requested: the objects of the bucket are uploaded. *)
Definition bucketReady (sc : ZipScenario) (existing : list string) (b : string)
  : bool :=
  existsb (String.eqb b) existing ||
  match thrownBy (createBucket sc b) with
  | None => true
  | Some msg => Js.includes "already exists" msg
  end.

(** The destination creates the bucket of a live run, or reports that it
    already exists. *)
Definition bucketAccepted (b : SourceBucket) : bool :=
  match createReply b with
  | Data _ => true
  | ErrorResult msg => Js.includes "already exists" msg
  | Thrown _ => false
  end.

(** The items of a listing that succeeded. *)
Definition childrenOf (listed : Reply (list FileObject)) : list FileObject :=
  match listed with
  | Data files => files
  | _ => []
  end.

(** ** Errors caught *)

(** The transfer of an object of the archive fails: its decompression or
    its upload does. *)
Definition objectFails (info : FileInfo) : bool :=
  match async (file info) with
  | Raised _ => true
  | Returned _ =>
      match thrownBy (uploadReply (file info)) with
      | Some _ => true
      | None => false
      end
  end.

(** The errors caught for a bucket of the plan, apart from an "already
    exists" reply to its creation: the failed transfers of its objects, or
    the failure of its creation. *)
Definition bucketFailures (sc : ZipScenario) (existing : list string)
  (entry : string * list FileInfo) : nat :=
  if bucketReady sc existing (fst entry)
  then length (filter objectFails (snd entry))
  else 1.

(** The errors caught in an archive run, apart from "already exists"
    replies to bucket creations. *)
Definition zipFailures (sc : ZipScenario) (loaded : Attempt (list ZipObject))
  : nat :=
  match zipClient sc with
  | Raised _ => 1
  | Returned _ =>
      match loaded with
      | Raised _ => 1
      | Returned entries =>
          match parsed entries with
          | Raised _ => 1
          | Returned [] => 1
          | Returned plan =>
              match knownBuckets sc with
              | None => 1
              | Some names =>
                  list_sum (map (bucketFailures sc names) (objectEntries plan))
              end
          end
      end
  end.

(** The transfer of a file of the source fails: its download or its upload
    does. *)
Definition transferFails (downloaded uploaded : Reply unit) : bool :=
  match thrownBy downloaded, thrownBy uploaded with
  | None, None => false
  | _, _ => true
  end.

(** The listings and transfers that fail below an item of the source. *)
Fixpoint failuresOf (f : FileObject) : nat :=
  match f with
  | mkFileObject _ mime downloaded uploaded listed =>
      if Js.truthy mime
      then (if transferFails downloaded uploaded then 1 else 0)
      else match listed with
           | Data files => list_sum (map failuresOf files)
           | _ => 1
           end
  end.

(** The listings and transfers that fail in a listing and below it. *)
Definition listingFailures (listed : Reply (list FileObject)) : nat :=
  match listed with
  | Data files => list_sum (map failuresOf files)
  | _ => 1
  end.

(** The errors caught in a live run, apart from those of bucket creations. *)
Definition liveFailures (sc : LiveScenario) : nat :=
  match liveClients sc with
  | Raised _ => 1
  | Returned _ =>
      match sourceBuckets sc with
      | Data buckets =>
          list_sum (map (fun b => listingFailures (rootListing b)) buckets)
      | _ => 1
      end
  end.

(** The number of [Error] entries logged so far. *)
Definition errors (r : Run) : nat := errorCount (logs (now r)).

(** ** Scenarios *)

(** An archive that JSZip cannot read. *)
Definition corruptArchive : ZipScenario :=
  {| uploadedZip := Some (Raised "Corrupted zip: can't find end of central directory");
     zipClient := Returned tt;
     existingBuckets := Data [];
     createBucket := fun _ => Data tt;
     zipSwitches := [] |}.

(** An archive with two buckets, of which the destination has one. *)
Definition twoBuckets : ZipScenario :=
  {| uploadedZip :=
       Some (Returned [fileEntry "photos/a.png" (Returned tt) (Data tt);
                       fileEntry "docs/b.pdf" (Returned tt) (Data tt)]);
     zipClient := Returned tt;
     existingBuckets := Data ["photos"];
     createBucket := fun _ => Data tt;
     zipSwitches := [] |}.

(** An archive of three objects in one bucket, of which the second cannot
    be uploaded. *)
Definition secondUploadFails : ZipScenario :=
  {| uploadedZip :=
       Some (Returned [fileEntry "photos/a.png" (Returned tt) (Data tt);
                       fileEntry "photos/b.png" (Returned tt)
                         (ErrorResult "Payload too large");
                       fileEntry "photos/c.png" (Returned tt) (Data tt)]);
     zipClient := Returned tt;
     existingBuckets := Data [];
     createBucket := fun _ => Data tt;
     zipSwitches := [] |}.

(** The same archive and the same answers, and one click on a tab while
    the run waits for the upload of the third object: the ninth [await] of
    the run, after the reading of the archive, the listing and the creation
    of the bucket, and two awaits for each of the first two objects. *)
Definition tabSwitchedDuringUpload : ZipScenario :=
  {| uploadedZip := uploadedZip secondUploadFails;
     zipClient := Returned tt;
     existingBuckets := Data [];
     createBucket := fun _ => Data tt;
     zipSwitches := [0; 0; 0; 0; 0; 0; 0; 0; 1] |}.

(** An archive with a bucket folder named as a member that every object
    inherits from [Object.prototype]. *)
Definition inheritedBucketName : ZipScenario :=
  {| uploadedZip :=
       Some (Returned [fileEntry "constructor/a.png" (Returned tt) (Data tt);
                       fileEntry "photos/b.png" (Returned tt) (Data tt)]);
     zipClient := Returned tt;
     existingBuckets := Data [];
     createBucket := fun _ => Data tt;
     zipSwitches := [] |}.

(** An archive whose only bucket the destination refuses to create. *)
Definition creationDeniedZip : ZipScenario :=
  {| uploadedZip :=
       Some (Returned [fileEntry "photos/a.png" (Returned tt) (Data tt)]);
     zipClient := Returned tt;
     existingBuckets := Data [];
     createBucket :=
       fun _ => ErrorResult "new row violates row-level security policy";
     zipSwitches := [] |}.

(** A PNG file of the source that can be downloaded, with the reply to its
    upload. *)
Definition sourceFile (fname : string) (uploaded : Reply unit) : FileObject :=
  mkFileObject fname "image/png" (Data tt) uploaded (Data []).

(** A source with one bucket of three files, of which the second cannot be
    uploaded. *)
Definition secondTransferFails : LiveScenario :=
  {| liveClients := Returned tt;
     sourceBuckets :=
       Data [ {| bucketName := "photos"; public := false;
                 createReply := Data tt;
                 rootListing :=
                   Data [ sourceFile "a.png" (Data tt);
                          sourceFile "b.png" (ErrorResult "Payload too large");
                          sourceFile "c.png" (Data tt) ] |} ];
     liveSwitches := [] |}.

(** A source whose only bucket the destination refuses to create. *)
Definition creationDenied : LiveScenario :=
  {| liveClients := Returned tt;
     sourceBuckets :=
       Data [ {| bucketName := "photos"; public := false;
                 createReply := ErrorResult "new row violates row-level security policy";
                 rootListing := Data [ sourceFile "a.png" (Data tt) ] |} ];
     liveSwitches := [] |}.

(** ** Entries and archives *)

(** The entry is given a bucket and a relative path by the rule of the
    archive. *)
Definition placed (entries : list ZipObject) (f : ZipObject) : bool :=
  negb (dir f) &&
  match layoutOf (stripsRoot entries) (pathParts (name f)) with
  | Some _ => true
  | None => false
  end.

(** The entry moved into the folder [root]. *)
Definition wrapEntry (root : string) (f : ZipObject) : ZipObject :=
  {| name := root ++ "/" ++ name f; dir := dir f; async := async f;
     uploadReply := uploadReply f |}.

(** The name of an entry has no empty segment: no leading, trailing or
    doubled slash. *)
Definition cleanName (p : string) : Prop := pathParts p = Js.split "/" p.

(** The candidates that the preview collects before it filters them. *)
Definition candidates (entries : list ZipObject) (set : list string)
  : list string :=
  fold_left
    (fun set f =>
       let parts := pathParts (name f) in
       if (2 <=? length parts)%nat && negb (dir f) then
         let set := setAdd (nth 0 parts "") set in
         if (3 <=? length parts)%nat then setAdd (nth 1 parts "") set
         else set
       else set)
    entries set.

(** ** Steps of the [try] blocks *)

(** The assignments made while a [try] block of the two drivers runs:
    a log entry, a request, an increment of the counter, a new total, the
    success summary, and the reset of a tab switch. *)
Inductive BodyStep : State -> State -> Prop :=
| BodyStep_log (s : State) (e : LogEntry) :
    BodyStep s (setLogs (logs s ++ [e]) s)
| BodyStep_request (s : State) (q : Request) :
    BodyStep s (setRequests (requests s ++ [q]) s)
| BodyStep_progress (s : State) :
    BodyStep s (setProgress (progress s + 1) s)
| BodyStep_total (s : State) (n : nat) :
    BodyStep s (setTotalItems n s)
| BodyStep_success (s : State) (m : string) :
    BodyStep s (setSuccess m s)
| BodyStep_switch (s : State) :
    BodyStep s (tabSwitched s).

(** The user leaves the tabs alone during the run. *)
Definition Quiet (r : Run) : Prop := switches r = [].

(** Log entries and requests are appended, never removed or changed. *)
Definition Appends (s s' : State) : Prop :=
  Prefix (logs s) (logs s') /\ Prefix (requests s) (requests s').

(** The steps before anything is counted keep the counters at rest. *)
Definition Rests (s s' : State) : Prop := AtRest s -> AtRest s'.

(** [pre] is an archive run before its plan is counted.  From the reset on
    its steps have kept the counters at rest; and if the tabs are left
    alone, it has only grown since the reset and has logged no error. *)
Definition BeforePlan (sc : ZipScenario) (s0 : State) (pre : Run) : Prop :=
  Evolves Rests (interruptedBy (zipSwitches sc) (clearLogs s0)) pre
  /\ (zipSwitches sc = [] ->
      Quiet pre /\ Evolves Grows (clearLogs s0) pre /\ errors pre = 0).

(** The files transferred in the part of the source tree below an item. *)
Fixpoint migratedIn (f : FileObject) : nat :=
  match f with
  | mkFileObject _ mime downloaded uploaded listed =>
      if Js.truthy mime
      then (if transferFails downloaded uploaded then 0 else 1)
      else match listed with
           | Data files => list_sum (map migratedIn files)
           | _ => 0
           end
  end.

(** The items (files and folders) of the listings made below an item. *)
Fixpoint listedIn (f : FileObject) : nat :=
  match f with
  | mkFileObject _ mime _ _ listed =>
      if Js.truthy mime then 0
      else match listed with
           | Data files => length files + list_sum (map listedIn files)
           | _ => 0
           end
  end.

(** The objects of the buckets of a plan that are ready: those whose
    transfer is attempted. *)
Definition attempted (sc : ZipScenario) (existing : list string)
  (entries : list (string * list FileInfo)) : nat :=
  list_sum (map (fun entry =>
                   if bucketReady sc existing (fst entry)
                   then length (snd entry) else 0) entries).

(** The run ended in the failed state, with this reason. *)
Definition EndsFailed (s : State) (reason : string) : Prop :=
  isFailed s = true /\ isCompleted s = false /\ error s = reason
  /\ isProcessing s = false.

(** The run ended in the completed state. *)
Definition EndsCompleted (s : State) : Prop :=
  isCompleted s = true /\ isFailed s = false /\ error s = ""
  /\ isProcessing s = false.

(** The first state of a run is the reset one, its last state has released
    the processing flag, and in every state between them the flag is set,
    so that neither migration can be started. *)
Definition BusyBetween (run : Run) (s0 : State) : Prop :=
  isProcessing (now run) = false
  /\ exists middle,
       history run = now run :: middle ++ [clearedState s0]
       /\ Forall (fun s =>
                    isProcessing s = true
                    /\ (forall a b c d, canMigrateLive a b c d s = false)
                    /\ (forall z a b, canMigrateFromZip z a b s = false))
            middle.

(** How a run ends. *)
Inductive Outcome := Completed | Failed (reason : string).

Definition Ends (s : State) (o : Outcome) : Prop :=
  match o with
  | Completed => EndsCompleted s
  | Failed reason => EndsFailed s reason
  end.

(** What decides the end of a live run: the creation of the clients and the
    listing of the source buckets, in this order. *)
Definition liveOutcome (sc : LiveScenario) : Outcome :=
  match liveClients sc with
  | Raised msg => Failed msg
  | Returned _ =>
      match sourceBuckets sc with
      | Data _ => Completed
      | ErrorResult msg => Failed ("Failed to list buckets: " ++ msg)
      | Thrown msg => Failed msg
      end
  end.

(** What decides the end of an archive run: the creation of the client, the
    reading of the archive, the parse of its layout and the listing of the
    destination buckets, in this order.  A listing that returns an error is
    read as an empty listing. *)
Definition zipOutcome (sc : ZipScenario) (loaded : Attempt (list ZipObject))
  : Outcome :=
  match zipClient sc with
  | Raised msg => Failed msg
  | Returned _ =>
      match loaded with
      | Raised msg => Failed msg
      | Returned entries =>
          match parsed entries with
          | Raised msg => Failed msg
          | Returned [] => Failed "No valid bucket structure found in ZIP file"
          | Returned (_ :: _) =>
              match existingBuckets sc with
              | Thrown msg => Failed msg
              | _ => Completed
              end
          end
      end
  end.

(** The folders among an item of the source and the items listed below it. *)
Fixpoint foldersIn (f : FileObject) : nat :=
  match f with
  | mkFileObject _ mime _ _ listed =>
      if Js.truthy mime then 0
      else 1 + match listed with
               | Data files => list_sum (map foldersIn files)
               | _ => 0
               end
  end.

(** The files whose transfer fails among an item of the source and the
    items listed below it. *)
Fixpoint failedIn (f : FileObject) : nat :=
  match f with
  | mkFileObject _ mime downloaded uploaded listed =>
      if Js.truthy mime
      then (if transferFails downloaded uploaded then 1 else 0)
      else match listed with
           | Data files => list_sum (map failedIn files)
           | _ => 0
           end
  end.

(** The sum of a count over the items at the root of the buckets that a
    live run walks. *)
Definition overSource (count : FileObject -> nat) (sc : LiveScenario) : nat :=
  match liveClients sc, sourceBuckets sc with
  | Returned _, Data buckets =>
      list_sum (map (fun b => list_sum (map count (childrenOf (rootListing b))))
                  buckets)
  | _, _ => 0
  end.

(** The objects of the buckets of a plan that are not ready: those that the
    run leaves out. *)
Definition leftOut (sc : ZipScenario) (existing : list string)
  (entries : list (string * list FileInfo)) : nat :=
  list_sum (map (fun entry =>
                   if bucketReady sc existing (fst entry)
                   then 0 else length (snd entry)) entries).

(** ** Traces of requests *)

(** The requests made for an object of the plan: its decompression and,
    when that succeeds, its upload. *)
Definition objectRequests (b : string) (info : FileInfo) : list Request :=
  ZipAsync (name (file info)) ::
  match async (file info) with
  | Returned _ => [DstUpload b (path info) (getMimeType (path info))]
  | Raised _ => []
  end.

(** The requests made for a bucket of the plan: its creation unless the
    destination lists it, then its objects if it is ready. *)
Definition bucketRequests (sc : ZipScenario) (existing : list string)
  (entry : string * list FileInfo) : list Request :=
  (if existsb (String.eqb (fst entry)) existing then []
   else [DstCreateBucket (fst entry) false])
  ++ (if bucketReady sc existing (fst entry)
      then flat_map (objectRequests (fst entry)) (snd entry) else []).

(** The requests of an archive run, in the order in which they are made. *)
Definition zipRequests (sc : ZipScenario) (loaded : Attempt (list ZipObject))
  : list Request :=
  match zipClient sc with
  | Raised _ => []
  | Returned _ =>
      ZipLoadAsync ::
      match loaded with
      | Raised _ => []
      | Returned entries =>
          match parsed entries with
          | Raised _ | Returned [] => []
          | Returned plan =>
              DstListBuckets ::
              match knownBuckets sc with
              | None => []
              | Some names =>
                  flat_map (bucketRequests sc names) (objectEntries plan)
              end
          end
      end
  end.

(** The requests made for an item of the source listed in [dirPath]: the
    download and, when that succeeds, the upload of a file; the listing of
    a folder and the requests of what it lists. *)
Fixpoint itemRequests (b dirPath : string) (f : FileObject) : list Request :=
  match f with
  | mkFileObject fname mime downloaded _ listed =>
      let filePath := joinPath dirPath fname in
      if Js.truthy mime
      then SrcDownload b filePath ::
           match thrownBy downloaded with
           | Some _ => []
           | None => [DstUpload b filePath (Str mime)]
           end
      else SrcList b filePath ::
           match listed with
           | Data files => flat_map (itemRequests b filePath) files
           | _ => []
           end
  end.

(** The requests made for a bucket of the source. *)
Definition sourceBucketRequests (b : SourceBucket) : list Request :=
  DstCreateBucket (bucketName b) (public b)
  :: SrcList (bucketName b) ""
  :: flat_map (itemRequests (bucketName b) "") (childrenOf (rootListing b)).

(** The requests of a live run, in the order in which they are made. *)
Definition liveRequests (sc : LiveScenario) : list Request :=
  match liveClients sc with
  | Raised _ => []
  | Returned _ =>
      SrcListBuckets ::
      match sourceBuckets sc with
      | Data buckets => flat_map sourceBucketRequests buckets
      | _ => []
      end
  end.

(** An upload at the head of a list of requests. *)
Definition startsWithUpload (l : list Request) : bool :=
  match l with
  | DstUpload _ _ _ :: _ => true
  | _ => false
  end.

(** Every upload of the list comes immediately after the download of the
    same path of the same bucket. *)
Definition UploadsFollowDownloads (l : list Request) : Prop :=
  forall before b p ct after,
    l = before ++ DstUpload b p ct :: after ->
    exists before', before = before' ++ [SrcDownload b p].

(** What the grouping of the older variant adds for an entry. *)
Definition legacyCut (f : ZipObject) : option (string * FileInfo) :=
  if dir f then None
  else match layoutOf false (Js.split "/" (name f)) with
       | Some (b, rel) => Some (b, {| path := rel; file := f |})
       | None => None
       end.

(* ================================================================== *)
(** * Properties *)

(** ** Content-type resolver *)

Section ContentType.

Lemma lowerChar_dot (c : ascii) :
  Ascii.eqb (Js.lowerChar c) "." = Ascii.eqb c ".".
Proof. destruct c as [[] [] [] [] [] [] [] []]; reflexivity. Qed.

Lemma lowerChar_idem (c : ascii) : Js.lowerChar (Js.lowerChar c) = Js.lowerChar c.
Proof. destruct c as [[] [] [] [] [] [] [] []]; reflexivity. Qed.

Lemma toLowerCase_idem (s : string) :
  Js.toLowerCase (Js.toLowerCase s) = Js.toLowerCase s.
Proof.
  induction s as [|c s IH]; simpl; [reflexivity|].
  now rewrite lowerChar_idem, IH.
Qed.

Lemma split_nonempty (sep : ascii) (s : string) : Js.split sep s <> [].
Proof.
  destruct s as [|c s]; simpl; [discriminate|].
  destruct (Ascii.eqb c sep); [discriminate|].
  destruct (Js.split sep s); discriminate.
Qed.

Lemma split_toLowerCase (s : string) :
  Js.split "." (Js.toLowerCase s) = map Js.toLowerCase (Js.split "." s).
Proof.
  induction s as [|c s IH]; simpl; [reflexivity|].
  rewrite lowerChar_dot, IH.
  destruct (Ascii.eqb c "."); [reflexivity|].
  destruct (Js.split "." s); reflexivity.
Qed.

Lemma pop_map (f : string -> string) (l : list string) :
  Js.pop (map f l) = option_map f (Js.pop l).
Proof.
  induction l as [|x [|y l] IH]; try reflexivity.
  exact IH.
Qed.

Lemma extension_toLowerCase (f : string) :
  extension (Js.toLowerCase f) = extension f.
Proof.
  unfold extension.
  rewrite split_toLowerCase, pop_map.
  destruct (Js.pop (Js.split "." f)); simpl; [apply toLowerCase_idem | reflexivity].
Qed.

Lemma getMimeType_toLowerCase (f : string) :
  getMimeType (Js.toLowerCase f) = getMimeType f.
Proof. unfold getMimeType. now rewrite extension_toLowerCase. Qed.

(** A name without a dot is its own last piece. *)
Lemma split_without_dot (s : string) :
  Js.includes "." s = false -> Js.split "." s = [s].
Proof.
  induction s as [|c s IH]; [reflexivity|].
  cbn [Js.includes Js.startsWith Js.split].
  rewrite (Ascii.eqb_sym "." c).
  destruct (Ascii.eqb c ".") eqn:E.
  - destruct s; discriminate.
  - rewrite andb_false_l, orb_false_l. intros H. rewrite (IH H). reflexivity.
Qed.

Lemma pop_app (pre l : list string) : l <> [] -> Js.pop (pre ++ l) = Js.pop l.
Proof.
  intros Hl. induction pre as [|x pre IH]; [reflexivity|].
  simpl. rewrite IH. destruct (pre ++ l) eqn:E; [|reflexivity].
  apply app_eq_nil in E. tauto.
Qed.

Lemma split_append (base ext : string) :
  exists h t, Js.split "." (base ++ "." ++ ext) = (h :: t) ++ Js.split "." ext.
Proof.
  induction base as [|c base (h & t & IH)]; simpl.
  - now exists EmptyString, [].
  - simpl in IH. rewrite IH. destruct (Ascii.eqb c ".").
    + now exists EmptyString, (h :: t).
    + now exists (String c h), t.
Qed.

Lemma pop_split_append (base ext : string) :
  Js.pop (Js.split "." (base ++ "." ++ ext)) = Js.pop (Js.split "." ext).
Proof.
  destruct (split_append base ext) as (h & t & ->).
  apply pop_app, split_nonempty.
Qed.

Lemma lookup_In {A : Type} (key : string) (obj : list (string * A)) (v : A) :
  lookup key obj = Some v -> In (key, v) obj.
Proof.
  induction obj as [|[k w] obj IH]; simpl; [discriminate|].
  destruct (k =? key) eqn:E.
  - apply String.eqb_eq in E. intros [= ->]. left. now subst.
  - intros H. right. now apply IH.
Qed.

End ContentType.

Lemma get_lookup {A : Type} (key : string) (obj : list (string * A)) :
  get key obj = match lookup key obj with
                | Some a => Own a
                | None => if inherited key then Inherited else Undefined
                end.
Proof. reflexivity. Qed.

(** C5 (as the code has it).  For a name whose looked-up piece is not the
    name of a member that the table inherits from [Object.prototype],
    [getMimeType] returns a string: a value of the table or the default
    type.  Two names that differ only in letter case get the same result;
    ["a.b.JPG"] gives [image/jpeg], ["noext"] and ["x.unknownext"] give the
    default.  What is looked up is the lower-cased piece after the last
    dot, and the whole name when it has no dot: a piece that is neither a
    key nor such a name gives [application/octet-stream]. *)
Theorem getMimeType_resolves :
  (forall f, inherited (extension f) = false ->
             getMimeType f = Str "application/octet-stream"
             \/ exists m, getMimeType f = Str m
                          /\ In (extension f, m) mimeTypes)
  /\ (forall f g, Js.toLowerCase f = Js.toLowerCase g ->
                  getMimeType f = getMimeType g)
  /\ getMimeType "a.b.JPG" = Str "image/jpeg"
  /\ getMimeType "noext" = Str "application/octet-stream"
  /\ getMimeType "x.unknownext" = Str "application/octet-stream"
  /\ (forall f, lookup (extension f) mimeTypes = None ->
                inherited (extension f) = false ->
                getMimeType f = Str "application/octet-stream")
  /\ (forall base ext, Js.includes "." ext = false ->
                       extension (base ++ "." ++ ext) = Js.toLowerCase ext)
  /\ (forall f, Js.includes "." f = false -> extension f = Js.toLowerCase f).
Proof.
  repeat split.
  - intros f Hplain. unfold getMimeType. rewrite get_lookup, Hplain.
    destruct (lookup (extension f) mimeTypes) as [m|] eqn:E; [|now left].
    destruct (Js.truthy m); [right; exists m; split; [reflexivity|] | now left].
    now apply lookup_In.
  - intros f g H.
    rewrite <- (getMimeType_toLowerCase f), <- (getMimeType_toLowerCase g).
    now rewrite H.
  - intros f H Hplain. unfold getMimeType. now rewrite get_lookup, H, Hplain.
  - intros base ext H. unfold extension.
    rewrite pop_split_append, (split_without_dot _ H). reflexivity.
  - intros f H. unfold extension. rewrite (split_without_dot _ H). reflexivity.
Qed.

(** The case-insensitive lookup and the rule for names without a dot, at
    ["a.b.JPG"], ["a.b.jpg"] and ["noext"]. *)
Lemma getMimeType_resolves_witness :
  getMimeType "a.b.JPG" = getMimeType "a.b.jpg"
  /\ getMimeType "noext" = Str "application/octet-stream"
  /\ extension ("a.b" ++ "." ++ "JPG") = "jpg"
  /\ extension "noext" = "noext".
Proof.
  destruct getMimeType_resolves as (_ & Hcase & _ & _ & _ & Hunk & Hext & Hnodot).
  split; [apply Hcase; reflexivity|].
  split; [apply Hunk; reflexivity|].
  split; [apply (Hext "a.b" "JPG"); reflexivity|].
  apply Hnodot; reflexivity.
Defined.

(** C5 as stated fails: a name with no extension at all is not always
    given the default type.  ["pdf"] has no dot, and gets [application/pdf]. *)
Lemma getMimeType_missing_extension_counterexample :
  Js.includes "." "pdf" = false
  /\ getMimeType "pdf" = Str "application/pdf"
  /\ getMimeType "pdf" <> Str "application/octet-stream".
Proof. split; [reflexivity | split; [reflexivity | discriminate]]. Qed.

(** The pieces that name an inherited member: the result is that member,
    not a string. *)
Lemma getMimeType_inherited_member :
  getMimeType "report.constructor" = Member "constructor"
  /\ getMimeType "x.__PROTO__" = Member "__proto__"
  /\ getMimeType "x.tostring" = Str "application/octet-stream".
Proof. repeat split. Qed.

(* ================================================================== *)
(** ** Archive layout inferencer *)

Section Layout.

Lemma pathParts_nonempty (p part : string) :
  In part (pathParts p) -> part <> "".
Proof.
  unfold pathParts. rewrite filter_In. intros [_ H] ->. discriminate.
Qed.

Lemma join_nonempty (sep head : string) (rest : list string) :
  head <> "" -> Js.join sep (head :: rest) <> "".
Proof.
  intros Hh. destruct head as [|c head]; [contradiction|].
  destruct rest; simpl; discriminate.
Qed.

Lemma join_slice_nonempty (k : nat) (p : string) :
  k < length (pathParts p) -> Js.join "/" (Js.slice k (pathParts p)) <> "".
Proof.
  intros Hk. unfold Js.slice.
  destruct (skipn k (pathParts p)) as [|head rest] eqn:E.
  - assert (length (skipn k (pathParts p)) = 0) as Hl by now rewrite E.
    rewrite length_skipn in Hl. lia.
  - apply join_nonempty, (pathParts_nonempty p).
    rewrite <- (firstn_skipn k (pathParts p)), E.
    apply in_or_app. right. now left.
Qed.

(** What [bucketAndPath] returns was cut from at least two parts, three
    when the first part is the root folder, and its relative path is not
    empty. *)
Lemma bucketAndPath_Some (rootFolder : option string) (p b rel : string) :
  bucketAndPath rootFolder (pathParts p) = Some (b, rel) ->
  rel <> ""
  /\ 2 <= length (pathParts p)
  /\ (forall root rest, rootFolder = Some root -> pathParts p = root :: rest ->
        3 <= length (pathParts p)).
Proof.
  unfold bucketAndPath.
  destruct rootFolder as [root|].
  - destruct (pathParts p) as [|part0 rest] eqn:E.
    + simpl. discriminate.
    + destruct (Js.truthy root && (part0 =? root)) eqn:Hu.
      * destruct (3 <=? length (part0 :: rest))%nat eqn:H3; [|discriminate].
        apply Nat.leb_le in H3. intros [= <- <-].
        split; [|split; [lia | intros; lia]].
        change (Js.join "/" (Js.slice 2 (part0 :: rest)) <> "").
        rewrite <- E. apply join_slice_nonempty. rewrite E. lia.
      * destruct (2 <=? length (part0 :: rest))%nat eqn:H2; [|discriminate].
        apply Nat.leb_le in H2. intros [= <- <-].
        split; [|split; [lia|]].
        -- change (Js.join "/" (Js.slice 1 (part0 :: rest)) <> "").
           rewrite <- E. apply join_slice_nonempty. rewrite E. lia.
        -- intros root0 rest0 [= <-] [= -> <-].
           rewrite String.eqb_refl, andb_true_r in Hu.
           unfold Js.truthy in Hu. apply negb_false_iff, String.eqb_eq in Hu.
           subst. exfalso. apply (pathParts_nonempty p ""); [|reflexivity].
           rewrite E. now left.
  - replace (match pathParts p with [] => false | _ :: _ => false end)
      with false by now destruct (pathParts p).
    destruct (2 <=? length (pathParts p))%nat eqn:H2; [|discriminate].
    apply Nat.leb_le in H2. intros [= <- <-].
    split; [|split; [lia | discriminate]].
    change (Js.join "/" (Js.slice 1 (pathParts p)) <> "").
    apply join_slice_nonempty; lia.
Qed.

Lemma pushOwn_Inferred (P : FileInfo -> Prop) (b : string) (info : FileInfo)
  (o : BucketFiles) :
  P info -> Inferred P o -> Inferred P (pushOwn b info o).
Proof.
  intros Hi. induction 1 as [|[k infos] o Hk Ho IH]; simpl.
  - repeat constructor. exact Hi.
  - destruct (k =? b).
    + constructor; [|exact Ho]. simpl in *.
      apply Forall_app. split; [exact Hk | now constructor].
    + constructor; [exact Hk | exact IH].
Qed.

Lemma group_Inferred (P : FileInfo -> Prop) (rootFolder : option string)
  (entries : list ZipObject) :
  (forall f b rel, In f entries -> dir f = false ->
     bucketAndPath rootFolder (pathParts (name f)) = Some (b, rel) ->
     P {| path := rel; file := f |}) ->
  Inferred P (group (cutEntry (bucketAndPath rootFolder)) entries []).
Proof.
  unfold group, cutEntry.
  assert (G : forall l acc, (forall f, In f l -> In f entries) ->
    (forall f b rel, In f entries -> dir f = false ->
       bucketAndPath rootFolder (pathParts (name f)) = Some (b, rel) ->
       P {| path := rel; file := f |}) ->
    Inferred P acc ->
    Inferred P (fold_left
      (fun acc f =>
         match (if dir f then None
                else match bucketAndPath rootFolder (pathParts (name f)) with
                     | Some (b, rel) => Some (b, {| path := rel; file := f |})
                     | None => None
                     end) with
         | Some (b, info) => pushOwn b info acc
         | None => acc
         end) l acc)).
  { induction l as [|f l IH]; intros acc Hsub HP Hacc; simpl; [exact Hacc|].
    apply IH; [intros g Hg; apply Hsub; now right | exact HP |].
    destruct (dir f) eqn:Hd; [exact Hacc|].
    destruct (bucketAndPath rootFolder (pathParts (name f))) as [[b rel]|] eqn:E;
      [|exact Hacc].
    apply pushOwn_Inferred; [|exact Hacc].
    apply (HP f b rel); [apply Hsub; now left | exact Hd | exact E]. }
  intros HP. apply G; [auto | exact HP | constructor].
Qed.

End Layout.

Section RootDetection.

Lemma rootCandidates_addAll (entries : list ZipObject) (set : list string) :
  fold_left
    (fun set f =>
       if dir f then set
       else match pathParts (name f) with
            | [] => set
            | part0 :: _ => setAdd part0 set
            end) entries set
  = addAll (firstSegments entries) set.
Proof.
  revert set. induction entries as [|f entries IH]; intros set; [reflexivity|].
  cbn [fold_left firstSegments flat_map]. unfold addAll.
  rewrite fold_left_app. fold (addAll (firstSegments entries)).
  rewrite IH. f_equal.
  destruct (dir f); [reflexivity|].
  destruct (pathParts (name f)); reflexivity.
Qed.

Lemma setAdd_length (x : string) (set : list string) :
  length set <= length (setAdd x set).
Proof.
  unfold setAdd. destruct (existsb (String.eqb x) set); [lia|].
  rewrite length_app. simpl. lia.
Qed.

Lemma addAll_length (xs set : list string) :
  length set <= length (addAll xs set).
Proof.
  revert set. induction xs as [|x xs IH]; intros set; simpl; [lia|].
  etransitivity; [apply (setAdd_length x) | apply IH].
Qed.

Lemma addAll_same (s : string) (xs : list string) :
  forallb (String.eqb s) xs = true -> addAll xs [s] = [s].
Proof.
  induction xs as [|x xs IH]; simpl; [reflexivity|].
  intros H. apply andb_prop in H as [Hx Hxs].
  apply String.eqb_eq in Hx. subst x.
  unfold setAdd at 1. simpl. rewrite String.eqb_refl. simpl. now apply IH.
Qed.

Lemma addAll_other (s : string) (xs : list string) :
  forallb (String.eqb s) xs = false -> 2 <= length (addAll xs [s]).
Proof.
  induction xs as [|x xs IH]; simpl; [discriminate|].
  destruct (s =? x) eqn:Hx; simpl.
  - apply String.eqb_eq in Hx. subst x. intros H.
    unfold setAdd at 1. simpl. rewrite String.eqb_refl. simpl. now apply IH.
  - intros _. unfold setAdd at 1. simpl.
    rewrite String.eqb_sym, Hx. simpl.
    etransitivity; [|apply addAll_length]. simpl. lia.
Qed.

(** The root folder that the code detects is the wrapping root. *)
Lemma detectRootFolder_wrappingRoot (entries : list ZipObject) :
  detectRootFolder entries = wrappingRoot entries.
Proof.
  unfold detectRootFolder, wrappingRoot, rootCandidates.
  rewrite rootCandidates_addAll.
  destruct (firstSegments entries) as [|s xs]; [reflexivity|].
  cbn [addAll fold_left]. change (setAdd s []) with [s].
  fold (addAll xs [s]).
  destruct (forallb (String.eqb s) xs) eqn:H.
  - now rewrite (addAll_same _ _ H).
  - apply addAll_other in H. simpl.
    destruct (addAll xs [s]) as [|a [|b l]]; simpl in H; try lia; reflexivity.
Qed.

Lemma wrappingRoot_first (entries : list ZipObject) (root : string) :
  wrappingRoot entries = Some root ->
  looksLikeProjectId root = true
  /\ forall f part0 rest, In f entries -> dir f = false ->
       pathParts (name f) = part0 :: rest -> part0 = root.
Proof.
  unfold wrappingRoot.
  destruct (firstSegments entries) as [|s xs] eqn:E; [discriminate|].
  destruct (forallb (String.eqb s) xs) eqn:Hall; [|discriminate].
  destruct (looksLikeProjectId s) eqn:Hid; [|discriminate].
  intros [= <-]. split; [exact Hid|].
  intros f part0 rest Hin Hd Hp.
  assert (Hseg : In part0 (firstSegments entries)).
  { unfold firstSegments. apply in_flat_map. exists f. split; [exact Hin|].
    rewrite Hd, Hp. now left. }
  rewrite E in Hseg. destruct Hseg as [->|Hseg]; [reflexivity|].
  rewrite forallb_forall in Hall. symmetry. now apply String.eqb_eq, Hall.
Qed.

Lemma looksLikeProjectId_truthy (s : string) :
  looksLikeProjectId s = true -> Js.truthy s = true.
Proof. destruct s; [discriminate | reflexivity]. Qed.

(** On the entries of the archive the branches of the code are the rule. *)
Lemma bucketAndPath_layoutOf (entries : list ZipObject) (f : ZipObject) :
  In f entries -> dir f = false ->
  bucketAndPath (detectRootFolder entries) (pathParts (name f))
  = layoutOf (stripsRoot entries) (pathParts (name f)).
Proof.
  intros Hin Hd. rewrite detectRootFolder_wrappingRoot. unfold stripsRoot.
  destruct (wrappingRoot entries) as [root|] eqn:E.
  - destruct (wrappingRoot_first _ _ E) as [Hid Hfirst].
    unfold bucketAndPath, layoutOf, Js.slice.
    destruct (pathParts (name f)) as [|part0 rest] eqn:Hp; [reflexivity|].
    rewrite (Hfirst f part0 rest Hin Hd Hp).
    now rewrite (looksLikeProjectId_truthy _ Hid), String.eqb_refl.
  - unfold bucketAndPath, layoutOf, Js.slice.
    now destruct (pathParts (name f)).
Qed.

End RootDetection.

(** *** Grouping by bucket *)

Section Grouping.

Variable cut : ZipObject -> option (string * FileInfo).

Lemma lookup_pushOwn_same (b : string) (info : FileInfo) (o : BucketFiles) :
  lookup b (pushOwn b info o) = Some (filesIn b o ++ [info]).
Proof.
  unfold filesIn. induction o as [|[k infos] o IH]; simpl.
  - now rewrite String.eqb_refl.
  - destruct (k =? b) eqn:E; simpl; rewrite E; [reflexivity | exact IH].
Qed.

Lemma lookup_pushOwn_other (b b' : string) (info : FileInfo) (o : BucketFiles) :
  (b' =? b) = false -> lookup b (pushOwn b' info o) = lookup b o.
Proof.
  intros Hne. induction o as [|[k infos] o IH]; simpl.
  - now rewrite Hne.
  - destruct (k =? b') eqn:E; simpl.
    + apply String.eqb_eq in E. subst k. now rewrite Hne.
    + destruct (k =? b); [reflexivity | exact IH].
Qed.

Lemma lookup_group (bucket : string) (l : list ZipObject) (acc : BucketFiles) :
  lookup bucket (group cut l acc)
  = match selected cut bucket l with
    | [] => lookup bucket acc
    | sel => Some (filesIn bucket acc ++ sel)
    end.
Proof.
  revert acc. induction l as [|f l IH]; intros acc; [reflexivity|].
  change (group cut (f :: l) acc)
    with (group cut l match cut f with
                      | Some (b, info) => pushOwn b info acc
                      | None => acc
                      end).
  change (selected cut bucket (f :: l))
    with (match cut f with
          | Some (b, info) => if b =? bucket then [info] else []
          | None => []
          end ++ selected cut bucket l).
  rewrite IH.
  destruct (cut f) as [[b info]|]; [|reflexivity].
  destruct (b =? bucket) eqn:E.
  - apply String.eqb_eq in E. subst b.
    unfold filesIn at 1. rewrite !lookup_pushOwn_same.
    destruct (selected cut bucket l); simpl; [reflexivity|].
    now rewrite <- app_assoc.
  - unfold filesIn. rewrite (lookup_pushOwn_other _ _ _ _ E). reflexivity.
Qed.

Lemma keys_pushOwn (b : string) (info : FileInfo) (o : BucketFiles) :
  map fst (pushOwn b info o) = setAdd b (map fst o).
Proof.
  unfold setAdd. induction o as [|[k infos] o IH]; simpl; [reflexivity|].
  rewrite (String.eqb_sym b k).
  destruct (k =? b); simpl; [reflexivity|].
  rewrite IH. now destruct (existsb (String.eqb b) (map fst o)).
Qed.

Lemma setAdd_NoDup (x : string) (set : list string) :
  NoDup set -> NoDup (setAdd x set).
Proof.
  intros H. unfold setAdd.
  destruct (existsb (String.eqb x) set) eqn:E; [exact H|].
  apply NoDup_app; [exact H | repeat constructor; intros [] |].
  intros y Hy [<-|[]].
  assert (existsb (String.eqb x) set = true); [|congruence].
  apply existsb_exists. exists x. split; [exact Hy | apply String.eqb_refl].
Qed.

Lemma keys_group_NoDup (l : list ZipObject) (acc : BucketFiles) :
  NoDup (map fst acc) -> NoDup (map fst (group cut l acc)).
Proof.
  revert acc. induction l as [|f l IH]; intros acc H; [exact H|].
  change (group cut (f :: l) acc)
    with (group cut l match cut f with
                      | Some (b, info) => pushOwn b info acc
                      | None => acc
                      end).
  apply IH.
  destruct (cut f) as [[b info]|]; [|exact H].
  rewrite keys_pushOwn. now apply setAdd_NoDup.
Qed.

End Grouping.

Lemma group_ext (cut cut' : ZipObject -> option (string * FileInfo))
  (l : list ZipObject) (acc : BucketFiles) :
  (forall f, In f l -> cut f = cut' f) -> group cut l acc = group cut' l acc.
Proof.
  revert acc. induction l as [|f l IH]; intros acc H; [reflexivity|].
  unfold group in *. cbn [fold_left]. rewrite (H f (or_introl eq_refl)).
  apply IH. intros g Hg. apply H. now right.
Qed.

Lemma infer_group (entries : list ZipObject) :
  infer entries = group (cutEntry (layoutOf (stripsRoot entries))) entries [].
Proof.
  unfold infer. apply group_ext.
  intros f Hin. unfold cutEntry.
  destruct (dir f) eqn:Hd; [reflexivity|].
  now rewrite (bucketAndPath_layoutOf _ _ Hin Hd).
Qed.

(** *** What the code returns, and when it throws *)

Section PrototypeMembers.

Variable cut : ZipObject -> option (string * FileInfo).

Lemma plainKeys_lookup (b : string) (o : BucketFiles) :
  plainKeys o = true -> inherited b = true -> lookup b o = None.
Proof.
  induction o as [|[k infos] o IH]; [reflexivity|].
  cbn [plainKeys forallb fst lookup]. intros H Hb.
  apply andb_prop in H as [Hk Ho].
  destruct (k =? b) eqn:E; [|now apply IH].
  apply String.eqb_eq in E. subst k. now rewrite Hb in Hk.
Qed.

Lemma plainKeys_pushOwn (b : string) (info : FileInfo) (o : BucketFiles) :
  plainKeys (pushOwn b info o) = plainKeys o && negb (inherited b).
Proof.
  induction o as [|[k infos] o IH]; cbn [pushOwn plainKeys forallb fst].
  - now rewrite andb_true_r.
  - destruct (k =? b) eqn:E; cbn [forallb fst].
    + apply String.eqb_eq in E. subst k.
      fold (plainKeys o). destruct (inherited b), (plainKeys o); reflexivity.
    + fold (plainKeys (pushOwn b info o)) (plainKeys o). rewrite IH.
      now rewrite andb_assoc.
Qed.

(** A bucket with the name of an inherited member, once in the mapping of
    the rule, stays in it. *)
Lemma plainKeys_group (l : list ZipObject) (acc : BucketFiles) :
  plainKeys acc = false -> plainKeys (group cut l acc) = false.
Proof.
  revert acc. induction l as [|f l IH]; intros acc H; [exact H|].
  change (group cut (f :: l) acc)
    with (group cut l match cut f with
                      | Some (b, info) => pushOwn b info acc
                      | None => acc
                      end).
  apply IH. destruct (cut f) as [[b info]|]; [|exact H].
  now rewrite plainKeys_pushOwn, H.
Qed.

Lemma groupFrom_Raised (l : list ZipObject) (msg : string) :
  groupFrom cut l (Raised msg) = Raised msg.
Proof. induction l as [|f l IH]; [reflexivity | exact IH]. Qed.

(** The grouping of the code returns the mapping of the rule, unless a
    bucket of that mapping has the name of an inherited member: then the
    push on it throws. *)
Lemma groupFrom_group (l : list ZipObject) (acc : BucketFiles) :
  plainKeys acc = true ->
  groupFrom cut l (Returned acc)
  = if plainKeys (group cut l acc) then Returned (group cut l acc)
    else Raised notAFunction.
Proof.
  revert acc. induction l as [|f l IH]; intros acc H.
  - unfold groupFrom, group. cbn [fold_left]. now rewrite H.
  - change (group cut (f :: l) acc)
      with (group cut l match cut f with
                        | Some (b, info) => pushOwn b info acc
                        | None => acc
                        end).
    change (groupFrom cut (f :: l) (Returned acc))
      with (groupFrom cut l match cut f with
                            | Some (b, info) => pushFile b info acc
                            | None => Returned acc
                            end).
    destruct (cut f) as [[b info]|]; [|now apply IH].
    unfold pushFile. rewrite get_lookup.
    destruct (inherited b) eqn:Hb.
    + rewrite (plainKeys_lookup b acc H Hb), groupFrom_Raised.
      rewrite plainKeys_group; [reflexivity|].
      now rewrite plainKeys_pushOwn, Hb, andb_false_r.
    + assert (Hp : plainKeys (pushOwn b info acc) = true)
        by now rewrite plainKeys_pushOwn, H, Hb.
      destruct (lookup b acc); now apply IH.
Qed.

End PrototypeMembers.

Lemma groupEntries_groupFrom (rootFolder : option string)
  (entries : list ZipObject) :
  groupEntries rootFolder entries
  = groupFrom (cutEntry (bucketAndPath rootFolder)) entries (Returned []).
Proof.
  unfold groupEntries, groupFrom.
  generalize (Returned (@nil (string * list FileInfo))).
  induction entries as [|f entries IH]; intros acc; [reflexivity|].
  cbn [fold_left]. rewrite IH. f_equal. unfold cutEntry.
  destruct acc as [bucketFiles|msg]; [|reflexivity].
  destruct (dir f); [reflexivity|].
  now destruct (bucketAndPath rootFolder (pathParts (name f))) as [[b rel]|].
Qed.

Lemma parsed_infer (entries : list ZipObject) :
  parsed entries
  = if plainKeys (infer entries) then Returned (infer entries)
    else Raised notAFunction.
Proof.
  unfold parsed, infer. rewrite groupEntries_groupFrom.
  now apply groupFrom_group.
Qed.

Lemma parsed_Returned (entries : list ZipObject) (plan : BucketFiles) :
  parsed entries = Returned plan ->
  plan = infer entries /\ plainKeys (infer entries) = true.
Proof.
  rewrite parsed_infer. destruct (plainKeys (infer entries)); [|discriminate].
  intros [= <-]. now split.
Qed.

Lemma plainKeys_layout (o o' : BucketFiles) :
  layout o = layout o' -> plainKeys o = plainKeys o'.
Proof.
  revert o'. induction o as [|[k infos] o IH]; intros [|[k' infos'] o'] H;
    try discriminate H; [reflexivity|].
  cbn [layout map fst snd] in H. injection H as -> _ H.
  cbn [plainKeys forallb fst]. f_equal. now apply IH.
Qed.

Lemma parsed_nil (entries : list ZipObject) :
  infer entries = [] -> parsed entries = Returned [].
Proof. intros H. now rewrite parsed_infer, H. Qed.

Lemma objectsOf_selected (bucket : string) (entries : list ZipObject) :
  objectsOf bucket entries
  = selected (cutEntry (layoutOf (stripsRoot entries))) bucket entries.
Proof.
  unfold objectsOf, selected. apply flat_map_ext. intros f. unfold cutEntry.
  destruct (dir f); [reflexivity|].
  now destruct (layoutOf (stripsRoot entries) (pathParts (name f))) as [[b rel]|].
Qed.

(** C2.  The mapping of the rule has distinct keys and gives each bucket
    the objects that the rule assigns to it, in the order of the archive:
    when exactly one distinct first segment exists among the non-directory
    entries and it matches [/^[a-z0-9]{20,}$/], the second segment is the
    bucket and the remaining segments joined by [/] the relative path,
    entries with fewer than three segments being skipped; otherwise the
    first segment is the bucket and entries with fewer than two segments
    are skipped.  [parseZipStructure] returns this mapping, as for the two
    archives of the description, unless one of its buckets has the name of
    a member that an object literal inherits: for the archive
    [{"constructor/a.png", "photos/b.png"}] the rule gives
    [{constructor: [a.png], photos: [b.png]}] and [parseZipStructure]
    throws a [TypeError]. *)
Theorem inherited_bucket_name_aborts_the_parse :
  (forall entries,
      (forall r, fst (parseZipStructure entries r)
                 = if plainKeys (infer entries) then Returned (infer entries)
                   else Raised notAFunction)
      /\ detectRootFolder entries = wrappingRoot entries
      /\ NoDup (map fst (infer entries))
      /\ (forall bucket,
            lookup bucket (infer entries)
            = match objectsOf bucket entries with
              | [] => None
              | objects => Some objects
              end))
  /\ (forall d1 u1 d2 u2 r,
        option_map layout
          (match fst (parseZipStructure
                        [fileEntry "proj123456789012345678/photos/a.png" d1 u1;
                         fileEntry "proj123456789012345678/docs/b.pdf" d2 u2] r)
           with Returned o => Some o | Raised _ => None end)
        = Some [("photos", ["a.png"]); ("docs", ["b.pdf"])])
  /\ (forall d1 u1 d2 u2 r,
        option_map layout
          (match fst (parseZipStructure
                        [fileEntry "photos/a.png" d1 u1;
                         fileEntry "docs/b.pdf" d2 u2] r)
           with Returned o => Some o | Raised _ => None end)
        = Some [("photos", ["a.png"]); ("docs", ["b.pdf"])])
  /\ (forall d1 u1 d2 u2 r,
        layout (infer [fileEntry "constructor/a.png" d1 u1;
                       fileEntry "photos/b.png" d2 u2])
        = [("constructor", ["a.png"]); ("photos", ["b.png"])]
        /\ fst (parseZipStructure [fileEntry "constructor/a.png" d1 u1;
                                   fileEntry "photos/b.png" d2 u2] r)
           = Raised notAFunction).
Proof.
  split; [|repeat split].
  intros entries. split; [intros r; apply parsed_infer|].
  split; [apply detectRootFolder_wrappingRoot|].
  split.
  - rewrite infer_group. apply keys_group_NoDup. constructor.
  - intros bucket. rewrite infer_group, lookup_group, objectsOf_selected.
    reflexivity.
Qed.

(** C7.  Every object that the inferencer produces has a non-empty relative
    path and comes from a non-directory entry of the archive with at least
    two path segments, and at least three when a root folder is stripped:
    so it is of the mapping of the rule, and of every mapping that
    [parseZipStructure] returns.  A file at the archive root and a
    directory marker give no object, and a short entry under a stripped
    root is skipped, with no error. *)
Theorem inferred_objects_have_paths :
  (forall entries,
      Inferred
        (fun info =>
           path info <> ""
           /\ dir (file info) = false
           /\ In (file info) entries
           /\ 2 <= length (pathParts (name (file info)))
           /\ (stripsRoot entries = true ->
               3 <= length (pathParts (name (file info)))))
        (infer entries))
  /\ (forall entries r plan,
        fst (parseZipStructure entries r) = Returned plan ->
        Inferred
          (fun info =>
             path info <> ""
             /\ dir (file info) = false
             /\ In (file info) entries
             /\ 2 <= length (pathParts (name (file info)))
             /\ (stripsRoot entries = true ->
                 3 <= length (pathParts (name (file info)))))
          plan)
  /\ (forall d u r,
        infer [fileEntry "readme.txt" d u] = []
        /\ fst (parseZipStructure [fileEntry "readme.txt" d u] r) = Returned [])
  /\ (forall d u r,
        infer [{| name := "photos/"; dir := true; async := d; uploadReply := u |}]
        = []
        /\ fst (parseZipStructure
                  [{| name := "photos/"; dir := true; async := d;
                      uploadReply := u |}] r)
           = Returned [])
  /\ (forall d1 u1 d2 u2 r,
        layout (infer [fileEntry "proj123456789012345678/readme.txt" d1 u1;
                       fileEntry "proj123456789012345678/photos/a.png" d2 u2])
        = [("photos", ["a.png"])]
        /\ option_map layout
             (match fst (parseZipStructure
                           [fileEntry "proj123456789012345678/readme.txt" d1 u1;
                            fileEntry "proj123456789012345678/photos/a.png" d2 u2]
                           r)
              with Returned o => Some o | Raised _ => None end)
           = Some [("photos", ["a.png"])]).
Proof.
  assert (H : forall entries,
      Inferred
        (fun info =>
           path info <> ""
           /\ dir (file info) = false
           /\ In (file info) entries
           /\ 2 <= length (pathParts (name (file info)))
           /\ (stripsRoot entries = true ->
               3 <= length (pathParts (name (file info)))))
        (infer entries));
    [|split; [exact H|split; [|repeat split]];
      intros entries r plan Hplan;
      change (parsed entries = Returned plan) in Hplan;
      apply parsed_Returned in Hplan; destruct Hplan as [-> _]; apply H].
  intros entries. apply group_Inferred.
  intros f b rel Hin Hd Hcut. cbn [path file].
  destruct (bucketAndPath_Some _ _ _ _ Hcut) as (Hrel & H2 & H3).
  repeat split; try assumption.
  intros Hstrip. unfold stripsRoot in Hstrip.
  rewrite detectRootFolder_wrappingRoot in H3.
  destruct (wrappingRoot entries) as [root|] eqn:E; [|discriminate].
  destruct (wrappingRoot_first _ _ E) as [_ Hfirst].
  destruct (pathParts (name f)) as [|part0 rest] eqn:Hp; [simpl in H2; lia|].
  apply (H3 root rest eq_refl).
  now rewrite (Hfirst f part0 rest Hin Hd Hp).
Qed.

Lemma inferred_objects_have_paths_witness :
  Inferred (fun info => path info <> "")
    [("photos", [{| path := "a.png";
                    file := fileEntry "photos/a.png" (Returned tt) (Data tt) |}])].
Proof.
  destruct inferred_objects_have_paths as (_ & Hcode & _).
  eapply Forall_impl;
    [|exact (Hcode [fileEntry "readme.txt" (Returned tt) (Data tt);
                    fileEntry "photos/a.png" (Returned tt) (Data tt)]
               (start initialState) _ eq_refl)].
  intros bucket Hb. eapply Forall_impl; [|exact Hb]. now intros info [Hp _].
Defined.

(* ================================================================== *)
(** ** Histories of runs *)

Section Histories.

Variable Step : State -> State -> Prop.

Lemma Evolves_trans (r1 r2 r3 : Run) :
  Evolves Step r1 r2 -> Evolves Step r2 r3 -> Evolves Step r1 r3.
Proof.
  intros H12 H23. induction H23 as [|r' f _ IH Hs]; [exact H12|].
  now apply Evolves_assign.
Qed.

Lemma Evolves_fold {X : Type} (g : X -> Run -> Run) (l : list X) :
  (forall x r, In x l -> Evolves Step r (g x r)) ->
  forall r, Evolves Step r (fold_left (fun r x => g x r) l r).
Proof.
  induction l as [|x l IH]; intros Hg r; simpl; [constructor|].
  eapply Evolves_trans; [apply Hg; now left|].
  apply IH. intros y r' Hy. apply Hg. now right.
Qed.

(** A property that the steps preserve holds of every state added. *)
Lemma Evolves_history (P : State -> Prop) (r r' : Run) :
  (forall s s', P s -> Step s s' -> P s') ->
  Evolves Step r r' -> P (now r) ->
  P (now r') /\ exists added, history r' = added ++ history r /\ Forall P added.
Proof.
  intros HP H H0. induction H as [|r' f _ IH Hs].
  - split; [exact H0|]. exists []. split; [reflexivity | constructor].
  - destruct IH as (Hnow & added & Hh & Hadded).
    split; [now apply (HP (now r'))|].
    exists (f (now r') :: added). split.
    + unfold history in *. simpl. now rewrite Hh.
    + constructor; [now apply (HP (now r')) | exact Hadded].
Qed.

Lemma Evolves_now (r r' : Run) :
  (forall s, Step s s) -> (forall s1 s2 s3, Step s1 s2 -> Step s2 s3 -> Step s1 s3) ->
  Evolves Step r r' -> Step (now r) (now r').
Proof.
  intros Hrefl Htrans H. induction H as [|r' f _ IH Hs]; [apply Hrefl|].
  simpl. eapply Htrans; eassumption.
Qed.

Lemma Evolves_Sorted (r r' : Run) :
  Evolves Step r r' ->
  Sorted (fun newer older => Step older newer) (history r) ->
  Sorted (fun newer older => Step older newer) (history r').
Proof.
  intros H H0. induction H as [|r' f _ IH Hs]; [exact H0|].
  unfold history. simpl. constructor; [exact IH|]. now constructor.
Qed.

End Histories.

Lemma Evolves_weaken (Step Step' : State -> State -> Prop) (r r' : Run) :
  (forall s s', Step s s' -> Step' s s') ->
  Evolves Step r r' -> Evolves Step' r r'.
Proof.
  intros Hw H. induction H as [|r' f _ IH Hs]; [constructor|].
  apply Evolves_assign; [exact IH | now apply Hw].
Qed.


Lemma Evolves_switches (Step : State -> State -> Prop) (r r' : Run) :
  Evolves Step r r' -> switches r' = switches r.
Proof. induction 1 as [|r' f _ IH _]; [reflexivity | exact IH]. Qed.

Lemma Evolves_fold_quiet (Step : State -> State -> Prop) {X : Type}
  (g : X -> Run -> Run) (l : list X) :
  (forall x r, In x l -> Quiet r -> Evolves Step r (g x r)) ->
  forall r, Quiet r -> Evolves Step r (fold_left (fun r x => g x r) l r).
Proof.
  induction l as [|x l IH]; intros Hg r Hq; simpl; [constructor|].
  pose proof (Hg x r (or_introl eq_refl) Hq) as Hx.
  eapply Evolves_trans; [exact Hx|].
  apply IH; [intros y r' Hy; apply Hg; now right|].
  unfold Quiet. now rewrite (Evolves_switches _ _ _ Hx).
Qed.

(* ================================================================== *)
(** ** Awaits *)

Section Awaits.

Variable Step : State -> State -> Prop.
Variable q : Request.
Hypothesis Step_request : forall s, Step s (setRequests (requests s ++ [q]) s).
Hypothesis Step_switch : forall s, Step s (tabSwitched s).

(** An [await]: the request, then the resets of the tab switches. *)
Lemma request_evolves (r : Run) : Evolves Step r (request q r).
Proof.
  unfold request.
  induction (nth (length (requests (now r))) (switches r) 0) as [|n IH].
  - apply Evolves_assign; [apply Evolves_refl | apply Step_request].
  - cbn [Nat.iter]. apply Evolves_assign; [exact IH | apply Step_switch].
Qed.

End Awaits.

(** An [await] during which the tab is left alone is the request alone. *)
Lemma request_quiet (q : Request) (r : Run) :
  Quiet r ->
  request q r = assign (fun s => setRequests (requests s ++ [q]) s) r.
Proof.
  unfold Quiet, request. intros ->.
  now destruct (length (requests (now r))).
Qed.

Lemma request_body (q : Request) (r : Run) : Evolves BodyStep r (request q r).
Proof. apply request_evolves; constructor. Qed.

Lemma switches_request (q : Request) (r : Run) :
  switches (request q r) = switches r.
Proof. exact (Evolves_switches _ _ _ (request_body q r)). Qed.

(** The tab switches of an [await] keep the requests issued. *)
Lemma requests_request (q : Request) (r : Run) :
  requests (now (request q r)) = requests (now r) ++ [q].
Proof.
  unfold request.
  induction (nth (length (requests (now r))) (switches r) 0) as [|n IH];
    [reflexivity | exact IH].
Qed.

(** Induction on the source tree. *)
Lemma FileObject_induction (P : FileObject -> Prop) :
  (forall fname mime downloaded uploaded listed,
      Forall P (childrenOf listed) ->
      P (mkFileObject fname mime downloaded uploaded listed)) ->
  forall f, P f.
Proof.
  intros P_item. fix IH 1. intros [fname mime dl ul listed]. apply P_item.
  destruct listed as [files|msg|msg]; simpl; [|constructor|constructor].
  induction files as [|x files IHfiles]; constructor; [apply IH | exact IHfiles].
Qed.

(* ================================================================== *)
(** ** The steps of the [try] blocks *)

(** Straight-line code of a [try] block: one [BodyStep] for each
    assignment, and those of each [await]. *)
Ltac bodysteps :=
  repeat first [ apply Evolves_refl
               | apply Evolves_assign; [|constructor]
               | eapply Evolves_trans; [|apply request_body] ].

Section BodySteps.

Lemma uploadFromZip_body (b : string) (info : FileInfo) (r : Run) :
  Evolves BodyStep r (uploadFromZip b info r).
Proof.
  unfold uploadFromZip, incrementProgress, addLog.
  destruct (async (file info)); [destruct (thrownBy (uploadReply (file info)))|];
    bodysteps.
Qed.

Lemma uploadAll_body (b : string) (files : list FileInfo) (r : Run) :
  Evolves BodyStep r (uploadAll b files r).
Proof.
  apply (Evolves_fold BodyStep (uploadFromZip b)).
  intros. apply uploadFromZip_body.
Qed.

Lemma processZipBucket_body (sc : ZipScenario) (existing : list string)
  (entry : string * list FileInfo) (r : Run) :
  Evolves BodyStep r (processZipBucket sc existing entry r).
Proof.
  unfold processZipBucket, addLog.
  destruct (existsb (String.eqb (fst entry)) existing);
    [|destruct (thrownBy (createBucket sc (fst entry))) as [msg|];
      [destruct (Js.includes "already exists" msg)|]];
    try (eapply Evolves_trans; [|apply uploadAll_body]); bodysteps.
Qed.

Lemma processAll_body (sc : ZipScenario) (existing : list string)
  (entries : list (string * list FileInfo)) (r : Run) :
  Evolves BodyStep r
    (fold_left (fun r entry => processZipBucket sc existing entry r) entries r).
Proof.
  apply (Evolves_fold BodyStep (processZipBucket sc existing)).
  intros. apply processZipBucket_body.
Qed.

Lemma transferPlan_body (sc : ZipScenario) (bucketFiles : BucketFiles) (r : Run) :
  Evolves BodyStep r (snd (transferPlan sc bucketFiles r)).
Proof.
  unfold transferPlan.
  set (r1 := request DstListBuckets _).
  assert (H1 : Evolves BodyStep r r1)
    by (subst r1; unfold addLog; bodysteps).
  assert (Hloop : forall existing,
    Evolves BodyStep r
      (fold_left (fun r entry => processZipBucket sc existing entry r)
         (objectEntries bucketFiles) r1)).
  { intros existing. eapply Evolves_trans; [exact H1|]. apply processAll_body. }
  destruct (existingBuckets sc); cbn [snd]; try exact H1;
    (apply Evolves_assign; [apply Hloop | constructor]).
Qed.

Lemma parseZipStructure_body (entries : list ZipObject) (r : Run) :
  Evolves BodyStep r (snd (parseZipStructure entries r)).
Proof.
  unfold parseZipStructure, addLog. cbn [snd].
  destruct (detectRootFolder entries); bodysteps.
Qed.

Lemma migrateFromZipBody_body (sc : ZipScenario)
  (loaded : Attempt (list ZipObject)) (r : Run) :
  Evolves BodyStep r (snd (migrateFromZipBody sc loaded r)).
Proof.
  unfold migrateFromZipBody.
  destruct (zipClient sc) as [[]|msg];
    [|unfold addLog; cbn [snd]; bodysteps].
  destruct loaded as [entries|msg];
    [|unfold addLog; cbn [snd]; bodysteps].
  cbv zeta.
  assert (Hparse : Evolves BodyStep r
            (snd (parseZipStructure entries
                    (request ZipLoadAsync
                       (addLog "Loading ZIP file..." Info
                          (addLog "Initializing Supabase client..." Info r)))))).
  { eapply Evolves_trans; [|apply parseZipStructure_body].
    unfold addLog. bodysteps. }
  destruct (fst (parseZipStructure entries _)) as [bucketFiles|msg];
    [|exact Hparse].
  destruct (length (objectKeys bucketFiles) =? 0)%nat; [exact Hparse|].
  eapply Evolves_trans; [|apply transferPlan_body].
  apply Evolves_assign; [exact Hparse | constructor].
Qed.

Lemma transferFile_body (b filePath mime : string) (dl ul : Reply unit) (r : Run) :
  Evolves BodyStep r (transferFile b filePath mime dl ul r).
Proof.
  unfold transferFile, incrementProgress, addLog.
  destruct (thrownBy dl); [|destruct (thrownBy ul)]; bodysteps.
Qed.

Lemma listDirectory_body (each : FileObject -> Run -> Run)
  (b dirPath : string) (listed : Reply (list FileObject)) (r : Run) :
  Forall (fun f => forall r, Evolves BodyStep r (each f r)) (childrenOf listed) ->
  Evolves BodyStep r (listDirectory each b dirPath listed r).
Proof.
  intros Heach. unfold listDirectory, addLog.
  destruct listed as [[|f files]|msg|msg]; try solve [bodysteps].
  eapply Evolves_trans;
    [|apply (Evolves_fold BodyStep each); intros x r' Hx;
      exact (proj1 (Forall_forall _ _) Heach x Hx r')].
  apply Evolves_assign; [bodysteps|].
  exact (BodyStep_total _ _).
Qed.

Lemma migrateFile_body (b : string) (f : FileObject) :
  forall dirPath r, Evolves BodyStep r (migrateFile b dirPath f r).
Proof.
  induction f as [fname mime dl ul listed IH] using FileObject_induction.
  intros dirPath r. cbn [migrateFile].
  destruct (Js.truthy mime); [apply transferFile_body|].
  apply listDirectory_body.
  eapply Forall_impl; [|exact IH]. intros f Hf r'. apply Hf.
Qed.

Lemma migrateFilesFromBucket_body (b dirPath : string)
  (listed : Reply (list FileObject)) (r : Run) :
  Evolves BodyStep r (migrateFilesFromBucket b dirPath listed r).
Proof.
  apply listDirectory_body. apply Forall_forall. intros f _ r'.
  apply migrateFile_body.
Qed.

Lemma processLiveBucket_body (b : SourceBucket) (r : Run) :
  Evolves BodyStep r (processLiveBucket b r).
Proof.
  unfold processLiveBucket.
  eapply Evolves_trans; [|apply migrateFilesFromBucket_body].
  unfold addLog.
  destruct (createReply b) as [[]|msg|msg];
    [|destruct (negb (Js.includes "already exists" msg))|]; bodysteps.
Qed.

Lemma processLiveBuckets_body (buckets : list SourceBucket) (r : Run) :
  Evolves BodyStep r (fold_left (fun r b => processLiveBucket b r) buckets r).
Proof.
  apply (Evolves_fold BodyStep processLiveBucket). intros.
  apply processLiveBucket_body.
Qed.

Lemma migrateLiveProjectBody_body (sc : LiveScenario) (r : Run) :
  Evolves BodyStep r (snd (migrateLiveProjectBody sc r)).
Proof.
  unfold migrateLiveProjectBody.
  destruct (liveClients sc) as [[]|msg];
    [|unfold addLog; cbn [snd]; bodysteps].
  destruct (sourceBuckets sc) as [buckets|msg|msg];
    try (unfold addLog; cbn [snd]; bodysteps).
  destruct (length buckets =? 0)%nat; cbn [snd].
  - unfold addLog. bodysteps.
  - apply Evolves_assign; [|constructor].
    eapply Evolves_trans; [|apply processLiveBuckets_body].
    unfold addLog. bodysteps.
Qed.

(** What the steps of a [try] block leave alone: the processing flag, and
    an empty error. *)
Lemma BodyStep_keeps (s s' : State) :
  BodyStep s s' ->
  isProcessing s' = isProcessing s /\ (error s = "" -> error s' = "").
Proof. now destruct 1. Qed.

End BodySteps.

(** *** The tab switches left to a run *)

Section Switches.

Lemma switches_uploadFromZip (b : string) (info : FileInfo) (r : Run) :
  switches (uploadFromZip b info r) = switches r.
Proof. exact (Evolves_switches _ _ _ (uploadFromZip_body b info r)). Qed.

Lemma switches_uploadAll (b : string) (files : list FileInfo) (r : Run) :
  switches (uploadAll b files r) = switches r.
Proof. exact (Evolves_switches _ _ _ (uploadAll_body b files r)). Qed.

Lemma switches_processZipBucket (sc : ZipScenario) (existing : list string)
  (entry : string * list FileInfo) (r : Run) :
  switches (processZipBucket sc existing entry r) = switches r.
Proof. exact (Evolves_switches _ _ _ (processZipBucket_body sc existing entry r)). Qed.

Lemma switches_processAll (sc : ZipScenario) (existing : list string)
  (entries : list (string * list FileInfo)) (r : Run) :
  switches (fold_left (fun r entry => processZipBucket sc existing entry r)
              entries r)
  = switches r.
Proof. exact (Evolves_switches _ _ _ (processAll_body sc existing entries r)). Qed.

Lemma switches_parseZipStructure (entries : list ZipObject) (r : Run) :
  switches (snd (parseZipStructure entries r)) = switches r.
Proof. exact (Evolves_switches _ _ _ (parseZipStructure_body entries r)). Qed.

Lemma switches_transferFile (b filePath mime : string) (dl ul : Reply unit)
  (r : Run) :
  switches (transferFile b filePath mime dl ul r) = switches r.
Proof. exact (Evolves_switches _ _ _ (transferFile_body b filePath mime dl ul r)). Qed.

Lemma switches_migrateFile (b dirPath : string) (f : FileObject) (r : Run) :
  switches (migrateFile b dirPath f r) = switches r.
Proof. exact (Evolves_switches _ _ _ (migrateFile_body b f dirPath r)). Qed.

Lemma switches_migrateFilesFromBucket (b dirPath : string)
  (listed : Reply (list FileObject)) (r : Run) :
  switches (migrateFilesFromBucket b dirPath listed r) = switches r.
Proof.
  exact (Evolves_switches _ _ _ (migrateFilesFromBucket_body b dirPath listed r)).
Qed.

Lemma switches_processLiveBucket (b : SourceBucket) (r : Run) :
  switches (processLiveBucket b r) = switches r.
Proof. exact (Evolves_switches _ _ _ (processLiveBucket_body b r)). Qed.

Lemma switches_processLiveBuckets (buckets : list SourceBucket) (r : Run) :
  switches (fold_left (fun r b => processLiveBucket b r) buckets r) = switches r.
Proof. exact (Evolves_switches _ _ _ (processLiveBuckets_body buckets r)). Qed.

End Switches.

(** The side condition of a quiet step: the run at hand is the quiet run
    after assignments and awaits. *)
Ltac quiet_side :=
  unfold Quiet in *;
  repeat first
    [ rewrite switches_request
    | rewrite switches_uploadFromZip
    | rewrite switches_uploadAll
    | rewrite switches_processZipBucket
    | rewrite switches_processAll
    | rewrite switches_parseZipStructure
    | rewrite switches_transferFile
    | rewrite switches_migrateFile
    | rewrite switches_migrateFilesFromBucket
    | rewrite switches_processLiveBucket
    | rewrite switches_processLiveBuckets
    | progress cbn [switches assign addLog incrementProgress start
                    interruptedBy clearLogs] ];
  first [ assumption | reflexivity ].

(** In a quiet run every [await] is its request. *)
Ltac quiet :=
  cbv zeta;
  repeat match goal with
         | |- context [request ?q ?r] =>
             rewrite (request_quiet q r) by quiet_side
         end.

Lemma Prefix_refl {A : Type} (l : list A) : Prefix l l.
Proof. exists []. now rewrite app_nil_r. Qed.

Lemma Prefix_trans {A : Type} (l1 l2 l3 : list A) :
  Prefix l1 l2 -> Prefix l2 l3 -> Prefix l1 l3.
Proof. intros [t ->] [u ->]. exists (t ++ u). now rewrite app_assoc. Qed.

Lemma Prefix_snoc {A : Type} (l : list A) (x : A) : Prefix l (l ++ [x]).
Proof. now exists [x]. Qed.

Lemma Appends_trans (s1 s2 s3 : State) :
  Appends s1 s2 -> Appends s2 s3 -> Appends s1 s3.
Proof.
  intros [Hl Hq] [Hl' Hq']. split; eapply Prefix_trans; eassumption.
Qed.

Lemma Grows_refl (s : State) : Grows s s.
Proof. repeat split; auto using Prefix_refl. Qed.

Lemma Grows_trans (s1 s2 s3 : State) : Grows s1 s2 -> Grows s2 s3 -> Grows s1 s3.
Proof.
  intros (Hp & Hl & Hq) (Hp' & Hl' & Hq'). split; [lia|].
  split; eapply Prefix_trans; eassumption.
Qed.

Lemma Grows_Appends (s s' : State) : Grows s s' -> Appends s s'.
Proof. now intros (_ & Hl & Hq). Qed.

Lemma Evolves_Grows_now (r r' : Run) :
  Evolves Grows r r' -> Grows (now r) (now r').
Proof. apply Evolves_now; [apply Grows_refl | apply Grows_trans]. Qed.

Lemma Evolves_Monotone (r r' : Run) :
  Evolves Grows r r' -> Monotone r -> Monotone r'.
Proof.
  intros H H0. unfold Monotone in *.
  apply Sorted_StronglySorted; [intros a b c; lia|].
  apply StronglySorted_Sorted in H0.
  apply (Evolves_weaken Grows (fun s s' => progress s <= progress s')) in H;
    [|intros s s' Hg; apply Hg].
  exact (Evolves_Sorted _ _ _ H H0).
Qed.

(** A creation request among those of a state whose earlier requests are
    private: it is an earlier one, or the one just appended. *)
Ltac privateRequest :=
  match goal with
  | H : forall n p, In _ ?l -> p = false, H0 : In _ ?l |- _ => exact (H _ _ H0)
  | H0 : In _ (_ ++ [_]) |- _ =>
      apply in_app_or in H0; destruct H0 as [H0 | [H0 | []]];
      [ privateRequest | first [ discriminate H0 | injection H0; congruence ] ]
  end.

(** The solver of the step conditions of single assignments. *)
Ltac step :=
  unfold ZipStep, Grows, PrivateOnly;
  cbn [now assign progress totalItems logs requests setLogs setRequests
       setProgress setTotalItems setError setSuccess setIsProcessing
       setCurrentOperation];
  repeat split; intros;
  first [ lia
        | apply Prefix_refl
        | apply Prefix_snoc
        | privateRequest
        | idtac ].

(** Straight-line code: one [Evolves_assign] for each assignment. *)
Ltac evolve :=
  repeat first [ apply Evolves_refl | apply Evolves_assign ]; try step.

Section ObjectEntriesFacts.

Context {A : Type}.

Lemma insertIndexed_In (i : N) (e : string * A) (l : list (N * (string * A)))
  (x : N * (string * A)) :
  In x (insertIndexed i e l) <-> x = (i, e) \/ In x l.
Proof.
  induction l as [|[j e'] l IH]; simpl.
  - intuition congruence.
  - destruct (i <? j)%N; simpl; [intuition congruence|].
    rewrite IH. intuition congruence.
Qed.

Lemma indexedEntries_In (o : list (string * A)) (i : N) (e : string * A) :
  In (i, e) (indexedEntries o) <-> In e o /\ arrayIndex (fst e) = Some i.
Proof.
  induction o as [|e' o IH]; simpl; [tauto|].
  destruct (arrayIndex (fst e')) as [j|] eqn:E.
  - rewrite insertIndexed_In, IH. split.
    + intros [[= -> ->] | [Hin Hi]]; [split; [now left | exact E] | tauto].
    + intros [[-> | Hin] Hi]; [left; congruence | tauto].
  - rewrite IH. split; [tauto|].
    intros [[-> | Hin] Hi]; [congruence | tauto].
Qed.

(** [Object.entries] enumerates the members of the object. *)
Lemma objectEntries_In (o : list (string * A)) (e : string * A) :
  In e (objectEntries o) <-> In e o.
Proof.
  unfold objectEntries, namedEntries.
  rewrite in_app_iff, in_map_iff, filter_In. split.
  - intros [([i e'] & <- & Hin) | [Hin _]]; [|exact Hin].
    now apply indexedEntries_In in Hin.
  - intros Hin. destruct (arrayIndex (fst e)) as [i|] eqn:E.
    + left. exists (i, e). split; [reflexivity|]. now apply indexedEntries_In.
    + right. now split.
Qed.

Lemma objectKeys_nil (o : list (string * A)) : objectKeys o = [] <-> o = [].
Proof.
  unfold objectKeys. split.
  - intros H. apply map_eq_nil in H. destruct o as [|e o]; [reflexivity|].
    assert (Hin : In e (objectEntries (e :: o))) by (apply objectEntries_In; now left).
    rewrite H in Hin. destruct Hin.
  - now intros ->.
Qed.

End ObjectEntriesFacts.

(* ================================================================== *)
(** ** The requests of a run *)

(** The requests of straight-line code: those of its awaits, in order.
    Tab switches leave them alone. *)
Ltac trace :=
  unfold addLog, incrementProgress;
  repeat first
    [ rewrite requests_request
    | progress cbn [now assign requests setRequests setLogs setProgress
                    setTotalItems setSuccess setError setIsProcessing
                    setCurrentOperation fst snd] ];
  rewrite <- ?app_assoc; try reflexivity.

Section Traces.

Lemma trace_fold {X : Type} (g : X -> Run -> Run) (trace : X -> list Request)
  (l : list X) :
  Forall (fun x => forall r,
            requests (now (g x r)) = requests (now r) ++ trace x) l ->
  forall r, requests (now (fold_left (fun r x => g x r) l r))
            = requests (now r) ++ flat_map trace l.
Proof.
  induction 1 as [|x l Hx _ IH]; intros r; simpl; [now rewrite app_nil_r|].
  now rewrite IH, Hx, <- app_assoc.
Qed.

Lemma catchFinally_requests (body : Completion * Run) :
  requests (now (catchFinally body)) = requests (now (snd body)).
Proof. destruct body as [[|msg] r]; reflexivity. Qed.

Lemma uploadFromZip_requests (b : string) (info : FileInfo) (r : Run) :
  requests (now (uploadFromZip b info r))
  = requests (now r) ++ objectRequests b info.
Proof.
  unfold uploadFromZip, objectRequests.
  destruct (async (file info)) as [[]|msg]; [|trace].
  destruct (thrownBy (uploadReply (file info))); trace.
Qed.

Lemma uploadAll_requests (b : string) (files : list FileInfo) (r : Run) :
  requests (now (uploadAll b files r))
  = requests (now r) ++ flat_map (objectRequests b) files.
Proof.
  apply (trace_fold (uploadFromZip b)). apply Forall_forall.
  intros info _ r'. apply uploadFromZip_requests.
Qed.

Lemma processZipBucket_requests (sc : ZipScenario) (existing : list string)
  (entry : string * list FileInfo) (r : Run) :
  requests (now (processZipBucket sc existing entry r))
  = requests (now r) ++ bucketRequests sc existing entry.
Proof.
  unfold processZipBucket, bucketRequests, bucketReady.
  destruct (existsb (String.eqb (fst entry)) existing); cbn [orb app].
  - now rewrite uploadAll_requests.
  - destruct (thrownBy (createBucket sc (fst entry))) as [msg|].
    + destruct (Js.includes "already exists" msg).
      * rewrite uploadAll_requests. trace.
      * trace.
    + rewrite uploadAll_requests. trace.
Qed.

Lemma transferPlan_requests (sc : ZipScenario) (bucketFiles : BucketFiles)
  (r : Run) :
  requests (now (snd (transferPlan sc bucketFiles r)))
  = requests (now r)
    ++ DstListBuckets ::
       match knownBuckets sc with
       | None => []
       | Some names =>
           flat_map (bucketRequests sc names) (objectEntries bucketFiles)
       end.
Proof.
  unfold transferPlan, knownBuckets.
  assert (Hloop : forall names r',
    requests (now (fold_left (fun r entry => processZipBucket sc names entry r)
                     (objectEntries bucketFiles) r'))
    = requests (now r')
      ++ flat_map (bucketRequests sc names) (objectEntries bucketFiles)).
  { intros names r'. apply (trace_fold (processZipBucket sc names)).
    apply Forall_forall. intros entry _ r''. apply processZipBucket_requests. }
  destruct (existingBuckets sc) as [names|msg|msg]; cbn [snd].
  - cbn [now assign requests setSuccess]. rewrite Hloop. trace.
  - cbn [now assign requests setSuccess]. rewrite Hloop. trace.
  - trace.
Qed.

Lemma parseZipStructure_requests (entries : list ZipObject) (r : Run) :
  requests (now (snd (parseZipStructure entries r))) = requests (now r).
Proof.
  unfold parseZipStructure. destruct (detectRootFolder entries); reflexivity.
Qed.

Lemma parseZipStructure_parsed (entries : list ZipObject) (r : Run) :
  fst (parseZipStructure entries r) = parsed entries.
Proof.
  unfold parseZipStructure, parsed. now destruct (detectRootFolder entries).
Qed.

Lemma migrateFromZip_requests (sc : ZipScenario) (s0 : State)
  (loaded : Attempt (list ZipObject)) :
  uploadedZip sc = Some loaded ->
  requests (now (migrateFromZip sc s0)) = zipRequests sc loaded.
Proof.
  intros Hzip. unfold migrateFromZip, zipRequests. rewrite Hzip.
  rewrite catchFinally_requests. unfold migrateFromZipBody.
  destruct (zipClient sc) as [[]|msg]; [|reflexivity].
  destruct loaded as [entries|msg]; [|trace].
  cbv zeta. rewrite parseZipStructure_parsed.
  destruct (parsed entries) as [[|e plan]|msg].
  - rewrite (proj2 (objectKeys_nil [])) by reflexivity. cbn [length Nat.eqb snd].
    rewrite parseZipStructure_requests. trace.
  - destruct (length (objectKeys (e :: plan)) =? 0)%nat eqn:Hlen.
    { apply Nat.eqb_eq, length_zero_iff_nil, objectKeys_nil in Hlen.
      discriminate Hlen. }
    rewrite transferPlan_requests.
    cbn [now assign addLog requests setLogs].
    rewrite parseZipStructure_requests. trace.
  - cbn [snd]. rewrite parseZipStructure_requests. trace.
Qed.

Variable bucket : string.

Lemma transferFile_requests (filePath mime : string) (dl ul : Reply unit) (r : Run) :
  requests (now (transferFile bucket filePath mime dl ul r))
  = requests (now r)
    ++ SrcDownload bucket filePath ::
       match thrownBy dl with
       | Some _ => []
       | None => [DstUpload bucket filePath (Str mime)]
       end.
Proof.
  unfold transferFile.
  destruct (thrownBy dl); [trace|].
  destruct (thrownBy ul); trace.
Qed.

Lemma listDirectory_requests (each : FileObject -> Run -> Run)
  (trace : FileObject -> list Request)
  (dirPath : string) (listed : Reply (list FileObject)) (r : Run) :
  Forall (fun f => forall r,
            requests (now (each f r)) = requests (now r) ++ trace f)
    (childrenOf listed) ->
  requests (now (listDirectory each bucket dirPath listed r))
  = requests (now r)
    ++ SrcList bucket dirPath :: flat_map trace (childrenOf listed).
Proof.
  intros Heach. unfold listDirectory.
  destruct listed as [[|f files]|msg|msg]; try solve [trace].
  cbn [childrenOf] in *.
  rewrite (trace_fold each trace _ Heach). trace.
Qed.

Lemma itemRequests_folder (dirPath fname mime : string) (dl ul : Reply unit)
  (listed : Reply (list FileObject)) :
  Js.truthy mime = false ->
  itemRequests bucket dirPath (mkFileObject fname mime dl ul listed)
  = SrcList bucket (joinPath dirPath fname)
    :: flat_map (itemRequests bucket (joinPath dirPath fname)) (childrenOf listed).
Proof.
  intros H. cbn [itemRequests]. rewrite H. now destruct listed.
Qed.

Lemma migrateFile_requests (f : FileObject) :
  forall dirPath r,
    requests (now (migrateFile bucket dirPath f r))
    = requests (now r) ++ itemRequests bucket dirPath f.
Proof.
  induction f as [fname mime dl ul listed IH] using FileObject_induction.
  intros dirPath r. cbn [migrateFile].
  destruct (Js.truthy mime) eqn:Hmime.
  - cbn [itemRequests]. rewrite Hmime. apply transferFile_requests.
  - rewrite itemRequests_folder by exact Hmime.
    apply listDirectory_requests.
    eapply Forall_impl; [|exact IH]. intros f Hf r'. apply Hf.
Qed.

End Traces.

Lemma processLiveBucket_requests (b : SourceBucket) (r : Run) :
  requests (now (processLiveBucket b r))
  = requests (now r) ++ sourceBucketRequests b.
Proof.
  unfold processLiveBucket, migrateFilesFromBucket, sourceBucketRequests.
  rewrite (listDirectory_requests (bucketName b) (migrateFile (bucketName b) "")
             (itemRequests (bucketName b) ""))
    by (apply Forall_forall; intros f _ r'; apply migrateFile_requests).
  destruct (createReply b) as [[]|msg|msg];
    [|destruct (negb (Js.includes "already exists" msg))|]; trace.
Qed.

Lemma migrateLiveProject_requests (sc : LiveScenario) (s0 : State) :
  requests (now (migrateLiveProject sc s0)) = liveRequests sc.
Proof.
  unfold migrateLiveProject, liveRequests. rewrite catchFinally_requests.
  unfold migrateLiveProjectBody.
  destruct (liveClients sc) as [[]|msg]; [|reflexivity].
  destruct (sourceBuckets sc) as [buckets|msg|msg]; try solve [trace].
  destruct (length buckets =? 0)%nat eqn:Hlen.
  - apply Nat.eqb_eq, length_zero_iff_nil in Hlen. subst buckets. trace.
  - cbn [snd now assign requests setSuccess].
    rewrite (trace_fold processLiveBucket sourceBucketRequests)
      by (apply Forall_forall; intros b _ r; apply processLiveBucket_requests).
    trace.
Qed.


Section TraceOrder.

Lemma app_split {X : Type} (l1 l2 before after : list X) (q : X) :
  l1 ++ l2 = before ++ q :: after ->
  (exists mid, l1 = before ++ q :: mid /\ after = mid ++ l2)
  \/ (exists before', before = l1 ++ before' /\ l2 = before' ++ q :: after).
Proof.
  revert before. induction l1 as [|x l1 IH]; intros before H.
  - right. exists before. now split.
  - destruct before as [|y before]; cbn [app] in H.
    + injection H as -> <-. left. now exists l1.
    + injection H as -> H. destruct (IH before H) as [(mid & -> & ->)|(b' & -> & ->)].
      * left. now exists mid.
      * right. now exists b'.
Qed.

Lemma flat_map_split {X Y : Type} (f : X -> list Y) (l : list X)
  (before after : list Y) (q : Y) :
  flat_map f l = before ++ q :: after ->
  exists l1 x l2 b1 a1,
    l = l1 ++ x :: l2 /\ f x = b1 ++ q :: a1
    /\ before = flat_map f l1 ++ b1 /\ after = a1 ++ flat_map f l2.
Proof.
  revert before. induction l as [|x l IH]; intros before H; cbn [flat_map] in H.
  - now destruct before.
  - destruct (app_split _ _ _ _ _ H) as [(mid & Hx & ->)|(b' & -> & Hl)].
    + exists [], x, l, before, mid. now repeat split.
    + destruct (IH b' Hl) as (l1 & x' & l2 & b1 & a1 & -> & Hx' & -> & ->).
      exists (x :: l1), x', l2, b1, a1. repeat split; [exact Hx'|].
      cbn [flat_map]. now rewrite app_assoc.
Qed.

Lemma objectRequests_upload (b0 : string) (info : FileInfo) (b p : string)
  (ct : Value) :
  In (DstUpload b p ct) (objectRequests b0 info) <->
  b = b0 /\ async (file info) = Returned tt
  /\ p = path info /\ ct = getMimeType (path info).
Proof.
  unfold objectRequests. destruct (async (file info)) as [[]|msg]; split.
  - intros [H|[H|[]]]; [discriminate|]. injection H as <- <- <-. now repeat split.
  - intros (-> & _ & -> & ->). right. now left.
  - intros [H|[]]. discriminate.
  - intros (_ & H & _). discriminate.
Qed.

Lemma bucketRequests_upload (sc : ZipScenario) (names : list string)
  (entry : string * list FileInfo) (b p : string) (ct : Value) :
  In (DstUpload b p ct) (bucketRequests sc names entry) <->
  b = fst entry /\ bucketReady sc names b = true
  /\ exists info, In info (snd entry) /\ async (file info) = Returned tt
                  /\ p = path info /\ ct = getMimeType (path info).
Proof.
  unfold bucketRequests. rewrite in_app_iff. split.
  - intros [H|H].
    + destruct (existsb (String.eqb (fst entry)) names); [destruct H|].
      destruct H as [H|[]]. discriminate.
    + destruct (bucketReady sc names (fst entry)) eqn:Hr; [|destruct H].
      apply in_flat_map in H. destruct H as (info & Hin & H).
      apply objectRequests_upload in H. destruct H as (-> & Ha & -> & ->).
      split; [reflexivity|]. split; [exact Hr|]. now exists info.
  - intros (-> & Hr & info & Hin & Ha & -> & ->). right. rewrite Hr.
    apply in_flat_map. exists info. split; [exact Hin|].
    now apply objectRequests_upload.
Qed.

Lemma bucketRequests_create (sc : ZipScenario) (names : list string)
  (entry : string * list FileInfo) (b : string) (pub : bool) :
  In (DstCreateBucket b pub) (bucketRequests sc names entry) ->
  b = fst entry /\ pub = false /\ ~ In b names.
Proof.
  unfold bucketRequests. rewrite in_app_iff. intros [H|H].
  - destruct (existsb (String.eqb (fst entry)) names) eqn:He; [destruct H|].
    destruct H as [H|[]]. injection H as <- <-. repeat split.
    intros Hin. apply Bool.not_true_iff_false in He. apply He.
    apply existsb_exists. exists (fst entry). split; [exact Hin|].
    apply String.eqb_refl.
  - destruct (bucketReady sc names (fst entry)); [|destruct H].
    apply in_flat_map in H. destruct H as (info & _ & H).
    unfold objectRequests in H. destruct H as [H|H]; [discriminate|].
    destruct (async (file info)); [|destruct H].
    destruct H as [H|[]]. discriminate.
Qed.

Lemma bucketRequests_order (sc : ZipScenario) (names : list string)
  (entry : string * list FileInfo) (before after : list Request) (b p : string)
  (ct : Value) :
  bucketRequests sc names entry = before ++ DstUpload b p ct :: after ->
  In b names \/ In (DstCreateBucket b false) before.
Proof.
  intros H.
  assert (Hb : b = fst entry).
  { apply (bucketRequests_upload sc names entry b p ct).
    rewrite H. apply in_or_app. right. now left. }
  revert H. unfold bucketRequests.
  destruct (existsb (String.eqb (fst entry)) names) eqn:He.
  - intros _. left. apply existsb_exists in He. destruct He as (n & Hn & Heq).
    apply String.eqb_eq in Heq. now subst.
  - intros H. right.
    destruct (app_split _ _ _ _ _ H) as [(mid & Hx & _)|(b' & -> & _)].
    + destruct before as [|q before]; [discriminate Hx|].
      destruct before; discriminate Hx.
    + subst b. apply in_or_app. left. now left.
Qed.

Lemma UploadsFollowDownloads_app (l1 l2 : list Request) :
  UploadsFollowDownloads l1 -> UploadsFollowDownloads l2 ->
  startsWithUpload l2 = false ->
  UploadsFollowDownloads (l1 ++ l2).
Proof.
  intros H1 H2 Hs before b p ct after H.
  destruct (app_split _ _ _ _ _ H) as [(mid & Hx & _)|(b' & -> & Hl)].
  - exact (H1 _ _ _ _ _ Hx).
  - destruct b' as [|q b']; [now rewrite Hl in Hs|].
    destruct (H2 _ _ _ _ _ Hl) as (b'' & ->).
    exists (l1 ++ b''). now rewrite app_assoc.
Qed.

Lemma startsWithUpload_app (l1 l2 : list Request) :
  startsWithUpload l1 = false -> startsWithUpload l2 = false ->
  startsWithUpload (l1 ++ l2) = false.
Proof. destruct l1 as [|q l1]; [easy|]. now destruct q. Qed.

Lemma UploadsFollowDownloads_flat_map {X : Type} (f : X -> list Request)
  (l : list X) :
  Forall (fun x => UploadsFollowDownloads (f x) /\ startsWithUpload (f x) = false) l ->
  UploadsFollowDownloads (flat_map f l) /\ startsWithUpload (flat_map f l) = false.
Proof.
  induction 1 as [|x l [Hx Hs] _ [IH IHs]]; cbn [flat_map].
  - split; [|reflexivity]. intros before b p ct after H. now destruct before.
  - split; [now apply UploadsFollowDownloads_app | now apply startsWithUpload_app].
Qed.

Lemma UploadsFollowDownloads_cons (q : Request) (l : list Request) :
  startsWithUpload [q] = false ->
  UploadsFollowDownloads l -> startsWithUpload l = false ->
  UploadsFollowDownloads (q :: l).
Proof.
  intros Hq Hl Hs. apply (UploadsFollowDownloads_app [q] l); [|exact Hl|exact Hs].
  intros before b p ct after H. destruct before as [|q' before].
  - injection H as -> _. discriminate Hq.
  - injection H as _ H. now destruct before.
Qed.

Lemma itemRequests_paired (b : string) (f : FileObject) :
  forall dirPath,
    UploadsFollowDownloads (itemRequests b dirPath f)
    /\ startsWithUpload (itemRequests b dirPath f) = false.
Proof.
  induction f as [fname mime dl ul listed IH] using FileObject_induction.
  intros dirPath. destruct (Js.truthy mime) eqn:Hmime.
  - cbn [itemRequests]. rewrite Hmime. split; [|reflexivity].
    intros before b' p ct after H.
    destruct before as [|q before]; [discriminate H|]. injection H as <- H.
    destruct (thrownBy dl); [now destruct before|].
    destruct before as [|q before]; [|now destruct before].
    injection H as <- <- _ _. now exists [].
  - rewrite itemRequests_folder by exact Hmime. split; [|reflexivity].
    destruct (UploadsFollowDownloads_flat_map
                (itemRequests b (joinPath dirPath fname)) (childrenOf listed))
      as [Hp Hs].
    { eapply Forall_impl; [|exact IH]. intros f Hf. apply Hf. }
    now apply UploadsFollowDownloads_cons.
Qed.

End TraceOrder.

(** ** How a run ends *)

Lemma Evolves_BodyStep_keeps (r r' : Run) :
  Evolves BodyStep r r' ->
  isProcessing (now r') = isProcessing (now r)
  /\ (error (now r) = "" -> error (now r') = "").
Proof.
  induction 1 as [|r' f _ IH Hs]; [now split|].
  apply BodyStep_keeps in Hs. cbn [now assign].
  destruct IH as (H1 & H2), Hs as (K1 & K2).
  split; [congruence | auto].
Qed.

(** The summary is set by the last assignment of a [try] block only: until
    then it is empty, whatever the tab switches. *)
Lemma success_request (q : Request) (r : Run) :
  success (now r) = "" -> success (now (request q r)) = "".
Proof.
  intros H. unfold request.
  destruct (nth (length (requests (now r))) (switches r) 0) as [|n]; [exact H|].
  reflexivity.
Qed.

Lemma success_parseZipStructure (entries : list ZipObject) (r : Run) :
  success (now (snd (parseZipStructure entries r))) = success (now r).
Proof.
  unfold parseZipStructure. destruct (detectRootFolder entries); reflexivity.
Qed.

Ltac unset :=
  repeat first
    [ apply success_request
    | rewrite success_parseZipStructure
    | progress cbn [now assign addLog success setLogs setTotalItems setProgress
                    setIsProcessing setCurrentOperation interruptedBy clearLogs
                    start clearedState fst snd] ];
  try reflexivity.

Lemma catchFinally_failed (msg : string) (pre : Run) :
  success (now pre) = "" ->
  isFailed (now (catchFinally (Throw msg, pre))) = true
  /\ isCompleted (now (catchFinally (Throw msg, pre))) = false
  /\ error (now (catchFinally (Throw msg, pre))) = msg.
Proof.
  intros Hs. unfold isFailed, isCompleted, lastLog, isFailedEntry,
    catchFinally, addLog. cbn.
  rewrite Hs, rev_unit. cbn. now rewrite String.eqb_refl.
Qed.

Section Outcomes.

Lemma catchFinally_EndsFailed (msg : string) (pre : Run) :
  success (now pre) = "" ->
  EndsFailed (now (catchFinally (Throw msg, pre))) msg.
Proof.
  intros Hs. destruct (catchFinally_failed msg pre Hs) as (H1 & H2 & H3).
  now repeat split.
Qed.

Lemma catchFinally_EndsCompleted (s0 : State) (op : string) (n : list nat)
  (r' : Run) :
  Evolves BodyStep
    (assign (setCurrentOperation op)
       (assign (setIsProcessing true) (interruptedBy n (clearLogs s0))))
    r' ->
  Js.truthy (success (now r')) = true ->
  EndsCompleted (now (catchFinally (Normal, r'))).
Proof.
  intros Hev Hs. apply Evolves_BodyStep_keeps in Hev. destruct Hev as (_ & He).
  unfold EndsCompleted, isCompleted, isFailed, catchFinally.
  cbn [fst snd now assign isProcessing setIsProcessing success error negb andb].
  rewrite Hs. repeat split. now apply He.
Qed.

End Outcomes.

Section RunEnds.

Lemma migrateLiveProject_ends (sc : LiveScenario) (s0 : State) :
  Ends (now (migrateLiveProject sc s0)) (liveOutcome sc).
Proof.
  unfold liveOutcome.
  pose proof (migrateLiveProjectBody_body sc
                (assign (setCurrentOperation "Migrating from live project")
                   (assign (setIsProcessing true)
                      (interruptedBy (liveSwitches sc) (clearLogs s0))))) as Hev.
  unfold migrateLiveProject. revert Hev. unfold migrateLiveProjectBody.
  destruct (liveClients sc) as [[]|msg].
  - destruct (sourceBuckets sc) as [buckets|msg|msg].
    + destruct (length buckets =? 0)%nat; cbn [snd]; intros Hev;
        apply (catchFinally_EndsCompleted s0 _ _ _ Hev); reflexivity.
    + intros _. apply catchFinally_EndsFailed. unset.
    + intros _. apply catchFinally_EndsFailed. unset.
  - intros _. apply catchFinally_EndsFailed. unset.
Qed.

Lemma migrateFromZip_ends (sc : ZipScenario) (s0 : State)
  (loaded : Attempt (list ZipObject)) :
  uploadedZip sc = Some loaded ->
  Ends (now (migrateFromZip sc s0)) (zipOutcome sc loaded).
Proof.
  intros Hzip. unfold zipOutcome.
  pose proof (migrateFromZipBody_body sc loaded
                (assign (setCurrentOperation "Migrating from ZIP file")
                   (assign (setIsProcessing true)
                      (interruptedBy (zipSwitches sc) (clearLogs s0))))) as Hev.
  unfold migrateFromZip. rewrite Hzip. revert Hev. unfold migrateFromZipBody.
  destruct (zipClient sc) as [[]|msg].
  - destruct loaded as [entries|msg].
    + cbv zeta. rewrite parseZipStructure_parsed.
      destruct (parsed entries) as [[|e plan]|msg].
      * intros _.
        rewrite (proj2 (objectKeys_nil [])) by reflexivity. cbn [length Nat.eqb].
        apply catchFinally_EndsFailed. unset.
      * destruct (length (objectKeys (e :: plan)) =? 0)%nat eqn:Hlen.
        { apply Nat.eqb_eq, length_zero_iff_nil, objectKeys_nil in Hlen.
          discriminate Hlen. }
        unfold transferPlan.
        destruct (existingBuckets sc) as [names|msg|msg]; cbn [snd fst].
        -- intros Hev. apply (catchFinally_EndsCompleted s0 _ _ _ Hev). reflexivity.
        -- intros Hev. apply (catchFinally_EndsCompleted s0 _ _ _ Hev). reflexivity.
        -- intros _. apply catchFinally_EndsFailed. unset.
      * intros _. apply catchFinally_EndsFailed. unset.
    + intros _. apply catchFinally_EndsFailed. unset.
  - intros _. apply catchFinally_EndsFailed. unset.
Qed.

End RunEnds.

(* ================================================================== *)
(** ** Archive runs *)

Section ArchiveRuns.

Variable sc : ZipScenario.

Lemma uploadFromZip_evolves (b : string) (info : FileInfo) (r : Run) :
  Quiet r -> Evolves ZipStep r (uploadFromZip b info r).
Proof.
  intros Hq. unfold uploadFromZip, incrementProgress, addLog. quiet.
  destruct (async (file info)); [destruct (thrownBy (uploadReply (file info)))|];
    evolve.
Qed.

Lemma uploadAll_evolves (b : string) (files : list FileInfo) (r : Run) :
  Quiet r -> Evolves ZipStep r (uploadAll b files r).
Proof.
  unfold uploadAll. apply (Evolves_fold_quiet ZipStep (uploadFromZip b)).
  intros. now apply uploadFromZip_evolves.
Qed.

Lemma processZipBucket_evolves (existing : list string)
  (entry : string * list FileInfo) (r : Run) :
  Quiet r -> Evolves ZipStep r (processZipBucket sc existing entry r).
Proof.
  intros Hq. unfold processZipBucket.
  destruct (existsb (String.eqb (fst entry)) existing).
  - eapply Evolves_trans; [|apply uploadAll_evolves; quiet_side].
    unfold addLog. evolve.
  - destruct (thrownBy (createBucket sc (fst entry))) as [msg|].
    + destruct (Js.includes "already exists" msg).
      * eapply Evolves_trans; [|apply uploadAll_evolves; quiet_side].
        unfold addLog. quiet. evolve.
      * unfold addLog. quiet. evolve.
    + eapply Evolves_trans; [|apply uploadAll_evolves; quiet_side].
      unfold addLog. quiet. evolve.
Qed.

Lemma catchFinally_evolves (c : Completion) (r : Run) :
  Evolves ZipStep r (catchFinally (c, r)).
Proof.
  unfold catchFinally, addLog. destruct c; simpl; evolve.
Qed.

(** The run from the assignment of the total to the end of [transferPlan]. *)
Lemma transferPlan_evolves (bucketFiles : BucketFiles) (r : Run) :
  Quiet r ->
  Evolves ZipStep (assign (setTotalItems (countFiles bucketFiles)) r)
    (snd (transferPlan sc bucketFiles r)).
Proof.
  intros Hq. unfold transferPlan.
  set (r1 := request DstListBuckets _).
  assert (H1 : Evolves ZipStep
                 (assign (setTotalItems (countFiles bucketFiles)) r) r1).
  { subst r1. unfold addLog. quiet. evolve. }
  assert (Hq1 : Quiet r1) by (subst r1; quiet_side).
  assert (Hloop : forall existing,
    Evolves ZipStep (assign (setTotalItems (countFiles bucketFiles)) r)
      (fold_left (fun r entry => processZipBucket sc existing entry r)
         (objectEntries bucketFiles) r1)).
  { intros existing. eapply Evolves_trans; [exact H1|].
    apply (Evolves_fold_quiet ZipStep (processZipBucket sc existing));
      [|exact Hq1].
    intros. now apply processZipBucket_evolves. }
  destruct (existingBuckets sc); simpl; try exact H1;
    (apply Evolves_assign; [apply Hloop | step]).
Qed.

End ArchiveRuns.

Section Counting.

Lemma Counted_assign (f : State -> State) (k k' : nat) (r : Run) :
  Counted k r ->
  (progress (now r) + k <= totalItems (now r) ->
   progress (f (now r)) + k' <= totalItems (f (now r))) ->
  Counted k' (assign f r).
Proof.
  intros [Hk Hall] Hf. specialize (Hf Hk). split; [exact Hf|].
  unfold history. simpl. constructor; [unfold Bounded; lia | exact Hall].
Qed.

Lemma Counted_keep (f : State -> State) (k : nat) (r : Run) :
  Counted k r ->
  progress (f (now r)) = progress (now r) ->
  totalItems (f (now r)) = totalItems (now r) ->
  Counted k (assign f r).
Proof. intros H Hp Ht. apply (Counted_assign f k k r H). lia. Qed.

Lemma Counted_increment (k : nat) (r : Run) :
  Counted (S k) r -> Counted k (incrementProgress r).
Proof.
  intros H. apply (Counted_assign _ (S k) k r H). cbn. lia.
Qed.

Lemma Counted_weaken (k k' : nat) (r : Run) :
  k' <= k -> Counted k r -> Counted k' r.
Proof. intros Hle [Hk Hall]. split; [lia | exact Hall]. Qed.

Lemma Counted_start (s : State) (k : nat) :
  progress s + k <= totalItems s -> Counted k (start s).
Proof.
  intros H. split; [exact H|]. repeat constructor. unfold Bounded. simpl. lia.
Qed.

End Counting.

(** Straight-line code keeps the count: one assignment at a time. *)
Ltac counted :=
  first [ eassumption
        | apply Counted_increment; counted
        | apply Counted_keep; [ counted | reflexivity | reflexivity ] ].

Lemma fold_left_sum {X : Type} (size : X -> nat) (l : list X) (a : nat) :
  fold_left (fun sum x => sum + size x) l a = a + list_sum (map size l).
Proof.
  revert a. induction l as [|x l IH]; intros a; simpl; [lia|].
  rewrite IH. lia.
Qed.

Lemma countFiles_planSize (bucketFiles : BucketFiles) :
  countFiles bucketFiles = planSize (objectEntries bucketFiles).
Proof.
  unfold countFiles, planSize, objectValues.
  rewrite (fold_left_sum (@length FileInfo)), map_map. reflexivity.
Qed.

Section ArchiveCounting.

Variable sc : ZipScenario.

Lemma uploadFromZip_counted (b : string) (info : FileInfo) (k : nat) (r : Run) :
  Quiet r -> Counted (S k) r -> Counted k (uploadFromZip b info r).
Proof.
  intros Hq H. unfold uploadFromZip, addLog. quiet.
  destruct (async (file info)); [destruct (thrownBy (uploadReply (file info)))|];
    counted.
Qed.

Lemma uploadAll_counted (b : string) (files : list FileInfo) (k : nat) (r : Run) :
  Quiet r -> Counted (length files + k) r -> Counted k (uploadAll b files r).
Proof.
  revert r. induction files as [|info files IH]; intros r Hq H; [exact H|].
  simpl. apply IH; [quiet_side|]. now apply uploadFromZip_counted.
Qed.

Lemma processZipBucket_counted (existing : list string)
  (entry : string * list FileInfo) (k : nat) (r : Run) :
  Quiet r ->
  Counted (length (snd entry) + k) r ->
  Counted k (processZipBucket sc existing entry r).
Proof.
  intros Hq H. unfold processZipBucket.
  destruct (existsb (String.eqb (fst entry)) existing).
  - apply uploadAll_counted; [quiet_side|]. unfold addLog. counted.
  - destruct (thrownBy (createBucket sc (fst entry))) as [msg|].
    + destruct (Js.includes "already exists" msg).
      * apply uploadAll_counted; [quiet_side|]. unfold addLog. quiet. counted.
      * apply (Counted_weaken (length (snd entry) + k)); [lia|].
        unfold addLog. quiet. counted.
    + apply uploadAll_counted; [quiet_side|]. unfold addLog. quiet. counted.
Qed.

Lemma processAll_counted (existing : list string)
  (entries : list (string * list FileInfo)) (k : nat) (r : Run) :
  Quiet r ->
  Counted (planSize entries + k) r ->
  Counted k (fold_left (fun r entry => processZipBucket sc existing entry r)
               entries r).
Proof.
  revert r. induction entries as [|entry entries IH]; intros r Hq H; [exact H|].
  simpl. apply IH; [quiet_side|]. apply processZipBucket_counted; [exact Hq|].
  unfold planSize in *. simpl in H. now rewrite Nat.add_assoc.
Qed.

Lemma catchFinally_counted (c : Completion) (k : nat) (r : Run) :
  Counted k r -> Counted k (catchFinally (c, r)).
Proof.
  intros H. unfold catchFinally, addLog. destruct c; simpl; counted.
Qed.

Lemma transferPlan_counted (bucketFiles : BucketFiles) (r : Run) :
  Quiet r ->
  Counted 0 r -> progress (now r) = 0 ->
  Counted 0 (snd (transferPlan sc bucketFiles r)).
Proof.
  intros Hq H H0. unfold transferPlan.
  set (r1 := request DstListBuckets _).
  assert (H1 : Counted (planSize (objectEntries bucketFiles) + 0) r1).
  { subst r1. unfold addLog. quiet.
    rewrite countFiles_planSize.
    do 2 (apply Counted_keep; [|reflexivity|reflexivity]).
    apply (Counted_assign _ 0 _ r H). cbn. lia. }
  assert (Hq1 : Quiet r1) by (subst r1; quiet_side).
  destruct (existingBuckets sc); simpl;
    try (eapply Counted_weaken; [|exact H1]; lia);
    (eapply Counted_assign;
     [apply processAll_counted; [exact Hq1 | exact H1] | cbn; lia]).
Qed.

End ArchiveCounting.

(** ** Errors logged *)

Section ErrorCounts.

Lemma errorCount_snoc (l : list LogEntry) (e : LogEntry) :
  errorCount (l ++ [e]) = errorCount l + (if isErrorEntry e then 1 else 0).
Proof.
  unfold errorCount. rewrite filter_app, length_app. simpl.
  now destruct (isErrorEntry e).
Qed.

Lemma errors_addLog (m : string) (t : LogType) (r : Run) :
  errors (addLog m t r)
  = errors r + match t with Error => 1 | _ => 0 end.
Proof.
  unfold errors, addLog. cbn [now assign logs setLogs].
  rewrite errorCount_snoc. now destruct t.
Qed.

Lemma errors_request (q : Request) (r : Run) :
  Quiet r -> errors (request q r) = errors r.
Proof. intros Hq. now rewrite request_quiet. Qed.

Lemma errors_clearLogs (s : State) : errors (clearLogs s) = 0.
Proof. reflexivity. Qed.

Lemma errors_interruptedBy (n : list nat) (r : Run) :
  errors (interruptedBy n r) = errors r.
Proof. reflexivity. Qed.

Lemma errors_assign (f : State -> State) (r : Run) :
  logs (f (now r)) = logs (now r) -> errors (assign f r) = errors r.
Proof. intros H. unfold errors. cbn [now assign]. now rewrite H. Qed.

Lemma errors_incrementProgress (r : Run) : errors (incrementProgress r) = errors r.
Proof. reflexivity. Qed.

Lemma errors_catchFinally (c : Completion) (r : Run) :
  errors (catchFinally (c, r))
  = errors r + match c with Normal => 0 | Throw _ => 1 end.
Proof.
  unfold catchFinally. destruct c; cbn [fst snd].
  - unfold errors. cbn [now assign logs setIsProcessing]. lia.
  - change (errors (addLog ("Migration failed: " ++ msg) Error
                      (assign (setError msg) r)) = errors r + 1).
    now rewrite errors_addLog.
Qed.

(** A measure of a run after a loop of a quiet run: the sum of what each
    pass adds to it. *)
Lemma measure_fold {X : Type} (m : Run -> nat) (g : X -> Run -> Run)
  (cost : X -> nat) (l : list X) :
  (forall x r, switches (g x r) = switches r) ->
  Forall (fun x => forall r, Quiet r -> m (g x r) = m r + cost x) l ->
  forall r, Quiet r ->
    m (fold_left (fun r x => g x r) l r) = m r + list_sum (map cost l).
Proof.
  intros Hs. induction 1 as [|x l Hx _ IH]; intros r Hq; simpl; [lia|].
  rewrite IH, Hx by (unfold Quiet in *; now rewrite ?Hs). lia.
Qed.

End ErrorCounts.

Ltac errors :=
  repeat first [ rewrite errors_addLog
               | rewrite errors_request by quiet_side
               | rewrite errors_incrementProgress
               | rewrite errors_clearLogs
               | rewrite errors_interruptedBy
               | rewrite errors_assign by reflexivity ];
  unfold errors in *; try lia.

(** ** Before the plan *)

Section ArchiveShape.

Variable sc : ZipScenario.
Variable s0 : State.

Lemma AtRest_cleared : AtRest (clearedState s0).
Proof.
  unfold AtRest, PrivateOnly. cbn. repeat split. intros n p [].
Qed.

Lemma Rests_switch (s : State) : Rests s (tabSwitched s).
Proof.
  intros (_ & _ & Hq & Hpriv & _). unfold AtRest, PrivateOnly in *. cbn.
  repeat split; assumption.
Qed.

Lemma Rests_keep (f : State -> State) (s : State) :
  totalItems (f s) = totalItems s -> progress (f s) = progress s ->
  requests (f s) = requests s -> success (f s) = success s ->
  Rests s (f s).
Proof.
  intros Ht Hp Hq Hs (H1 & H2 & H3 & H4 & H5). unfold AtRest, PrivateOnly in *.
  rewrite Ht, Hp, Hq, Hs. repeat split; assumption.
Qed.

Lemma load_rests (r : Run) : Evolves Rests r (request ZipLoadAsync r).
Proof.
  apply request_evolves; [|apply Rests_switch].
  intros s (H1 & H2 & H3 & H4 & H5). unfold AtRest, PrivateOnly in *. cbn.
  rewrite filter_app, H3. repeat split; try assumption.
  intros n p Hin. privateRequest.
Qed.

(** The states of a run that has been at rest so far. *)
Lemma Rests_history (r r' : Run) :
  Evolves Rests r r' -> Forall AtRest (history r) -> Forall AtRest (history r').
Proof.
  intros H H0.
  destruct (Evolves_history Rests AtRest r r' (fun s s' Hs Hstep => Hstep Hs)
              H (Forall_inv H0)) as (_ & added & -> & Hadded).
  apply Forall_app. now split.
Qed.

Lemma BeforePlan_AtRest (pre : Run) :
  BeforePlan sc s0 pre -> Forall AtRest (history pre).
Proof.
  intros [H _]. apply (Rests_history _ _ H).
  repeat constructor. apply AtRest_cleared.
Qed.

Lemma BeforePlan_reset :
  BeforePlan sc s0 (interruptedBy (zipSwitches sc) (clearLogs s0)).
Proof.
  split; [constructor|]. intros ->. repeat split. constructor.
Qed.

Lemma BeforePlan_assign (f : State -> State) (pre : Run) :
  (forall s, totalItems (f s) = totalItems s /\ progress (f s) = progress s
             /\ requests (f s) = requests s /\ success (f s) = success s
             /\ Prefix (logs s) (logs (f s))
             /\ errorCount (logs (f s)) = errorCount (logs s)) ->
  BeforePlan sc s0 pre -> BeforePlan sc s0 (assign f pre).
Proof.
  intros Hf [Hr Hq]. split.
  - apply Evolves_assign; [exact Hr|].
    destruct (Hf (now pre)) as (H1 & H2 & H3 & H4 & _). now apply Rests_keep.
  - intros Hs. destruct (Hq Hs) as (Q & G & E).
    destruct (Hf (now pre)) as (H1 & H2 & H3 & H4 & H5 & H6).
    split; [exact Q|]. split.
    + apply Evolves_assign; [exact G|]. unfold Grows.
      rewrite H2, H3. repeat split; [lia | exact H5 | apply Prefix_refl].
    + unfold errors in *. cbn [now assign]. now rewrite H6.
Qed.

Lemma BeforePlan_info (m : string) (pre : Run) :
  BeforePlan sc s0 pre -> BeforePlan sc s0 (addLog m Info pre).
Proof.
  apply BeforePlan_assign. intros s.
  cbn [totalItems progress requests success logs setLogs].
  rewrite errorCount_snoc. cbn [isErrorEntry type].
  repeat split; [apply Prefix_snoc | lia].
Qed.

Lemma BeforePlan_load (pre : Run) :
  BeforePlan sc s0 pre -> BeforePlan sc s0 (request ZipLoadAsync pre).
Proof.
  intros [Hr Hq]. split; [eapply Evolves_trans; [exact Hr | apply load_rests]|].
  intros Hs. destruct (Hq Hs) as (Q & G & E).
  split; [quiet_side|]. rewrite request_quiet by exact Q.
  split; [apply Evolves_assign; [exact G | step] | exact E].
Qed.

Lemma BeforePlan_parse (entries : list ZipObject) (pre : Run) :
  BeforePlan sc s0 pre ->
  BeforePlan sc s0 (snd (parseZipStructure entries pre)).
Proof.
  intros H. unfold parseZipStructure. cbn [snd].
  destruct (detectRootFolder entries); [now apply BeforePlan_info | exact H].
Qed.

(** An archive run up to the point where it aborts or starts its plan. *)
Lemma migrateFromZip_shape (loaded : Attempt (list ZipObject)) :
  uploadedZip sc = Some loaded ->
  exists pre,
    BeforePlan sc s0 pre
    /\ ((exists msg,
           migrateFromZip sc s0 = catchFinally (Throw msg, pre)
           /\ zipOutcome sc loaded = Failed msg
           /\ zipFailures sc loaded = 1)
        \/ (exists entries plan,
              loaded = Returned entries
              /\ zipClient sc = Returned tt
              /\ parsed entries = Returned plan
              /\ plan <> []
              /\ migrateFromZip sc s0
                 = catchFinally (transferPlan sc plan pre))).
Proof.
  intros Hzip. unfold migrateFromZip, zipOutcome, zipFailures. rewrite Hzip.
  pose proof BeforePlan_reset as H0.
  apply (BeforePlan_assign (setIsProcessing true)) in H0;
    [|intros s; cbn; repeat split; apply Prefix_refl].
  apply (BeforePlan_assign (setCurrentOperation "Migrating from ZIP file")) in H0;
    [|intros s; cbn; repeat split; apply Prefix_refl].
  apply (BeforePlan_info "Initializing Supabase client...") in H0.
  unfold migrateFromZipBody.
  destruct (zipClient sc) as [[]|msg].
  - apply (BeforePlan_info "Loading ZIP file...") in H0.
    apply BeforePlan_load in H0.
    destruct loaded as [entries|msg].
    + apply (BeforePlan_parse entries) in H0.
      cbv zeta. rewrite parseZipStructure_parsed.
      destruct (parsed entries) as [[|e plan]|msg] eqn:Hparsed.
      * rewrite (proj2 (objectKeys_nil [])) by reflexivity. cbn [length Nat.eqb].
        eexists. split; [exact H0|]. left. eexists. now repeat split.
      * destruct (length (objectKeys (e :: plan)) =? 0)%nat eqn:Hlen.
        { apply Nat.eqb_eq, length_zero_iff_nil, objectKeys_nil in Hlen.
          discriminate Hlen. }
        eexists. split; [eapply BeforePlan_info; exact H0|].
        right. exists entries, (e :: plan). now repeat split.
      * eexists. split; [exact H0|]. left. eexists. now repeat split.
    + eexists. split; [exact H0|]. left. eexists. now repeat split.
  - eexists. split; [exact H0|]. left. eexists. now repeat split.
Qed.

End ArchiveShape.

Section ArchiveHistory.

Variable sc : ZipScenario.
Variable s0 : State.

Lemma AtRest_Bounded (s : State) : AtRest s -> Bounded s.
Proof. intros (Ht & Hp & _). unfold Bounded. lia. Qed.

Lemma ZipStep_Grows (s s' : State) : ZipStep s s' -> Grows s s'.
Proof. now intros [H _]. Qed.

Lemma Monotone_clearLogs : Monotone (clearLogs s0).
Proof. unfold Monotone, clearLogs, start, history. simpl. repeat constructor. Qed.

(** An aborted run leaves the counters at rest. *)
Lemma catchFinally_AtRest (msg : string) (pre : Run) :
  Forall AtRest (history pre) ->
  Forall AtRest (history (catchFinally (Throw msg, pre))).
Proof.
  intros H. pose proof (Forall_inv H) as (Ht & Hp & Hq & Hpriv & Hs).
  unfold catchFinally, addLog, history. cbn.
  do 3 (constructor; [repeat split; assumption|]). exact H.
Qed.

Lemma Counted_AtRest (pre : Run) :
  Forall AtRest (history pre) -> Counted 0 pre /\ progress (now pre) = 0.
Proof.
  intros H. pose proof (Forall_inv H) as (Ht & Hp & _).
  repeat split; [lia | | exact Hp].
  eapply Forall_impl; [|exact H]. apply AtRest_Bounded.
Qed.

(** An archive run during which the tabs are left alone only grows. *)
Lemma migrateFromZip_grows (loaded : Attempt (list ZipObject)) :
  uploadedZip sc = Some loaded ->
  zipSwitches sc = [] ->
  Evolves Grows (clearLogs s0) (migrateFromZip sc s0).
Proof.
  intros Hzip Hquiet.
  destruct (migrateFromZip_shape sc s0 loaded Hzip)
    as (pre & [_ Hpre] & [(msg & -> & _) | (entries & plan & _ & _ & _ & _ & ->)]);
    destruct (Hpre Hquiet) as (Q & Hev & _).
  - eapply Evolves_trans; [exact Hev|].
    eapply Evolves_weaken; [apply ZipStep_Grows | apply catchFinally_evolves].
  - pose proof (transferPlan_evolves sc plan pre Q) as Hplan.
    destruct (transferPlan sc plan pre) as [c r']. cbn [snd] in *.
    eapply Evolves_trans; [exact Hev|].
    eapply Evolves_trans;
      [|eapply Evolves_weaken;
        [apply ZipStep_Grows
        |exact (Evolves_trans _ _ _ _ Hplan (catchFinally_evolves c r'))]].
    evolve.
Qed.

(** The history of an archive run during which the tabs are left alone:
    every state is bounded, the counter never decreases, and the states
    split into those at rest followed by those with the total of the
    plan. *)
Lemma migrateFromZip_history (loaded : Attempt (list ZipObject)) :
  uploadedZip sc = Some loaded ->
  zipSwitches sc = [] ->
  Forall Bounded (history (migrateFromZip sc s0))
  /\ Monotone (migrateFromZip sc s0)
  /\ exists before after total,
       history (migrateFromZip sc s0) = after ++ before
       /\ Forall AtRest before
       /\ Forall (fun s => totalItems s = total) after.
Proof.
  intros Hzip Hquiet.
  assert (Hmono : Monotone (migrateFromZip sc s0)).
  { apply (Evolves_Monotone (clearLogs s0)); [|apply Monotone_clearLogs].
    now apply (migrateFromZip_grows loaded). }
  revert Hmono.
  destruct (migrateFromZip_shape sc s0 loaded Hzip)
    as (pre & Hpre & [(msg & -> & _) | (entries & plan & _ & _ & _ & _ & ->)]);
    intros Hmono;
    pose proof (BeforePlan_AtRest sc s0 pre Hpre) as Hrest;
    destruct Hpre as [_ Hpre]; destruct (Hpre Hquiet) as (Q & Hev & _).
  - pose proof (catchFinally_AtRest msg pre Hrest) as Hall.
    split; [eapply Forall_impl; [|exact Hall]; apply AtRest_Bounded|].
    split; [exact Hmono|].
    + exists (history (catchFinally (Throw msg, pre))), [], 0.
      repeat split; [exact Hall | constructor].
  - destruct (Counted_AtRest pre Hrest) as [Hc Hp0].
    pose proof (transferPlan_counted sc plan pre Q Hc Hp0) as Hcount.
    pose proof (transferPlan_evolves sc plan pre Q) as Hplan.
    destruct (transferPlan sc plan pre) as [c r'] eqn:E.
    cbn [snd] in *.
    pose proof (Evolves_trans _ _ _ _ Hplan (catchFinally_evolves c r')) as Hrun.
    split; [apply (catchFinally_counted c 0 r' Hcount)|].
    split; [exact Hmono|].
    + destruct (Evolves_history ZipStep
                  (fun s => totalItems s = countFiles plan) _ _
                  (fun s s' Hs Hstep => eq_trans (proj1 (proj2 Hstep)) Hs)
                  Hrun eq_refl)
        as (_ & added & Hh & Hadded).
      exists (history pre),
        (added ++ [now (assign (setTotalItems (countFiles plan)) pre)]),
        (countFiles plan).
      split; [rewrite Hh, <- app_assoc; reflexivity|].
      split; [exact Hrest|].
      apply Forall_app. split; [exact Hadded | now repeat constructor].
Qed.

End ArchiveHistory.

(** C8.  When the archive cannot be read, or no bucket is inferred from it,
    the run ends in the failed state with the reason as its error; in every
    state of the run the counter and the total are zero and no
    decompression or upload has been requested. *)
Theorem unreadable_archive_aborts :
  forall (sc : ZipScenario) (s0 : State) (loaded : Attempt (list ZipObject)),
    uploadedZip sc = Some loaded ->
    noPlan loaded ->
    isFailed (now (migrateFromZip sc s0)) = true
    /\ isCompleted (now (migrateFromZip sc s0)) = false
    /\ Forall (fun s => progress s = 0
                        /\ totalItems s = 0
                        /\ filter isTransfer (requests s) = [])
         (history (migrateFromZip sc s0))
    /\ (zipClient sc = Returned tt ->
        error (now (migrateFromZip sc s0))
        = match loaded with
          | Raised msg => msg
          | Returned _ => "No valid bucket structure found in ZIP file"
          end).
Proof.
  intros sc s0 loaded Hzip Hno.
  destruct (migrateFromZip_shape sc s0 loaded Hzip)
    as (pre & Hpre & [(msg & -> & Hout & _)
                     | (entries & plan & -> & _ & Hparsed & Hplan & _)]).
  - pose proof (BeforePlan_AtRest sc s0 pre Hpre) as Hrest.
    pose proof (Forall_inv Hrest) as (_ & _ & _ & _ & Hs).
    destruct (catchFinally_failed msg pre Hs) as (Hf & Hc & He).
    split; [exact Hf|]. split; [exact Hc|]. split.
    + eapply Forall_impl; [|exact (catchFinally_AtRest msg pre Hrest)].
      intros s (Ht & Hp & Hq & _). now repeat split.
    + intros Hclient. rewrite He. unfold zipOutcome in Hout.
      rewrite Hclient in Hout. destruct loaded as [entries|msg'].
      * simpl in Hno. rewrite (parsed_nil _ Hno) in Hout. now injection Hout.
      * now injection Hout.
  - simpl in Hno. rewrite (parsed_nil _ Hno) in Hparsed.
    injection Hparsed as <-. now elim Hplan.
Qed.

Lemma unreadable_archive_aborts_witness :
  isFailed (now (migrateFromZip corruptArchive initialState)) = true
  /\ progress (now (migrateFromZip corruptArchive initialState)) = 0
  /\ error (now (migrateFromZip corruptArchive initialState))
     = "Corrupted zip: can't find end of central directory".
Proof.
  destruct (unreadable_archive_aborts corruptArchive initialState
              (Raised "Corrupted zip: can't find end of central directory")
              eq_refl I) as (Hf & _ & Hall & He).
  split; [exact Hf|]. split; [apply (Forall_inv Hall) | apply He; reflexivity].
Defined.

Lemma zipRequests_private (sc : ZipScenario) (loaded : Attempt (list ZipObject))
  (b : string) (pub : bool) :
  In (DstCreateBucket b pub) (zipRequests sc loaded) -> pub = false.
Proof.
  unfold zipRequests.
  destruct (zipClient sc); [|intros []].
  intros [H|H]; [discriminate|]. revert H.
  destruct loaded as [entries|msg]; [|intros []].
  destruct (parsed entries) as [[|e plan]|msg]; [intros [] | | intros []].
  intros [H|H]; [discriminate|]. revert H.
  destruct (knownBuckets sc) as [names|]; [|intros []].
  intros H. apply in_flat_map in H. destruct H as (entry & _ & H).
  now apply bucketRequests_create in H.
Qed.

(** C10.  In an archive run every bucket creation requested is private,
    and a bucket of the plan that is not among the existing buckets is
    requested, with the private flag. *)
Theorem archive_buckets_are_private :
  forall (sc : ZipScenario) (s0 : State) (loaded : Attempt (list ZipObject)),
    uploadedZip sc = Some loaded ->
    (forall name public,
        In (DstCreateBucket name public) (requests (now (migrateFromZip sc s0))) ->
        public = false)
    /\ (forall entries plan names bucket,
          loaded = Returned entries ->
          zipClient sc = Returned tt ->
          knownBuckets sc = Some names ->
          parsed entries = Returned plan ->
          In bucket (objectKeys plan) ->
          ~ In bucket names ->
          In (DstCreateBucket bucket false)
             (requests (now (migrateFromZip sc s0)))).
Proof.
  intros sc s0 loaded Hzip.
  rewrite (migrateFromZip_requests sc s0 loaded Hzip). split.
  - intros name public. apply zipRequests_private.
  - intros entries plan names bucket -> Hclient Hknown Hparsed Hkey Hnew.
    unfold zipRequests. rewrite Hclient, Hparsed, Hknown.
    destruct plan as [|e plan]; [destruct Hkey|].
    right. right. unfold objectKeys in Hkey.
    apply in_map_iff in Hkey as (entry & <- & Hin).
    apply in_flat_map. exists entry. split; [exact Hin|].
    unfold bucketRequests. apply in_or_app. left.
    destruct (existsb (String.eqb (fst entry)) names) eqn:E; [|now left].
    apply existsb_exists in E as (x & Hx & Hxe).
    apply String.eqb_eq in Hxe. subst x. contradiction.
Qed.

Lemma archive_buckets_are_private_witness :
  In (DstCreateBucket "docs" false)
     (requests (now (migrateFromZip twoBuckets initialState)))
  /\ ~ In (DstCreateBucket "docs" true)
        (requests (now (migrateFromZip twoBuckets initialState))).
Proof.
  destruct (archive_buckets_are_private twoBuckets initialState _ eq_refl)
    as [Hprivate Hcreated].
  split.
  - apply (Hcreated _ _ ["photos"] "docs" eq_refl eq_refl eq_refl eq_refl).
    + right. now left.
    + intros [H|[]]. discriminate H.
  - intros H. apply Hprivate in H. discriminate H.
Defined.

(* ================================================================== *)
(** ** Live runs *)

Section LiveWalk.

Variable bucket : string.

Lemma transferFile_evolves (filePath mime : string) (dl ul : Reply unit) (r : Run) :
  Quiet r -> Evolves Grows r (transferFile bucket filePath mime dl ul r).
Proof.
  intros Hq. unfold transferFile, incrementProgress, addLog. quiet.
  destruct (thrownBy dl); [|destruct (thrownBy ul)]; evolve.
Qed.

Lemma listDirectory_evolves (each : FileObject -> Run -> Run)
  (dirPath : string) (listed : Reply (list FileObject)) (r : Run) :
  Forall (fun f => forall r, Quiet r -> Evolves Grows r (each f r))
    (childrenOf listed) ->
  Quiet r -> Evolves Grows r (listDirectory each bucket dirPath listed r).
Proof.
  intros Heach Hq. unfold listDirectory, addLog.
  destruct listed as [[|f files]|msg|msg]; try solve [quiet; evolve].
  eapply Evolves_trans;
    [|apply (Evolves_fold_quiet Grows each);
      [intros x r' Hx; exact (proj1 (Forall_forall _ _) Heach x Hx r')
      |quiet_side]].
  quiet. evolve.
Qed.

Lemma migrateFile_evolves (f : FileObject) :
  forall dirPath r, Quiet r -> Evolves Grows r (migrateFile bucket dirPath f r).
Proof.
  induction f as [fname mime dl ul listed IH] using FileObject_induction.
  intros dirPath r Hq. cbn [migrateFile].
  destruct (Js.truthy mime); [now apply transferFile_evolves|].
  apply listDirectory_evolves; [|exact Hq].
  eapply Forall_impl; [|exact IH]. intros f Hf r'. apply Hf.
Qed.

Lemma migrateFilesFromBucket_evolves (dirPath : string)
  (listed : Reply (list FileObject)) (r : Run) :
  Quiet r -> Evolves Grows r (migrateFilesFromBucket bucket dirPath listed r).
Proof.
  apply listDirectory_evolves. apply Forall_forall.
  intros f _ r'. apply migrateFile_evolves.
Qed.

Lemma transferFile_counted (filePath mime : string) (dl ul : Reply unit)
  (k : nat) (r : Run) :
  Quiet r ->
  Counted (S k) r -> Counted k (transferFile bucket filePath mime dl ul r).
Proof.
  intros Hq H.
  pose proof (Counted_weaken (S k) k r (Nat.le_succ_diag_r k) H) as Hw.
  unfold transferFile, addLog. quiet.
  destruct (thrownBy dl); [|destruct (thrownBy ul)]; counted.
Qed.

Lemma eachFile_counted (each : FileObject -> Run -> Run)
  (files : list FileObject) (k : nat) (r : Run) :
  (forall f r, switches (each f r) = switches r) ->
  Forall (fun f => forall k r, Quiet r -> Counted (S k) r -> Counted k (each f r))
    files ->
  Quiet r ->
  Counted (length files + k) r ->
  Counted k (fold_left (fun r f => each f r) files r).
Proof.
  intros Hs Heach. revert r.
  induction Heach as [|f files Hf _ IH]; intros r Hq H; [exact H|].
  simpl. apply IH; [unfold Quiet in *; now rewrite Hs|]. now apply Hf.
Qed.

Lemma listDirectory_counted (each : FileObject -> Run -> Run)
  (dirPath : string) (listed : Reply (list FileObject)) (k : nat) (r : Run) :
  (forall f r, switches (each f r) = switches r) ->
  Forall (fun f => forall k r, Quiet r -> Counted (S k) r -> Counted k (each f r))
    (childrenOf listed) ->
  Quiet r ->
  Counted k r -> Counted k (listDirectory each bucket dirPath listed r).
Proof.
  intros Hs Heach Hq H. unfold listDirectory, addLog.
  destruct listed as [[|f files]|msg|msg]; try solve [quiet; counted].
  apply (eachFile_counted each (f :: files) k _ Hs Heach); [quiet_side|].
  quiet.
  eapply Counted_assign; [apply Counted_keep; [exact H | reflexivity..]|].
  cbn. lia.
Qed.

Lemma migrateFile_counted (f : FileObject) :
  forall dirPath k r,
    Quiet r -> Counted (S k) r -> Counted k (migrateFile bucket dirPath f r).
Proof.
  induction f as [fname mime dl ul listed IH] using FileObject_induction.
  intros dirPath k r Hq H. cbn [migrateFile].
  destruct (Js.truthy mime); [now apply transferFile_counted|].
  apply listDirectory_counted.
  - intros. apply switches_migrateFile.
  - eapply Forall_impl; [|exact IH]. intros f Hf k' r'. apply Hf.
  - exact Hq.
  - eapply Counted_weaken; [|exact H]. lia.
Qed.

Lemma migrateFilesFromBucket_counted (dirPath : string)
  (listed : Reply (list FileObject)) (k : nat) (r : Run) :
  Quiet r ->
  Counted k r -> Counted k (migrateFilesFromBucket bucket dirPath listed r).
Proof.
  apply listDirectory_counted.
  - intros. apply switches_migrateFile.
  - apply Forall_forall. intros f _ k' r'. apply migrateFile_counted.
Qed.

End LiveWalk.

Section LiveRuns.

Variable sc : LiveScenario.
Variable s0 : State.

Lemma processLiveBucket_evolves (b : SourceBucket) (r : Run) :
  Quiet r -> Evolves Grows r (processLiveBucket b r).
Proof.
  intros Hq. unfold processLiveBucket.
  eapply Evolves_trans; [|apply migrateFilesFromBucket_evolves].
  - unfold addLog. quiet.
    destruct (createReply b) as [[]|msg|msg];
      [|destruct (negb (Js.includes "already exists" msg))|]; evolve.
  - destruct (createReply b) as [[]|msg|msg];
      [|destruct (negb (Js.includes "already exists" msg))|]; quiet_side.
Qed.

Lemma processLiveBucket_counted (b : SourceBucket) (k : nat) (r : Run) :
  Quiet r -> Counted k r -> Counted k (processLiveBucket b r).
Proof.
  intros Hq H. unfold processLiveBucket.
  apply migrateFilesFromBucket_counted.
  - destruct (createReply b) as [[]|msg|msg];
      [|destruct (negb (Js.includes "already exists" msg))|]; quiet_side.
  - unfold addLog. quiet.
    destruct (createReply b) as [[]|msg|msg];
      [|destruct (negb (Js.includes "already exists" msg))|]; counted.
Qed.

Lemma processLiveBuckets_evolves (buckets : list SourceBucket) (r : Run) :
  Quiet r ->
  Evolves Grows r (fold_left (fun r b => processLiveBucket b r) buckets r).
Proof.
  apply (Evolves_fold_quiet Grows processLiveBucket).
  intros. now apply processLiveBucket_evolves.
Qed.

Lemma processLiveBuckets_counted (buckets : list SourceBucket) (k : nat) (r : Run) :
  Quiet r ->
  Counted k r ->
  Counted k (fold_left (fun r b => processLiveBucket b r) buckets r).
Proof.
  revert r. induction buckets as [|b buckets IH]; intros r Hq H; [exact H|].
  simpl. apply IH; [quiet_side|]. now apply processLiveBucket_counted.
Qed.

Lemma catchFinally_Grows (c : Completion) (r : Run) :
  Evolves Grows r (catchFinally (c, r)).
Proof.
  eapply Evolves_weaken; [apply ZipStep_Grows | apply catchFinally_evolves].
Qed.

Lemma Counted_clearLogs : Counted 0 (clearLogs s0).
Proof. apply Counted_start. cbn. lia. Qed.

Lemma migrateLiveProjectBody_evolves (r : Run) :
  Quiet r -> Evolves Grows r (snd (migrateLiveProjectBody sc r)).
Proof.
  intros Hq. unfold migrateLiveProjectBody.
  destruct (liveClients sc) as [[]|msg]; [|unfold addLog; cbn [snd]; evolve].
  destruct (sourceBuckets sc) as [buckets|msg|msg];
    try (unfold addLog; quiet; cbn [snd]; evolve).
  destruct (length buckets =? 0)%nat; cbn [snd].
  - unfold addLog. quiet. evolve.
  - apply Evolves_assign; [|step].
    eapply Evolves_trans; [|apply processLiveBuckets_evolves; quiet_side].
    unfold addLog. quiet. evolve.
Qed.

Lemma migrateLiveProjectBody_counted (r : Run) :
  Quiet r -> Counted 0 r -> Counted 0 (snd (migrateLiveProjectBody sc r)).
Proof.
  intros Hq H. unfold migrateLiveProjectBody.
  destruct (liveClients sc) as [[]|msg]; [|unfold addLog; cbn [snd]; counted].
  destruct (sourceBuckets sc) as [buckets|msg|msg];
    try (unfold addLog; quiet; cbn [snd]; counted).
  destruct (length buckets =? 0)%nat; cbn [snd].
  - unfold addLog. quiet. counted.
  - apply Counted_keep; [|reflexivity..].
    apply processLiveBuckets_counted; [quiet_side|]. unfold addLog. quiet. counted.
Qed.

(** The history of a live run during which the tabs are left alone: the
    run only grows, every state is bounded and the counter never
    decreases. *)
Lemma migrateLiveProject_history :
  liveSwitches sc = [] ->
  Evolves Grows (clearLogs s0) (migrateLiveProject sc s0)
  /\ Forall Bounded (history (migrateLiveProject sc s0))
  /\ Monotone (migrateLiveProject sc s0).
Proof.
  intros Hquiet. unfold migrateLiveProject. rewrite Hquiet.
  set (r3 := assign (setCurrentOperation _) _).
  assert (H3 : Evolves Grows (clearLogs s0) r3) by (subst r3; evolve).
  assert (Q3 : Quiet r3) by reflexivity.
  assert (C3 : Counted 0 r3).
  { subst r3. do 2 (apply Counted_keep; [|reflexivity..]).
    apply Counted_clearLogs. }
  pose proof (migrateLiveProjectBody_evolves r3 Q3) as Hev.
  pose proof (migrateLiveProjectBody_counted r3 Q3 C3) as Hc.
  destruct (migrateLiveProjectBody sc r3) as [c r']. cbn [snd] in *.
  assert (Hrun : Evolves Grows (clearLogs s0) (catchFinally (c, r'))).
  { eapply Evolves_trans; [exact H3|].
    eapply Evolves_trans; [exact Hev | apply catchFinally_Grows]. }
  split; [exact Hrun|].
  split; [apply (catchFinally_counted c 0 r' Hc)|].
  apply (Evolves_Monotone (clearLogs s0)); [exact Hrun | apply Monotone_clearLogs].
Qed.

End LiveRuns.

(** C6.  While the tabs are left alone, in both modes the counter never
    exceeds the total in any state and never decreases from a state to a
    later one, and in an archive run the states split in two,
    first those in which the total and the counter are zero and no
    decompression or upload has been requested, then those in which the
    total is the one fixed when the plan was counted.  But the tab buttons
    stay enabled during a run, and a click on one of them resets the
    counters that the run is using: in the archive run of three objects
    with one click during the last upload, the counter falls from 2 to 0
    and the run ends with the counter at 1 and the total at 0. *)
Theorem tab_switch_breaks_the_progress_bound :
  (forall (sc : LiveScenario) (s0 : State),
      liveSwitches sc = [] ->
      Forall (fun s => progress s <= totalItems s)
        (history (migrateLiveProject sc s0))
      /\ Monotone (migrateLiveProject sc s0))
  /\ (forall (sc : ZipScenario) (s0 : State) (loaded : Attempt (list ZipObject)),
        uploadedZip sc = Some loaded ->
        zipSwitches sc = [] ->
        Forall (fun s => progress s <= totalItems s)
          (history (migrateFromZip sc s0))
        /\ Monotone (migrateFromZip sc s0)
        /\ exists before after total,
             history (migrateFromZip sc s0) = after ++ before
             /\ Forall (fun s => totalItems s = 0 /\ progress s = 0
                                 /\ filter isTransfer (requests s) = []) before
             /\ Forall (fun s => totalItems s = total) after)
  /\ (let run := migrateFromZip tabSwitchedDuringUpload initialState in
      progress (now run) = 1
      /\ totalItems (now run) = 0
      /\ success (now run) = "Migration completed! Uploaded 1 out of 0 files."
      /\ map (fun s => (progress s, totalItems s)) (firstn 7 (history run))
         = [(1, 0); (1, 0); (1, 0); (1, 0); (0, 0); (2, 3); (2, 3)]
      /\ ~ Forall (fun s => progress s <= totalItems s) (history run)
      /\ ~ Monotone run).
Proof.
  split; [|split].
  - intros sc s0 Hquiet. now apply migrateLiveProject_history.
  - intros sc s0 loaded Hzip Hquiet.
    destruct (migrateFromZip_history sc s0 loaded Hzip Hquiet)
      as (Hb & Hm & before & after & total & Hh & Hrest & Hfixed).
    split; [exact Hb|]. split; [exact Hm|].
    exists before, after, total. split; [exact Hh|]. split; [|exact Hfixed].
    eapply Forall_impl; [|exact Hrest].
    intros s (Ht & Hp & Hq & _). now repeat split.
  - intros run. split; [reflexivity|]. split; [reflexivity|].
    split; [reflexivity|]. split; [reflexivity|]. split.
    + intros H. apply Forall_inv in H. vm_compute in H. lia.
    + intros H. unfold Monotone in H.
      apply StronglySorted_inv in H. destruct H as [_ H].
      assert (Hin : In (nth 4 (past run) initialState) (past run))
        by (apply nth_In; vm_compute; lia).
      apply (proj1 (Forall_forall _ _) H) in Hin. vm_compute in Hin. lia.
Qed.

Lemma tab_switch_breaks_the_progress_bound_witness :
  Forall (fun s => progress s <= totalItems s)
    (history (migrateFromZip secondUploadFails initialState))
  /\ progress (now (migrateFromZip secondUploadFails initialState)) = 3
  /\ totalItems (now (migrateFromZip secondUploadFails initialState)) = 3.
Proof.
  destruct tab_switch_breaks_the_progress_bound as (_ & Hzip & _).
  destruct (Hzip secondUploadFails initialState _ eq_refl eq_refl) as (Hb & _ & _).
  split; [exact Hb | split; reflexivity].
Defined.

(* ================================================================== *)
(** ** Errors caught and errors logged *)

Section ArchiveErrors.

Variable sc : ZipScenario.

Lemma uploadFromZip_errors (b : string) (info : FileInfo) (r : Run) :
  Quiet r ->
  errors (uploadFromZip b info r)
  = errors r + (if objectFails info then 1 else 0).
Proof.
  intros Hq. unfold uploadFromZip, objectFails.
  destruct (async (file info)); [destruct (thrownBy (uploadReply (file info)))|];
    errors.
Qed.

Lemma uploadAll_errors (b : string) (files : list FileInfo) (r : Run) :
  Quiet r ->
  errors (uploadAll b files r) = errors r + length (filter objectFails files).
Proof.
  revert r. induction files as [|info files IH]; intros r Hq; simpl; [lia|].
  rewrite IH, uploadFromZip_errors by quiet_side.
  destruct (objectFails info); simpl; lia.
Qed.

Lemma processZipBucket_errors (existing : list string)
  (entry : string * list FileInfo) (r : Run) :
  Quiet r ->
  errors (processZipBucket sc existing entry r)
  = errors r + bucketFailures sc existing entry.
Proof.
  intros Hq. unfold processZipBucket, bucketFailures, bucketReady.
  destruct (existsb (String.eqb (fst entry)) existing); simpl.
  - rewrite uploadAll_errors by quiet_side. errors.
  - destruct (thrownBy (createBucket sc (fst entry))) as [msg|].
    + destruct (Js.includes "already exists" msg).
      * rewrite uploadAll_errors by quiet_side. errors.
      * errors.
    + rewrite uploadAll_errors by quiet_side. errors.
Qed.

(** The [Error] entries of an archive run during which the tabs are left
    alone. *)
Lemma migrateFromZip_errors (s0 : State) (loaded : Attempt (list ZipObject)) :
  uploadedZip sc = Some loaded ->
  zipSwitches sc = [] ->
  errors (migrateFromZip sc s0) = zipFailures sc loaded.
Proof.
  intros Hzip Hquiet.
  destruct (migrateFromZip_shape sc s0 loaded Hzip)
    as (pre & [_ Hpre]
        & [(msg & -> & _ & Hone)
          | (entries & plan & -> & Hclient & Hparsed & Hplan & ->)]);
    destruct (Hpre Hquiet) as (Q & _ & He).
  - rewrite errors_catchFinally, He, Hone. reflexivity.
  - unfold zipFailures, knownBuckets. rewrite Hclient, Hparsed.
    destruct plan as [|e plan]; [now elim Hplan|].
    unfold transferPlan. fold (planStart (e :: plan) pre).
    assert (Qstart : Quiet (planStart (e :: plan) pre))
      by (unfold planStart; quiet_side).
    assert (Hstart : errors (planStart (e :: plan) pre) = 0).
    { unfold planStart. errors. }
    assert (Hloop : forall names,
      errors (fold_left (fun r entry => processZipBucket sc names entry r)
                (objectEntries (e :: plan)) (planStart (e :: plan) pre))
      = list_sum (map (bucketFailures sc names) (objectEntries (e :: plan)))).
    { intros names.
      rewrite (measure_fold errors (processZipBucket sc names)
                 (bucketFailures sc names)).
      - rewrite Hstart. reflexivity.
      - intros. apply switches_processZipBucket.
      - apply Forall_forall. intros entry _ r. apply processZipBucket_errors.
      - exact Qstart. }
    destruct (existingBuckets sc) as [names|msg|msg];
      rewrite errors_catchFinally.
    + rewrite errors_assign by reflexivity. rewrite Hloop. lia.
    + rewrite errors_assign by reflexivity. rewrite Hloop. lia.
    + rewrite Hstart. reflexivity.
Qed.

End ArchiveErrors.

Section LiveErrors.

Variable bucket : string.

Lemma transferFile_errors (filePath mime : string) (dl ul : Reply unit) (r : Run) :
  Quiet r ->
  errors (transferFile bucket filePath mime dl ul r)
  = errors r + (if transferFails dl ul then 1 else 0).
Proof.
  intros Hq. unfold transferFile, transferFails.
  destruct (thrownBy dl); [|destruct (thrownBy ul)]; errors.
Qed.

Lemma listDirectory_errors (each : FileObject -> Run -> Run)
  (dirPath : string) (listed : Reply (list FileObject)) (r : Run) :
  (forall f r, switches (each f r) = switches r) ->
  Forall (fun f => forall r, Quiet r -> errors (each f r) = errors r + failuresOf f)
    (childrenOf listed) ->
  Quiet r ->
  errors (listDirectory each bucket dirPath listed r)
  = errors r + listingFailures listed.
Proof.
  intros Hs Heach Hq. unfold listDirectory, listingFailures.
  destruct listed as [[|f files]|msg|msg]; [simpl; errors | | errors | errors].
  rewrite (measure_fold errors each failuresOf (f :: files) Hs Heach)
    by quiet_side.
  rewrite errors_assign by reflexivity. errors.
Qed.

Lemma migrateFile_errors (f : FileObject) :
  forall dirPath r,
    Quiet r ->
    errors (migrateFile bucket dirPath f r) = errors r + failuresOf f.
Proof.
  induction f as [fname mime dl ul listed IH] using FileObject_induction.
  intros dirPath r Hq. cbn [migrateFile failuresOf].
  destruct (Js.truthy mime); [now apply transferFile_errors|].
  rewrite listDirectory_errors; [reflexivity | | | exact Hq].
  - intros. apply switches_migrateFile.
  - eapply Forall_impl; [|exact IH]. intros f Hf r'. apply Hf.
Qed.

Lemma migrateFilesFromBucket_errors (dirPath : string)
  (listed : Reply (list FileObject)) (r : Run) :
  Quiet r ->
  errors (migrateFilesFromBucket bucket dirPath listed r)
  = errors r + listingFailures listed.
Proof.
  apply listDirectory_errors.
  - intros. apply switches_migrateFile.
  - apply Forall_forall. intros f _ r'. apply migrateFile_errors.
Qed.

End LiveErrors.

Lemma processLiveBucket_errors (b : SourceBucket) (r : Run) :
  Quiet r ->
  errors (processLiveBucket b r) = errors r + listingFailures (rootListing b).
Proof.
  intros Hq. unfold processLiveBucket.
  rewrite migrateFilesFromBucket_errors.
  - destruct (createReply b) as [[]|msg|msg];
      [|destruct (negb (Js.includes "already exists" msg))|]; errors.
  - destruct (createReply b) as [[]|msg|msg];
      [|destruct (negb (Js.includes "already exists" msg))|]; quiet_side.
Qed.

(** The [Error] entries of a live run during which the tabs are left
    alone: the creations of the buckets add none. *)
Lemma migrateLiveProject_errors (sc : LiveScenario) (s0 : State) :
  liveSwitches sc = [] ->
  errors (migrateLiveProject sc s0) = liveFailures sc.
Proof.
  intros Hquiet.
  unfold migrateLiveProject, migrateLiveProjectBody, liveFailures.
  rewrite Hquiet.
  destruct (liveClients sc) as [[]|msg];
    [|rewrite errors_catchFinally; errors].
  destruct (sourceBuckets sc) as [buckets|msg|msg];
    try (rewrite errors_catchFinally; errors).
  destruct (length buckets =? 0)%nat eqn:Hlen; rewrite errors_catchFinally.
  - apply Nat.eqb_eq, length_zero_iff_nil in Hlen. subst buckets.
    simpl list_sum. errors.
  - rewrite errors_assign by reflexivity.
    rewrite (measure_fold errors processLiveBucket
               (fun b => listingFailures (rootListing b))).
    + errors.
    + intros. apply switches_processLiveBucket.
    + apply Forall_forall. intros b _ r. apply processLiveBucket_errors.
    + quiet_side.
Qed.

(* ================================================================== *)
(** ** The counters at the end of a run *)

Section Counters.

Lemma list_sum_add {X : Type} (f g : X -> nat) (l : list X) :
  list_sum (map (fun x => f x + g x) l) = list_sum (map f l) + list_sum (map g l).
Proof.
  induction l as [|x l IH]; simpl; [reflexivity|]. rewrite IH. lia.
Qed.

Lemma list_sum_ext {X : Type} (f g : X -> nat) (l : list X) :
  Forall (fun x => f x = g x) l -> list_sum (map f l) = list_sum (map g l).
Proof.
  induction 1 as [|x l Hx _ IH]; simpl; [reflexivity|]. now rewrite IH, Hx.
Qed.

Lemma list_sum_succ {X : Type} (f : X -> nat) (l : list X) :
  list_sum (map (fun x => 1 + f x) l) = length l + list_sum (map f l).
Proof.
  induction l as [|x l IH]; simpl in *; lia.
Qed.

Lemma migratedIn_folder (fname mime : string) (dl ul : Reply unit)
  (listed : Reply (list FileObject)) :
  Js.truthy mime = false ->
  migratedIn (mkFileObject fname mime dl ul listed)
  = list_sum (map migratedIn (childrenOf listed))
  /\ listedIn (mkFileObject fname mime dl ul listed)
     = length (childrenOf listed) + list_sum (map listedIn (childrenOf listed))
  /\ foldersIn (mkFileObject fname mime dl ul listed)
     = 1 + list_sum (map foldersIn (childrenOf listed))
  /\ failedIn (mkFileObject fname mime dl ul listed)
     = list_sum (map failedIn (childrenOf listed)).
Proof.
  intros H. cbn [migratedIn listedIn foldersIn failedIn]. rewrite H.
  now destruct listed.
Qed.

Variable bucket : string.

Lemma transferFile_counts (filePath mime : string) (dl ul : Reply unit) (r : Run) :
  Quiet r ->
  progress (now (transferFile bucket filePath mime dl ul r))
  = progress (now r) + (if transferFails dl ul then 0 else 1)
  /\ totalItems (now (transferFile bucket filePath mime dl ul r))
     = totalItems (now r).
Proof.
  intros Hq. unfold transferFile, transferFails, incrementProgress, addLog.
  quiet. destruct (thrownBy dl); [|destruct (thrownBy ul)]; cbn; split; lia.
Qed.

Lemma listDirectory_counts (each : FileObject -> Run -> Run)
  (dirPath : string) (listed : Reply (list FileObject)) (r : Run) :
  (forall f r, switches (each f r) = switches r) ->
  Forall (fun f => forall r, Quiet r ->
            progress (now (each f r)) = progress (now r) + migratedIn f)
    (childrenOf listed) ->
  Forall (fun f => forall r, Quiet r ->
            totalItems (now (each f r)) = totalItems (now r) + listedIn f)
    (childrenOf listed) ->
  Quiet r ->
  progress (now (listDirectory each bucket dirPath listed r))
  = progress (now r) + list_sum (map migratedIn (childrenOf listed))
  /\ totalItems (now (listDirectory each bucket dirPath listed r))
     = totalItems (now r) + length (childrenOf listed)
       + list_sum (map listedIn (childrenOf listed)).
Proof.
  intros Hs Hp Ht Hq. unfold listDirectory, addLog.
  destruct listed as [[|f files]|msg|msg]; try (quiet; cbn; split; lia).
  cbn [childrenOf] in *.
  rewrite (measure_fold (fun r => progress (now r)) each migratedIn _ Hs Hp)
    by quiet_side.
  rewrite (measure_fold (fun r => totalItems (now r)) each listedIn _ Hs Ht)
    by quiet_side.
  quiet.
  cbn [now assign progress totalItems setTotalItems setRequests].
  split; lia.
Qed.

Lemma migrateFile_counts (f : FileObject) :
  forall dirPath r,
    Quiet r ->
    progress (now (migrateFile bucket dirPath f r))
    = progress (now r) + migratedIn f
    /\ totalItems (now (migrateFile bucket dirPath f r))
       = totalItems (now r) + listedIn f.
Proof.
  induction f as [fname mime dl ul listed IH] using FileObject_induction.
  intros dirPath r Hq. cbn [migrateFile].
  destruct (Js.truthy mime) eqn:Hmime.
  - cbn [migratedIn listedIn]. rewrite Hmime.
    destruct (transferFile_counts (joinPath dirPath fname) mime dl ul r Hq)
      as [-> ->].
    split; lia.
  - destruct (migratedIn_folder fname mime dl ul listed Hmime) as (-> & -> & _).
    destruct (listDirectory_counts (migrateFile bucket (joinPath dirPath fname))
                (joinPath dirPath fname) listed r) as [-> ->].
    + intros. apply switches_migrateFile.
    + eapply Forall_impl; [|exact IH]. intros f Hf r'. apply Hf.
    + eapply Forall_impl; [|exact IH]. intros f Hf r'. apply Hf.
    + exact Hq.
    + split; lia.
Qed.

Lemma migrateFilesFromBucket_counts (dirPath : string)
  (listed : Reply (list FileObject)) (r : Run) :
  Quiet r ->
  progress (now (migrateFilesFromBucket bucket dirPath listed r))
  = progress (now r) + list_sum (map migratedIn (childrenOf listed))
  /\ totalItems (now (migrateFilesFromBucket bucket dirPath listed r))
     = totalItems (now r) + length (childrenOf listed)
       + list_sum (map listedIn (childrenOf listed)).
Proof.
  apply listDirectory_counts.
  - intros. apply switches_migrateFile.
  - apply Forall_forall; intros f _ r'; apply migrateFile_counts.
  - apply Forall_forall; intros f _ r'; apply migrateFile_counts.
Qed.

End Counters.

Lemma item_is_counted_once (f : FileObject) :
  1 + listedIn f = migratedIn f + foldersIn f + failedIn f.
Proof.
  induction f as [fname mime dl ul listed IH] using FileObject_induction.
  destruct (Js.truthy mime) eqn:Hmime.
  - cbn [migratedIn listedIn foldersIn failedIn]. rewrite Hmime.
    destruct (transferFails dl ul); reflexivity.
  - destruct (migratedIn_folder fname mime dl ul listed Hmime)
      as (-> & -> & -> & ->).
    rewrite <- list_sum_succ, (list_sum_ext _ _ _ IH), !list_sum_add. lia.
Qed.

Lemma processLiveBucket_counts (b : SourceBucket) (r : Run) :
  Quiet r ->
  progress (now (processLiveBucket b r))
  = progress (now r) + list_sum (map migratedIn (childrenOf (rootListing b)))
  /\ totalItems (now (processLiveBucket b r))
     = totalItems (now r)
       + list_sum (map (fun f => 1 + listedIn f) (childrenOf (rootListing b))).
Proof.
  intros Hq. unfold processLiveBucket. rewrite list_sum_succ.
  match goal with
  | |- context [migrateFilesFromBucket ?n ?d ?l ?r0] =>
      destruct (migrateFilesFromBucket_counts n d l r0) as [-> ->]
  end.
  - destruct (createReply b) as [[]|msg|msg];
      [|destruct (negb (Js.includes "already exists" msg))|]; quiet_side.
  - unfold addLog. quiet.
    destruct (createReply b) as [[]|msg|msg];
      [|destruct (negb (Js.includes "already exists" msg))|]; cbn; split; lia.
Qed.

Section ArchiveCounters.

Variable sc : ZipScenario.

Lemma uploadFromZip_counts (b : string) (info : FileInfo) (r : Run) :
  Quiet r ->
  progress (now (uploadFromZip b info r)) = progress (now r) + 1
  /\ totalItems (now (uploadFromZip b info r)) = totalItems (now r).
Proof.
  intros Hq. unfold uploadFromZip, incrementProgress, addLog. quiet.
  destruct (async (file info)); [destruct (thrownBy (uploadReply (file info)))|];
    cbn; split; lia.
Qed.

Lemma uploadAll_counts (b : string) (files : list FileInfo) (r : Run) :
  Quiet r ->
  progress (now (uploadAll b files r)) = progress (now r) + length files
  /\ totalItems (now (uploadAll b files r)) = totalItems (now r).
Proof.
  revert r. induction files as [|info files IH]; intros r Hq; simpl.
  - split; lia.
  - destruct (IH (uploadFromZip b info r)) as [-> ->]; [quiet_side|].
    destruct (uploadFromZip_counts b info r Hq) as [-> ->]. split; lia.
Qed.

Lemma processZipBucket_counts (existing : list string)
  (entry : string * list FileInfo) (r : Run) :
  Quiet r ->
  progress (now (processZipBucket sc existing entry r))
  = progress (now r)
    + (if bucketReady sc existing (fst entry) then length (snd entry) else 0)
  /\ totalItems (now (processZipBucket sc existing entry r)) = totalItems (now r).
Proof.
  intros Hq. unfold processZipBucket, bucketReady.
  destruct (existsb (String.eqb (fst entry)) existing); cbn [orb].
  - match goal with
    | |- context [uploadAll ?b ?l ?r0] =>
        destruct (uploadAll_counts b l r0) as [-> ->]; [quiet_side|]
    end.
    cbn. split; lia.
  - destruct (thrownBy (createBucket sc (fst entry))) as [msg|].
    + destruct (Js.includes "already exists" msg).
      * match goal with
        | |- context [uploadAll ?b ?l ?r0] =>
            destruct (uploadAll_counts b l r0) as [-> ->]; [quiet_side|]
        end.
        unfold addLog. quiet. cbn. split; lia.
      * unfold addLog. quiet. cbn. split; lia.
    + match goal with
      | |- context [uploadAll ?b ?l ?r0] =>
          destruct (uploadAll_counts b l r0) as [-> ->]; [quiet_side|]
      end.
      unfold addLog. quiet. cbn. split; lia.
Qed.

(** An archive run that reaches its plan and whose listing of the
    destination does not throw. *)
Lemma migrateFromZip_plan (s0 : State) (entries : list ZipObject)
  (plan : BucketFiles) (names : list string) :
  uploadedZip sc = Some (Returned entries) ->
  zipClient sc = Returned tt ->
  parsed entries = Returned plan ->
  plan <> [] ->
  knownBuckets sc = Some names ->
  exists pre,
    BeforePlan sc s0 pre
    /\ migrateFromZip sc s0
       = catchFinally
           (Normal,
            assign (fun s =>
              setSuccess ("Migration completed! Uploaded "
                          ++ Js.ofNat (progress s) ++ " out of "
                          ++ Js.ofNat (totalItems s) ++ " files.") s)
              (fold_left (fun r entry => processZipBucket sc names entry r)
                 (objectEntries plan) (planStart plan pre))).
Proof.
  intros Hzip Hclient Hparsed Hplan Hknown.
  destruct (migrateFromZip_shape sc s0 _ Hzip)
    as (pre & Hpre & [(msg & _ & Hout & _)
                     | (entries' & plan' & [= <-] & _ & Hparsed' & _ & ->)]).
  - exfalso. unfold zipOutcome, knownBuckets in *.
    rewrite Hclient, Hparsed in Hout.
    destruct plan; [now elim Hplan|].
    destruct (existingBuckets sc); discriminate.
  - rewrite Hparsed in Hparsed'. injection Hparsed' as <-.
    exists pre. split; [exact Hpre|].
    unfold transferPlan, planStart.
    unfold knownBuckets in Hknown.
    destruct (existingBuckets sc) as [names'|msg|msg]; [| |discriminate];
      injection Hknown as <-; reflexivity.
Qed.

(** The counters at the end of such a run, when the tabs are left alone. *)
Lemma migrateFromZip_counts (s0 : State) (entries : list ZipObject)
  (plan : BucketFiles) (names : list string) :
  uploadedZip sc = Some (Returned entries) ->
  zipClient sc = Returned tt ->
  parsed entries = Returned plan ->
  plan <> [] ->
  knownBuckets sc = Some names ->
  zipSwitches sc = [] ->
  progress (now (migrateFromZip sc s0)) = attempted sc names (objectEntries plan)
  /\ totalItems (now (migrateFromZip sc s0)) = planSize (objectEntries plan)
  /\ success (now (migrateFromZip sc s0))
     = ("Migration completed! Uploaded "
        ++ Js.ofNat (attempted sc names (objectEntries plan))
        ++ " out of " ++ Js.ofNat (planSize (objectEntries plan))
        ++ " files.")%string.
Proof.
  intros Hzip Hclient Hparsed Hplan Hknown Hquiet.
  destruct (migrateFromZip_plan s0 entries plan names Hzip Hclient Hparsed
              Hplan Hknown) as (pre & Hpre & Hrun).
  pose proof (Forall_inv (BeforePlan_AtRest sc s0 pre Hpre)) as (_ & Hp0 & _).
  destruct Hpre as [_ Hpre]. destruct (Hpre Hquiet) as (Q & _ & _).
  assert (Qstart : Quiet (planStart plan pre)) by (unfold planStart; quiet_side).
  assert (Hp : progress (now (migrateFromZip sc s0))
               = attempted sc names (objectEntries plan)).
  { rewrite Hrun. unfold catchFinally.
    cbn [fst snd now assign progress setIsProcessing setSuccess].
    rewrite (measure_fold (fun r => progress (now r)) (processZipBucket sc names)
               (fun entry => if bucketReady sc names (fst entry)
                             then length (snd entry) else 0)).
    - unfold planStart, addLog. quiet.
      cbn [now assign progress setRequests setLogs setTotalItems].
      rewrite Hp0. reflexivity.
    - intros. apply switches_processZipBucket.
    - apply Forall_forall. intros entry _ r Hr.
      now apply processZipBucket_counts.
    - exact Qstart. }
  assert (Ht : totalItems (now (migrateFromZip sc s0))
               = planSize (objectEntries plan)).
  { rewrite Hrun. unfold catchFinally.
    cbn [fst snd now assign totalItems setIsProcessing setSuccess].
    rewrite (measure_fold (fun r => totalItems (now r)) (processZipBucket sc names)
               (fun _ => 0)).
    - unfold planStart, addLog. quiet.
      cbn [now assign totalItems setRequests setLogs setTotalItems].
      rewrite countFiles_planSize.
      assert (Hz : forall l : list (string * list FileInfo),
                 list_sum (map (fun _ => 0) l) = 0)
        by (induction l; simpl; lia).
      rewrite Hz. lia.
    - intros. apply switches_processZipBucket.
    - apply Forall_forall. intros entry _ r Hr.
      destruct (processZipBucket_counts names entry r Hr) as [_ ->]. lia.
    - exact Qstart. }
  split; [exact Hp|]. split; [exact Ht|].
  rewrite <- Hp, <- Ht. rewrite Hrun. reflexivity.
Qed.

End ArchiveCounters.

Lemma Ends_Completed (s : State) :
  Ends s Completed -> isCompleted s = true /\ isFailed s = false.
Proof. now intros (Hc & Hf & _). Qed.

(** C4.  A live run whose clients and bucket listing succeed, and an
    archive run whose client, archive, parse and bucket listing succeed,
    end in the completed state with a success summary and not in the failed
    one, whatever the transfers of the objects answer, and however the tabs
    are switched meanwhile.  When no bucket creation fails, every bucket
    and every object is attempted: the requests of the live run are the
    creation and the root listing of every bucket and, for every file
    listed, its download followed, if it succeeds, by its upload; the
    requests of the archive run are, for every object of the plan, its
    decompression followed, if it succeeds, by its upload.  If the tabs
    are left alone the log has one [Error] entry for each failed listing
    or transfer, and the archive run counts every object of the plan. *)
Theorem object_failures_do_not_fail_the_run :
  (forall (sc : LiveScenario) (s0 : State) (buckets : list SourceBucket),
      liveClients sc = Returned tt ->
      sourceBuckets sc = Data buckets ->
      let final := now (migrateLiveProject sc s0) in
      isCompleted final = true
      /\ isFailed final = false
      /\ ((forall b, In b buckets -> bucketAccepted b = true) ->
          requests final
          = SrcListBuckets :: flat_map sourceBucketRequests buckets
          /\ (liveSwitches sc = [] ->
              errorCount (logs final)
              = list_sum (map (fun b => listingFailures (rootListing b))
                            buckets))))
  /\ (forall (sc : ZipScenario) (s0 : State) (entries : list ZipObject)
             (plan : BucketFiles) (names : list string),
        uploadedZip sc = Some (Returned entries) ->
        zipClient sc = Returned tt ->
        parsed entries = Returned plan ->
        plan <> [] ->
        existingBuckets sc = Data names ->
        let final := now (migrateFromZip sc s0) in
        isCompleted final = true
        /\ isFailed final = false
        /\ ((forall b, In b (objectKeys plan) -> bucketReady sc names b = true) ->
            requests final
            = ZipLoadAsync :: DstListBuckets
              :: flat_map (bucketRequests sc names) (objectEntries plan)
            /\ (forall b files info,
                  In (b, files) plan -> In info files ->
                  In (ZipAsync (name (file info))) (requests final)
                  /\ (async (file info) = Returned tt ->
                      In (DstUpload b (path info) (getMimeType (path info)))
                         (requests final)))
            /\ (zipSwitches sc = [] ->
                errorCount (logs final)
                = list_sum (map (fun entry =>
                                   length (filter objectFails (snd entry)))
                              (objectEntries plan))
                /\ progress final = countFiles plan
                /\ totalItems final = countFiles plan))).
Proof.
  split.
  - intros sc s0 buckets Hclients Hbuckets final.
    pose proof (migrateLiveProject_ends sc s0) as Hends.
    unfold liveOutcome in Hends. rewrite Hclients, Hbuckets in Hends.
    apply Ends_Completed in Hends. destruct Hends as [Hc Hf].
    split; [exact Hc|]. split; [exact Hf|]. intros _.
    subst final. rewrite migrateLiveProject_requests.
    unfold liveRequests. rewrite Hclients, Hbuckets.
    split; [reflexivity|]. intros Hquiet.
    pose proof (migrateLiveProject_errors sc s0 Hquiet) as He.
    unfold errors, liveFailures in He. now rewrite Hclients, Hbuckets in He.
  - intros sc s0 entries plan names Hzip Hclient Hparsed Hplan Hnames final.
    assert (Hknown : knownBuckets sc = Some names)
      by (unfold knownBuckets; now rewrite Hnames).
    pose proof (migrateFromZip_ends sc s0 _ Hzip) as Hends.
    unfold zipOutcome in Hends. rewrite Hclient, Hparsed, Hnames in Hends.
    destruct plan as [|e plan]; [now elim Hplan|].
    apply Ends_Completed in Hends. destruct Hends as [Hc Hf].
    split; [exact Hc|]. split; [exact Hf|]. intros Hready.
    assert (Hreq : requests final
                   = ZipLoadAsync :: DstListBuckets
                     :: flat_map (bucketRequests sc names)
                          (objectEntries (e :: plan))).
    { subst final. rewrite (migrateFromZip_requests sc s0 _ Hzip).
      unfold zipRequests. now rewrite Hclient, Hparsed, Hknown. }
    assert (Hentry : forall entry, In entry (objectEntries (e :: plan)) ->
                                   bucketReady sc names (fst entry) = true).
    { intros entry Hin. apply Hready. unfold objectKeys.
      apply in_map_iff. now exists entry. }
    split; [exact Hreq|]. split.
    + intros b files info Hb Hinfo. rewrite Hreq.
      assert (Hin : forall q, In q (objectRequests b info) ->
                In q (ZipLoadAsync :: DstListBuckets
                      :: flat_map (bucketRequests sc names)
                           (objectEntries (e :: plan)))).
      { intros q Hq. right. right. apply in_flat_map. exists (b, files).
        split; [now apply objectEntries_In|].
        unfold bucketRequests. apply in_or_app. right.
        rewrite (Hentry (b, files)) by now apply objectEntries_In.
        apply in_flat_map. now exists info. }
      split.
      * apply Hin. now left.
      * intros Ha. apply Hin. unfold objectRequests. rewrite Ha.
        right. now left.
    + intros Hquiet.
      pose proof (migrateFromZip_errors sc s0 _ Hzip Hquiet) as He.
      unfold errors, zipFailures in He. rewrite Hclient, Hparsed, Hknown in He.
      destruct (migrateFromZip_counts sc s0 entries (e :: plan) names Hzip
                  Hclient Hparsed Hplan Hknown Hquiet) as (Hp & Ht & _).
      subst final. rewrite He, Hp, Ht, countFiles_planSize.
      split; [|split; [|reflexivity]].
      * apply list_sum_ext, Forall_forall. intros entry Hin.
        unfold bucketFailures. now rewrite (Hentry entry Hin).
      * unfold attempted, planSize. apply list_sum_ext, Forall_forall.
        intros entry Hin. now rewrite (Hentry entry Hin).
Qed.

Lemma object_failures_do_not_fail_the_run_witness :
  (isCompleted (now (migrateLiveProject secondTransferFails initialState)) = true
   /\ requests (now (migrateLiveProject secondTransferFails initialState))
      = [ SrcListBuckets; DstCreateBucket "photos" false; SrcList "photos" "";
          SrcDownload "photos" "a.png";
          DstUpload "photos" "a.png" (Str "image/png");
          SrcDownload "photos" "b.png";
          DstUpload "photos" "b.png" (Str "image/png");
          SrcDownload "photos" "c.png";
          DstUpload "photos" "c.png" (Str "image/png") ]
   /\ errorCount (logs (now (migrateLiveProject secondTransferFails initialState)))
      = 1)
  /\ isCompleted (now (migrateFromZip secondUploadFails initialState)) = true
  /\ In (DstUpload "photos" "c.png" (Str "image/png"))
        (requests (now (migrateFromZip secondUploadFails initialState)))
  /\ errorCount (logs (now (migrateFromZip secondUploadFails initialState))) = 1
  /\ progress (now (migrateFromZip secondUploadFails initialState)) = 3.
Proof.
  destruct object_failures_do_not_fail_the_run as [Hlive Hzip].
  split.
  - destruct (Hlive secondTransferFails initialState _ eq_refl eq_refl)
      as (Hc & _ & Hall).
    destruct Hall as [Hreq Herr]; [intros b [<-|[]]; reflexivity|].
    split; [exact Hc|]. split; [exact Hreq | exact (Herr eq_refl)].
  - destruct (Hzip secondUploadFails initialState _ _ [] eq_refl eq_refl
                eq_refl) as (Hc & _ & Hall); [discriminate | reflexivity |].
    destruct Hall as (_ & Hobj & Hcount); [intros b [<-|[]]; reflexivity|].
    destruct (Hcount eq_refl) as (He & Hp & _).
    split; [exact Hc|]. split; [|split; [exact He | exact Hp]].
    apply (Hobj "photos"
             [ {| path := "a.png";
                  file := fileEntry "photos/a.png" (Returned tt) (Data tt) |};
               {| path := "b.png";
                  file := fileEntry "photos/b.png" (Returned tt)
                            (ErrorResult "Payload too large") |};
               {| path := "c.png";
                  file := fileEntry "photos/c.png" (Returned tt) (Data tt) |} ]
             {| path := "c.png";
                file := fileEntry "photos/c.png" (Returned tt) (Data tt) |});
      [left; reflexivity | right; right; left; reflexivity | reflexivity].
Defined.

(** C9 on the code.  In a live run the [catch] block of the bucket creation
    logs what it catches as information.  The destination refuses the only
    bucket for a reason other than "already exists": the creation is
    requested, the error is caught, the log says that the bucket already
    exists, and it has no [Error] entry.  The archive run, whose [catch]
    block logs the message as an error, has one for the same answer.
    Whatever the scenario, the [Error] entries of a live run during which
    the tabs are left alone are those of its listings and transfers: no
    answer to a bucket creation adds one.  The preview of an archive that
    cannot be read answers with no bucket, and the form logs a warning. *)
Theorem caught_creation_error_is_logged_as_information :
  (let live := now (migrateLiveProject creationDenied initialState) in
   requests live
   = [ SrcListBuckets; DstCreateBucket "photos" false; SrcList "photos" "";
       SrcDownload "photos" "a.png";
       DstUpload "photos" "a.png" (Str "image/png") ]
   /\ In {| message := "Bucket photos already exists, continuing...";
            type := Info |} (logs live)
   /\ errorCount (logs live) = 0
   /\ isCompleted live = true)
  /\ (let zip := now (migrateFromZip creationDeniedZip initialState) in
      In {| message := crossMark ++ " Failed to create bucket photos: "
                       ++ "new row violates row-level security policy";
            type := Error |} (logs zip)
      /\ errorCount (logs zip) = 1)
  /\ (forall (sc : LiveScenario) (s0 : State),
        liveSwitches sc = [] ->
        errorCount (logs (now (migrateLiveProject sc s0))) = liveFailures sc)
  /\ (forall msg, detectBucketsInZip (Raised msg) = [])
  /\ (let file := {| Form.name := "backup.zip"; Form.sizeText := "1.00";
                     Form.contents :=
                       Raised "Corrupted zip: can't find end of central directory" |} in
      let page := {| Form.view := initialState; Form.uploadedZip := None;
                     Form.detectedBuckets := []; Form.activeTab := Form.Zip |} in
      map type (logs (Form.view (Form.handleZipUpload (Some file) page)))
      = [Info; Warning]).
Proof.
  split; [|split; [|split; [|split]]].
  - repeat split; cbn; tauto.
  - repeat split; cbn; tauto.
  - intros sc s0 Hquiet. apply (migrateLiveProject_errors sc s0 Hquiet).
  - reflexivity.
  - reflexivity.
Qed.

Lemma caught_creation_error_is_logged_as_information_witness :
  errorCount (logs (now (migrateLiveProject secondTransferFails initialState)))
  = 1.
Proof.
  destruct caught_creation_error_is_logged_as_information
    as (_ & _ & Hlive & _).
  exact (Hlive secondTransferFails initialState eq_refl).
Defined.

(** C1 on the code.  In a live run the failed transfer of the second of
    three files is logged as an error and the run completes, but the
    counter ends at 2 of 3: the [catch] block of the transfer does not
    increment it.  The archive run with the same failure counts 3 of 3. *)
Theorem live_failed_transfer_is_not_counted :
  isCompleted (now (migrateLiveProject secondTransferFails initialState)) = true
  /\ In {| message := crossMark ++ " Failed: b.png - Payload too large";
           type := Error |}
        (logs (now (migrateLiveProject secondTransferFails initialState)))
  /\ totalItems (now (migrateLiveProject secondTransferFails initialState)) = 3
  /\ progress (now (migrateLiveProject secondTransferFails initialState)) = 2
  /\ In {| message := crossMark ++ " Failed: photos/b.png - Payload too large";
           type := Error |}
        (logs (now (migrateFromZip secondUploadFails initialState)))
  /\ totalItems (now (migrateFromZip secondUploadFails initialState)) = 3
  /\ progress (now (migrateFromZip secondUploadFails initialState)) = 3.
Proof.
  repeat split; cbn; tauto.
Qed.

(** C3 on the code.  When the creation of a bucket fails for a reason
    other than "already exists", the live run logs that the bucket already
    exists, as information, logs no error, and transfers the objects of the
    bucket.  The archive run logs the error and skips the objects. *)
Theorem live_bucket_creation_failure_is_not_isolated :
  In {| message := "Bucket photos already exists, continuing..."; type := Info |}
     (logs (now (migrateLiveProject creationDenied initialState)))
  /\ errorCount (logs (now (migrateLiveProject creationDenied initialState))) = 0
  /\ In (DstUpload "photos" "a.png" (Str "image/png"))
        (requests (now (migrateLiveProject creationDenied initialState)))
  /\ errorCount (logs (now (migrateFromZip creationDeniedZip initialState))) = 1
  /\ filter isTransfer
       (requests (now (migrateFromZip creationDeniedZip initialState))) = [].
Proof.
  repeat split; cbn; tauto.
Qed.

(* ================================================================== *)
(** * Further properties *)

(** ** The table of content types *)

Section MimeTable.

Lemma lowerChar_slash (c : ascii) :
  Ascii.eqb (Js.lowerChar c) "/" = Ascii.eqb c "/".
Proof. destruct c as [[] [] [] [] [] [] [] []]; reflexivity. Qed.

Lemma includes_char_toLowerCase (d : ascii) (s : string) :
  (forall c, Ascii.eqb (Js.lowerChar c) d = Ascii.eqb c d) ->
  Js.includes (String d "") (Js.toLowerCase s) = Js.includes (String d "") s.
Proof.
  intros Hd. induction s as [|c s IH]; [reflexivity|].
  cbn [Js.toLowerCase Js.includes Js.startsWith].
  rewrite IH, (Ascii.eqb_sym d (Js.lowerChar c)), Hd, (Ascii.eqb_sym c d).
  reflexivity.
Qed.

Lemma lookup_NoDup {A : Type} (key : string) (v : A) (obj : list (string * A)) :
  NoDup (map fst obj) -> In (key, v) obj -> lookup key obj = Some v.
Proof.
  induction obj as [|[k w] obj IH]; simpl; [intros _ []|].
  intros Hnd [[= -> ->]|Hin]; [now rewrite String.eqb_refl|].
  apply NoDup_cons_iff in Hnd as [Hk Hnd].
  destruct (k =? key) eqn:E; [|now apply IH].
  apply String.eqb_eq in E. subst k. elim Hk.
  apply in_map_iff. now exists (key, v).
Qed.

Lemma mimeTypes_NoDup : NoDup (map fst mimeTypes).
Proof.
  rewrite <- (eq_refl : nodup string_dec (map fst mimeTypes) = map fst mimeTypes).
  apply NoDup_nodup.
Qed.

(** No key of the table has a dot or a slash, and no value is empty. *)
Lemma mimeTypes_entries :
  Forall (fun kv => Js.includes "." (fst kv) = false
                    /\ Js.includes "/" (fst kv) = false
                    /\ Js.truthy (snd kv) = true) mimeTypes.
Proof. repeat constructor. Qed.

End MimeTable.

(** X1.  Every extension of the table resolves to the type listed for it,
    whatever the base name before the last dot and whatever the letter case
    of the extension. *)
Theorem listed_extensions_resolve :
  forall (k v base ext : string),
    In (k, v) mimeTypes ->
    Js.toLowerCase ext = k ->
    getMimeType (base ++ "." ++ ext) = Str v.
Proof.
  intros k v base ext Hin Hext.
  destruct (proj1 (Forall_forall _ _) mimeTypes_entries (k, v) Hin)
    as (Hdot & _ & Hv). cbn [fst snd] in *.
  assert (Hnodot : Js.includes "." ext = false).
  { rewrite <- (includes_char_toLowerCase "." ext lowerChar_dot), Hext.
    exact Hdot. }
  unfold getMimeType, extension.
  rewrite pop_split_append, (split_without_dot _ Hnodot). cbn [Js.pop].
  rewrite Hext, get_lookup, (lookup_NoDup k v mimeTypes mimeTypes_NoDup Hin), Hv.
  reflexivity.
Qed.

Lemma listed_extensions_resolve_witness :
  getMimeType ("holiday.2024" ++ "." ++ "JpEg") = Str "image/jpeg".
Proof.
  apply (listed_extensions_resolve "jpeg" "image/jpeg" "holiday.2024" "JpEg").
  - simpl. tauto.
  - reflexivity.
Defined.

(** X2.  When the text after the last dot of a path contains a slash (the
    dot belongs to a directory name and the file has no extension), or the
    path has no dot but has a slash, the type is the default one. *)
Theorem dotted_directory_gets_default_type :
  (forall base rest : string,
      Js.includes "." rest = false ->
      Js.includes "/" rest = true ->
      getMimeType (base ++ "." ++ rest) = Str "application/octet-stream")
  /\ (forall p : string,
        Js.includes "." p = false ->
        Js.includes "/" p = true ->
        getMimeType p = Str "application/octet-stream").
Proof.
  assert (G : forall e, Js.includes "/" e = true ->
                        get (Js.toLowerCase e) mimeTypes = Undefined).
  { intros e He. rewrite get_lookup.
    destruct (lookup (Js.toLowerCase e) mimeTypes) as [v|] eqn:E.
    - pose proof (lookup_In _ _ _ E) as Hin.
      destruct (proj1 (Forall_forall _ _) mimeTypes_entries _ Hin)
        as (_ & Hslash & _). cbn [fst] in Hslash.
      rewrite (includes_char_toLowerCase "/" e lowerChar_slash) in Hslash.
      congruence.
    - rewrite <- (includes_char_toLowerCase "/" e lowerChar_slash) in He.
      destruct (inherited (Js.toLowerCase e)) eqn:Hi; [|reflexivity].
      exfalso. unfold inherited, objectPrototype in Hi. cbn [existsb] in Hi.
      repeat (apply orb_prop in Hi; destruct Hi as [Hi|Hi];
              [apply String.eqb_eq in Hi; rewrite Hi in He; discriminate He|]).
      discriminate Hi. }
  split.
  - intros base rest Hdot Hslash. unfold getMimeType, extension.
    rewrite pop_split_append, (split_without_dot _ Hdot). cbn [Js.pop].
    now rewrite (G rest Hslash).
  - intros p Hdot Hslash. unfold getMimeType, extension.
    rewrite (split_without_dot _ Hdot). cbn [Js.pop].
    now rewrite (G p Hslash).
Qed.

Lemma dotted_directory_gets_default_type_witness :
  getMimeType ("backup" ++ "." ++ "old/pdf") = Str "application/octet-stream"
  /\ getMimeType "photos/pdf" = Str "application/octet-stream".
Proof.
  destruct dotted_directory_gets_default_type as [Hdir Hnodot].
  split; [apply Hdir | apply Hnodot]; reflexivity.
Defined.


(** ** The inferred plan *)

Section PlanFacts.

Lemma insertIndexed_Permutation {A : Type} (i : N) (e : string * A)
  (l : list (N * (string * A))) :
  Permutation (insertIndexed i e l) ((i, e) :: l).
Proof.
  induction l as [|[j e'] l IH]; simpl; [reflexivity|].
  destruct (i <? j)%N; [reflexivity|].
  rewrite IH. apply perm_swap.
Qed.

(** [Object.entries] enumerates each member of the object once. *)
Lemma objectEntries_Permutation {A : Type} (o : list (string * A)) :
  Permutation (objectEntries o) o.
Proof.
  unfold objectEntries, namedEntries.
  induction o as [|e o IH]; simpl; [reflexivity|].
  destruct (arrayIndex (fst e)) as [i|].
  - rewrite (Permutation_map snd (insertIndexed_Permutation i e _)). simpl.
    now apply perm_skip.
  - rewrite <- Permutation_middle. now apply perm_skip.
Qed.

Lemma planSize_Permutation (l l' : list (string * list FileInfo)) :
  Permutation l l' -> planSize l = planSize l'.
Proof.
  unfold planSize. induction 1; simpl; lia.
Qed.

Lemma planSize_pushOwn (b : string) (info : FileInfo) (o : BucketFiles) :
  planSize (pushOwn b info o) = S (planSize o).
Proof.
  unfold planSize. induction o as [|[k infos] o IH]; simpl; [reflexivity|].
  destruct (k =? b); simpl; [rewrite length_app; simpl; lia | rewrite IH; lia].
Qed.

Lemma planSize_group (cut : ZipObject -> option (string * FileInfo))
  (l : list ZipObject) (acc : BucketFiles) :
  planSize (group cut l acc)
  = planSize acc
    + length (filter (fun f => match cut f with Some _ => true | None => false end) l).
Proof.
  revert acc. induction l as [|f l IH]; intros acc; [simpl; lia|].
  change (group cut (f :: l) acc)
    with (group cut l match cut f with
                      | Some (b, info) => pushOwn b info acc
                      | None => acc
                      end).
  rewrite IH. simpl. destruct (cut f) as [[b info]|]; [|reflexivity].
  rewrite planSize_pushOwn. simpl. lia.
Qed.

Lemma pushOwn_In (b : string) (i : FileInfo) (o : BucketFiles)
  (b' : string) (files : list FileInfo) (info : FileInfo) :
  In (b', files) (pushOwn b i o) -> In info files ->
  (b' = b /\ info = i) \/ exists files0, In (b', files0) o /\ In info files0.
Proof.
  induction o as [|[k infos] o IH]; simpl.
  - intros [[= <- <-]|[]] [<-|[]]. now left.
  - destruct (k =? b) eqn:E; simpl.
    + apply String.eqb_eq in E. subst k.
      intros [[= <- <-]|Hin] Hinfo.
      * apply in_app_or in Hinfo as [Hinfo|[<-|[]]]; [|now left].
        right. exists infos. split; [now left | exact Hinfo].
      * right. exists files. split; [now right | exact Hinfo].
    + intros [[= <- <-]|Hin] Hinfo.
      * right. exists infos. split; [now left | exact Hinfo].
      * destruct (IH Hin Hinfo) as [H|(files0 & H0 & H1)]; [now left|].
        right. exists files0. split; [now right | exact H1].
Qed.

(** Every object of a grouping was cut from an entry. *)
Lemma group_In (cut : ZipObject -> option (string * FileInfo))
  (l : list ZipObject) (acc : BucketFiles)
  (b : string) (files : list FileInfo) (info : FileInfo) :
  In (b, files) (group cut l acc) -> In info files ->
  (exists files0, In (b, files0) acc /\ In info files0)
  \/ exists f, In f l /\ cut f = Some (b, info).
Proof.
  revert acc. induction l as [|f l IH]; intros acc Hin Hinfo.
  - left. now exists files.
  - change (group cut (f :: l) acc)
      with (group cut l match cut f with
                        | Some (b, info) => pushOwn b info acc
                        | None => acc
                        end) in Hin.
    destruct (IH _ Hin Hinfo) as [(files0 & H0 & H1)|(g & Hg & Hcut)].
    + destruct (cut f) as [[b0 i0]|] eqn:E.
      * destruct (pushOwn_In _ _ _ _ _ _ H0 H1) as [[-> ->]|H].
        -- right. exists f. split; [now left | exact E].
        -- now left.
      * left. now exists files0.
    + right. exists g. split; [now right | exact Hcut].
Qed.

(** Every object of the plan comes from a non-directory entry to which the
    rule gives this bucket and this path. *)
Lemma infer_In (entries : list ZipObject) (b : string) (files : list FileInfo)
  (info : FileInfo) :
  In (b, files) (infer entries) -> In info files ->
  In (file info) entries
  /\ dir (file info) = false
  /\ layoutOf (stripsRoot entries) (pathParts (name (file info)))
     = Some (b, path info).
Proof.
  rewrite infer_group. intros Hin Hinfo.
  destruct (group_In _ _ _ _ _ _ Hin Hinfo) as [(files0 & [] & _)|(f & Hf & Hcut)].
  unfold cutEntry in Hcut. destruct (dir f) eqn:Hd; [discriminate|].
  destruct (layoutOf (stripsRoot entries) (pathParts (name f))) as [[b0 rel]|] eqn:E;
    [|discriminate].
  injection Hcut as <- <-. cbn [file path]. now repeat split.
Qed.

Lemma placed_cutEntry (entries : list ZipObject) (f : ZipObject) :
  match cutEntry (layoutOf (stripsRoot entries)) f with
  | Some _ => true
  | None => false
  end = placed entries f.
Proof.
  unfold cutEntry, placed. destruct (dir f); [reflexivity|]. simpl.
  now destruct (layoutOf (stripsRoot entries) (pathParts (name f))) as [[b rel]|].
Qed.

End PlanFacts.

(** X3.  When [parseZipStructure] returns a plan, the number of its
    objects, which the run takes as its total, is the number of
    non-directory entries of the archive that the rule places in a bucket:
    no entry is lost and none is counted twice. *)
Theorem plan_counts_placed_entries :
  forall (entries : list ZipObject) (plan : BucketFiles),
    parsed entries = Returned plan ->
    countFiles plan = length (filter (placed entries) entries)
    /\ countFiles plan <= length (filter (fun f => negb (dir f)) entries).
Proof.
  intros entries plan Hparsed.
  apply parsed_Returned in Hparsed. destruct Hparsed as [-> _].
  assert (H : countFiles (infer entries) = length (filter (placed entries) entries)).
  { rewrite countFiles_planSize,
      (planSize_Permutation _ _ (objectEntries_Permutation (infer entries))),
      infer_group, planSize_group.
    unfold planSize. simpl. f_equal. apply filter_ext.
    intros f. apply placed_cutEntry. }
  split; [exact H|]. rewrite H. clear H.
  assert (G : forall l,
    length (filter (placed entries) l)
    <= length (filter (fun f => negb (dir f)) l)); [|apply G].
  induction l as [|f l IH]; simpl; [lia|].
  unfold placed at 1. destruct (dir f); simpl; [exact IH|].
  destruct (layoutOf (stripsRoot entries) (pathParts (name f))); simpl; lia.
Qed.

Lemma plan_counts_placed_entries_witness :
  countFiles [("photos", [{| path := "a.png";
                             file := fileEntry "photos/a.png" (Returned tt)
                                       (Data tt) |}])]
  = 1.
Proof.
  apply (plan_counts_placed_entries
           [fileEntry "photos/a.png" (Returned tt) (Data tt);
            fileEntry "readme.txt" (Returned tt) (Data tt)]).
  reflexivity.
Defined.


Section PathRoundTrip.

Lemma app_string_assoc (a b c : string) : ((a ++ b) ++ c = a ++ (b ++ c))%string.
Proof. induction a as [|x a IH]; simpl; [reflexivity | now rewrite IH]. Qed.

(** Joining the pieces of a split gives the string back. *)
Lemma join_split (p : string) : Js.join "/" (Js.split "/" p) = p.
Proof.
  induction p as [|c p IH]; [reflexivity|].
  cbn [Js.split]. destruct (Ascii.eqb c "/") eqn:E.
  - apply Ascii.eqb_eq in E. subst c.
    destruct (Js.split "/" p) as [|h t] eqn:Es;
      [now destruct (split_nonempty _ _ Es)|].
    change (Js.join "/" (EmptyString :: h :: t))
      with ("" ++ "/" ++ Js.join "/" (h :: t))%string.
    now rewrite IH.
  - destruct (Js.split "/" p) as [|h [|q t]] eqn:Es;
      [now destruct (split_nonempty _ _ Es) | |].
    + simpl in *. now rewrite IH.
    + change (Js.join "/" (String c h :: q :: t))
        with (String c (h ++ "/" ++ Js.join "/" (q :: t)))%string.
      change (Js.join "/" (h :: q :: t))
        with (h ++ "/" ++ Js.join "/" (q :: t))%string in IH.
      now rewrite IH.
Qed.

Lemma layoutOf_join (strip : bool) (parts : list string) (b rel : string) :
  layoutOf strip parts = Some (b, rel) ->
  Js.join "/" parts
  = ((if strip then nth 0 parts "" ++ "/" else "") ++ b ++ "/" ++ rel)%string.
Proof.
  unfold layoutOf. destruct strip.
  - destruct parts as [|p0 [|p1 [|p2 rest]]]; try discriminate.
    intros [= <- <-]. cbn [nth skipn Js.join].
    now rewrite app_string_assoc.
  - destruct parts as [|p0 [|p1 rest]]; try discriminate.
    intros [= <- <-]. reflexivity.
Qed.

End PathRoundTrip.

(** X4.  The bucket and the relative path of an object of the plan, the
    mapping of the rule or one that [parseZipStructure] returns, recompose
    to the name of its archive entry, after the wrapping root when there is
    one, with the empty segments of the name removed; for a name without
    empty segments they recompose to the name itself. *)
Theorem bucket_and_path_recompose :
  forall (entries : list ZipObject) (plan : BucketFiles) (b : string)
         (files : list FileInfo) (info : FileInfo),
    plan = infer entries \/ parsed entries = Returned plan ->
    In (b, files) plan ->
    In info files ->
    let prefix := match wrappingRoot entries with
                  | Some root => (root ++ "/")%string
                  | None => EmptyString
                  end in
    Js.join "/" (pathParts (name (file info)))
    = (prefix ++ b ++ "/" ++ path info)%string
    /\ (cleanName (name (file info)) ->
        name (file info) = (prefix ++ b ++ "/" ++ path info)%string).
Proof.
  intros entries plan b files info Hplan Hin Hinfo prefix.
  assert (E : plan = infer entries)
    by (destruct Hplan as [E|E]; [exact E | now apply parsed_Returned in E]).
  subst plan.
  destruct (infer_In entries b files info Hin Hinfo) as (Hf & Hd & Hlay).
  assert (H : Js.join "/" (pathParts (name (file info)))
              = (prefix ++ b ++ "/" ++ path info)%string).
  { rewrite (layoutOf_join _ _ _ _ Hlay). subst prefix. unfold stripsRoot in *.
    destruct (wrappingRoot entries) as [root|] eqn:E; [|reflexivity].
    destruct (wrappingRoot_first _ _ E) as [_ Hfirst].
    destruct (pathParts (name (file info))) as [|part0 rest] eqn:Hp;
      [discriminate Hlay|].
    now rewrite (Hfirst _ part0 rest Hf Hd Hp). }
  split; [exact H|].
  intros Hclean. unfold cleanName in Hclean.
  rewrite Hclean, join_split in H. exact H.
Qed.

Lemma bucket_and_path_recompose_witness :
  name (fileEntry "proj123456789012345678/photos/2024/a.png" (Returned tt) (Data tt))
  = ("proj123456789012345678/" ++ "photos" ++ "/" ++ "2024/a.png")%string.
Proof.
  apply (bucket_and_path_recompose
           [fileEntry "proj123456789012345678/photos/2024/a.png" (Returned tt) (Data tt)]
           [("photos",
             [{| path := "2024/a.png";
                 file := fileEntry "proj123456789012345678/photos/2024/a.png"
                           (Returned tt) (Data tt) |}])]
           "photos"
           [{| path := "2024/a.png";
               file := fileEntry "proj123456789012345678/photos/2024/a.png"
                         (Returned tt) (Data tt) |}]
           {| path := "2024/a.png";
              file := fileEntry "proj123456789012345678/photos/2024/a.png"
                        (Returned tt) (Data tt) |}).
  - right. reflexivity.
  - left. reflexivity.
  - left. reflexivity.
  - reflexivity.
Defined.

Section Wrapping.

Variable root : string.
Hypothesis root_id : looksLikeProjectId root = true.

Lemma isLowerAlnum_not_slash (c : ascii) :
  isLowerAlnum c = true -> Ascii.eqb c "/" = false.
Proof.
  destruct c as [[] [] [] [] [] [] [] []]; vm_compute; intros H;
    first [reflexivity | discriminate H].
Qed.

Lemma split_after (r p : string) :
  forallb isLowerAlnum (list_ascii_of_string r) = true ->
  Js.split "/" (r ++ "/" ++ p) = r :: Js.split "/" p.
Proof.
  induction r as [|c r IH]; intros H; [reflexivity|].
  simpl in H. apply andb_prop in H as [Hc Hr].
  change (String c r ++ "/" ++ p)%string with (String c (r ++ "/" ++ p))%string.
  cbn [Js.split]. rewrite (isLowerAlnum_not_slash c Hc), (IH Hr).
  reflexivity.
Qed.

Lemma pathParts_wrap (p : string) :
  pathParts (root ++ "/" ++ p) = root :: pathParts p.
Proof.
  unfold pathParts. unfold looksLikeProjectId in root_id.
  apply andb_prop in root_id as [Hlen Hchars].
  rewrite (split_after root p Hchars). simpl.
  destruct root; [discriminate Hlen | reflexivity].
Qed.

Lemma firstSegments_wrap (entries : list ZipObject) :
  Forall (eq root) (firstSegments (map (wrapEntry root) entries)).
Proof.
  unfold firstSegments. induction entries as [|f entries IH];
    cbn [map flat_map]; [constructor|].
  apply Forall_app. split; [|exact IH].
  cbn [dir name wrapEntry]. destruct (dir f); [constructor|].
  rewrite pathParts_wrap. cbn [firstn]. now repeat constructor.
Qed.

Lemma stripsRoot_wrap (entries : list ZipObject) (f : ZipObject) :
  In f entries -> dir f = false ->
  stripsRoot (map (wrapEntry root) entries) = true.
Proof.
  intros Hin Hd. unfold stripsRoot, wrappingRoot.
  pose proof (firstSegments_wrap entries) as Hall.
  assert (Hne : In root (firstSegments (map (wrapEntry root) entries))).
  { unfold firstSegments. apply in_flat_map. exists (wrapEntry root f).
    split; [now apply in_map|]. cbn [dir name wrapEntry].
    rewrite Hd, pathParts_wrap. now left. }
  destruct (firstSegments (map (wrapEntry root) entries)) as [|s others];
    [destruct Hne|].
  apply Forall_cons_iff in Hall as [<- Hothers].
  assert (Hsame : forallb (String.eqb root) others = true).
  { apply forallb_forall. intros x Hx. apply String.eqb_eq.
    exact (proj1 (Forall_forall _ _) Hothers x Hx). }
  now rewrite Hsame, root_id.
Qed.

Lemma layoutOf_wrap (parts : list string) :
  layoutOf true (root :: parts) = layoutOf false parts.
Proof.
  unfold layoutOf. destruct parts as [|p0 [|p1 rest]]; reflexivity.
Qed.

Lemma layout_pushOwn (b : string) (i i' : FileInfo) (o o' : BucketFiles) :
  layout o = layout o' -> path i = path i' ->
  layout (pushOwn b i o) = layout (pushOwn b i' o').
Proof.
  intros Ho Hi. revert o' Ho.
  induction o as [|[k infos] o IH]; intros [|[k' infos'] o'] Ho;
    try discriminate Ho; simpl.
  - now rewrite Hi.
  - unfold layout in Ho. simpl in Ho. injection Ho as <- Hinfos Ho.
    destruct (k =? b); unfold layout; simpl.
    + rewrite !map_app, Hinfos. simpl. now rewrite Hi, Ho.
    + rewrite Hinfos. f_equal. now apply IH.
Qed.

End Wrapping.

(** X5.  Putting a whole archive into a folder with the shape of a project
    identifier does not change the buckets and relative paths inferred from
    it, provided the archive has no such wrapping folder already: the
    mapping of the rule has the same layout, and [parseZipStructure]
    returns a mapping of the same layout, or throws on both archives. *)
Theorem wrapping_root_is_transparent :
  forall (root : string) (entries : list ZipObject),
    looksLikeProjectId root = true ->
    stripsRoot entries = false ->
    layout (infer (map (wrapEntry root) entries)) = layout (infer entries)
    /\ forall r r',
         option_map layout
           (returned (fst (parseZipStructure (map (wrapEntry root) entries) r)))
         = option_map layout (returned (fst (parseZipStructure entries r'))).
Proof.
  intros root entries Hroot Hstrip.
  assert (Hlayout : layout (infer (map (wrapEntry root) entries))
                    = layout (infer entries));
    [|split; [exact Hlayout|]; intros r r';
      change (option_map layout (returned (parsed (map (wrapEntry root) entries)))
              = option_map layout (returned (parsed entries)));
      rewrite !parsed_infer,
        (plainKeys_layout _ _ Hlayout);
      destruct (plainKeys (infer entries)); cbn [returned option_map];
      [now rewrite Hlayout | reflexivity]].
  rewrite !infer_group, Hstrip.
  assert (G : forall l acc acc',
    (forall f, In f l -> In f entries) ->
    layout acc = layout acc' ->
    layout (group (cutEntry (layoutOf (stripsRoot (map (wrapEntry root) entries))))
              (map (wrapEntry root) l) acc)
    = layout (group (cutEntry (layoutOf false)) l acc')).
  { induction l as [|f l IH]; intros acc acc' Hsub Hacc; [exact Hacc|].
    cbn [map].
    change (group ?c (?x :: ?t) ?a)
      with (group c t match c x with
                      | Some (b, info) => pushOwn b info a
                      | None => a
                      end).
    apply IH; [intros g Hg; apply Hsub; now right|].
    unfold cutEntry. cbn [dir name wrapEntry].
    destruct (dir f) eqn:Hd; [exact Hacc|].
    rewrite (stripsRoot_wrap root Hroot entries f (Hsub f (or_introl eq_refl)) Hd),
      (pathParts_wrap root Hroot), layoutOf_wrap.
    destruct (layoutOf false (pathParts (name f))) as [[b rel]|]; [|exact Hacc].
    now apply layout_pushOwn. }
  apply G; auto.
Qed.

Lemma wrapping_root_is_transparent_witness :
  layout (infer (map (wrapEntry "proj123456789012345678")
                   [fileEntry "photos/a.png" (Returned tt) (Data tt);
                    fileEntry "docs/b.pdf" (Returned tt) (Data tt)]))
  = layout (infer [fileEntry "photos/a.png" (Returned tt) (Data tt);
                   fileEntry "docs/b.pdf" (Returned tt) (Data tt)]).
Proof.
  apply (wrapping_root_is_transparent "proj123456789012345678"); reflexivity.
Defined.


(** ** The preview of the buckets *)

Section Preview.

Lemma setAdd_In (x y : string) (set : list string) :
  In y (setAdd x set) <-> y = x \/ In y set.
Proof.
  unfold setAdd. destruct (existsb (String.eqb x) set) eqn:E.
  - split; [now right|]. intros [->|H]; [|exact H].
    apply existsb_exists in E as (z & Hz & Hxz).
    apply String.eqb_eq in Hxz. now subst z.
  - rewrite in_app_iff. simpl. intuition congruence.
Qed.

Lemma candidates_NoDup (entries : list ZipObject) (set : list string) :
  NoDup set -> NoDup (candidates entries set).
Proof.
  revert set. induction entries as [|f entries IH]; intros set H; [exact H|].
  cbn [candidates fold_left]. apply IH.
  destruct ((2 <=? length (pathParts (name f)))%nat && negb (dir f)); [|exact H].
  destruct (3 <=? length (pathParts (name f)))%nat;
    repeat apply setAdd_NoDup; exact H.
Qed.

Lemma candidates_keep (entries : list ZipObject) (set : list string) (b : string) :
  In b set -> In b (candidates entries set).
Proof.
  revert set. induction entries as [|f entries IH]; intros set H; [exact H|].
  cbn [candidates fold_left]. apply IH.
  destruct ((2 <=? length (pathParts (name f)))%nat && negb (dir f)); [|exact H].
  destruct (3 <=? length (pathParts (name f)))%nat;
    repeat (apply setAdd_In; right); exact H.
Qed.

(** The bucket that the rule gives to an entry is a candidate. *)
Lemma candidates_layoutOf (entries : list ZipObject) (set : list string)
  (f : ZipObject) (strip : bool) (b rel : string) :
  In f entries -> dir f = false ->
  layoutOf strip (pathParts (name f)) = Some (b, rel) ->
  In b (candidates entries set).
Proof.
  revert set. induction entries as [|g entries IH]; intros set [] Hd Hlay.
  - subst g. cbn [candidates fold_left]. apply candidates_keep.
    unfold layoutOf in Hlay. rewrite Hd. destruct strip.
    + destruct (3 <=? length (pathParts (name f)))%nat eqn:H3; [|discriminate].
      injection Hlay as <- _.
      assert (H2 : (2 <=? length (pathParts (name f)))%nat = true).
      { apply Nat.leb_le. apply Nat.leb_le in H3. lia. }
      rewrite H2. cbn [negb andb]. apply setAdd_In. now left.
    + destruct (2 <=? length (pathParts (name f)))%nat eqn:H2; [|discriminate].
      injection Hlay as <- _. cbn [negb andb].
      destruct (3 <=? length (pathParts (name f)))%nat;
        [apply setAdd_In; right|]; apply setAdd_In; now left.
  - cbn [candidates fold_left]. now apply IH.
Qed.

Lemma lookup_present {A : Type} (key : string) (obj : list (string * A)) :
  In key (map fst obj) -> exists v, lookup key obj = Some v.
Proof.
  induction obj as [|[k v] obj IH]; simpl; [intros []|].
  destruct (k =? key) eqn:E; [now exists v|].
  intros [->|H]; [now rewrite String.eqb_refl in E | now apply IH].
Qed.

(** A bucket of the plan is the bucket that the rule gives to some entry. *)
Lemma infer_key (entries : list ZipObject) (b : string) :
  In b (map fst (infer entries)) ->
  exists f rel, In f entries /\ dir f = false
                /\ layoutOf (stripsRoot entries) (pathParts (name f)) = Some (b, rel).
Proof.
  intros Hb. destruct (lookup_present b _ Hb) as [files Hfiles].
  rewrite infer_group, lookup_group in Hfiles.
  destruct (selected (cutEntry (layoutOf (stripsRoot entries))) b entries)
    as [|info sel] eqn:E; [discriminate Hfiles|].
  assert (Hin : In info
                  (selected (cutEntry (layoutOf (stripsRoot entries))) b entries))
    by (rewrite E; now left).
  unfold selected in Hin. apply in_flat_map in Hin as (f & Hf & Hcut).
  unfold cutEntry in Hcut. destruct (dir f) eqn:Hd; [destruct Hcut|].
  destruct (layoutOf (stripsRoot entries) (pathParts (name f))) as [[b0 rel]|] eqn:El;
    [|destruct Hcut].
  destruct (b0 =? b) eqn:Eb; [|destruct Hcut].
  apply String.eqb_eq in Eb. subst b0. now exists f, rel.
Qed.

End Preview.

(** X6.  The preview lists no bucket twice.  Whenever the migration can
    infer a bucket from the archive the preview is not empty, and it shows
    every inferred bucket whose name does not look like a project
    identifier: so it is of the mapping of the rule, and of every mapping
    that [parseZipStructure] returns. *)
Theorem preview_covers_inferred_buckets :
  forall entries : list ZipObject,
    NoDup (detectBucketsInZip (Returned entries))
    /\ (infer entries <> [] -> detectBucketsInZip (Returned entries) <> [])
    /\ (forall b,
          In b (map fst (infer entries)) ->
          looksLikeProjectId b = false ->
          In b (detectBucketsInZip (Returned entries)))
    /\ (forall r plan,
          fst (parseZipStructure entries r) = Returned plan ->
          (plan <> [] -> detectBucketsInZip (Returned entries) <> [])
          /\ (forall b,
                In b (map fst plan) ->
                looksLikeProjectId b = false ->
                In b (detectBucketsInZip (Returned entries)))).
Proof.
  intros entries.
  assert (H : NoDup (detectBucketsInZip (Returned entries))
    /\ (infer entries <> [] -> detectBucketsInZip (Returned entries) <> [])
    /\ (forall b,
          In b (map fst (infer entries)) ->
          looksLikeProjectId b = false ->
          In b (detectBucketsInZip (Returned entries))));
    [|destruct H as (H1 & H2 & H3); repeat split; try assumption;
      match goal with
      | Hplan : fst (parseZipStructure entries _) = Returned _ |- _ =>
          change (parsed entries = Returned plan) in Hplan;
          apply parsed_Returned in Hplan; destruct Hplan as [-> _]
      end; auto].
  unfold detectBucketsInZip. fold (candidates entries []).
  assert (Hcand : forall b, In b (map fst (infer entries)) ->
                            In b (candidates entries [])).
  { intros b Hb. destruct (infer_key entries b Hb) as (f & rel & Hf & Hd & Hlay).
    exact (candidates_layoutOf entries [] f _ b rel Hf Hd Hlay). }
  pose proof (candidates_NoDup entries [] (NoDup_nil _)) as Hnd.
  set (filtered := filter (fun n => negb (looksLikeProjectId n))
                     (candidates entries [])).
  split; [|split].
  - destruct (0 <? length filtered)%nat; [apply NoDup_filter|]; exact Hnd.
  - intros Hplan.
    destruct (infer entries) as [|[b files] rest] eqn:E; [now elim Hplan|].
    assert (Hb : In b (candidates entries [])) by (apply Hcand; now left).
    destruct (0 <? length filtered)%nat eqn:El.
    + apply Nat.ltb_lt in El. intros H. rewrite H in El. simpl in El. lia.
    + intros H. rewrite H in Hb. destruct Hb.
  - intros b Hb Hid.
    assert (Hf : In b filtered).
    { apply filter_In. split; [now apply Hcand | now rewrite Hid]. }
    destruct (0 <? length filtered)%nat eqn:El; [exact Hf|].
    apply Nat.ltb_ge in El. destruct filtered; [destruct Hf | simpl in El; lia].
Qed.

Lemma preview_covers_inferred_buckets_witness :
  In "photos"
     (detectBucketsInZip
        (Returned [fileEntry "proj123456789012345678/photos/a.png"
                     (Returned tt) (Data tt)])).
Proof.
  destruct (preview_covers_inferred_buckets
              [fileEntry "proj123456789012345678/photos/a.png"
                 (Returned tt) (Data tt)]) as (_ & _ & _ & Hcode).
  destruct (Hcode (start initialState) _ eq_refl) as [_ Hshown].
  apply Hshown; [left|]; reflexivity.
Defined.





(* ================================================================== *)
(** ** The states of a run *)

Section RunStates.

Lemma busy_blocks_migrations (s : State) :
  isProcessing s = true ->
  isProcessing s = true
  /\ (forall a b c d, canMigrateLive a b c d s = false)
  /\ (forall z a b, canMigrateFromZip z a b s = false).
Proof.
  intros H. unfold canMigrateLive, canMigrateFromZip. rewrite H.
  repeat split; intros; now rewrite andb_false_r.
Qed.

Lemma catchFinally_busy (s0 : State) (op : string) (n : list nat)
  (c : Completion) (r' : Run) :
  Evolves BodyStep
    (assign (setCurrentOperation op)
       (assign (setIsProcessing true) (interruptedBy n (clearLogs s0))))
    r' ->
  BusyBetween (catchFinally (c, r')) s0.
Proof.
  intros Hev.
  destruct (Evolves_history BodyStep (fun s => isProcessing s = true) _ _
              (fun s s' Hs Hstep => eq_trans (proj1 (BodyStep_keeps s s' Hstep)) Hs)
              Hev eq_refl) as (Hnow & added & Hh & Hadded).
  split; [now destruct c|].
  unfold catchFinally, addLog. destruct c as [|msg]; cbn [fst snd].
  - exists (added ++ [now (assign (setCurrentOperation op)
                             (assign (setIsProcessing true) (clearLogs s0)));
                      now (assign (setIsProcessing true) (clearLogs s0))]).
    split.
    + unfold history in *. cbn [now past assign] in *. rewrite Hh.
      now rewrite <- app_assoc.
    + apply Forall_app. split.
      * eapply Forall_impl; [|exact Hadded]. apply busy_blocks_migrations.
      * repeat constructor; now apply busy_blocks_migrations.
  - exists ([setLogs (logs (setError msg (now r'))
                      ++ [{| message := "Migration failed: " ++ msg; type := Error |}])
               (setError msg (now r'));
             setError msg (now r')]
            ++ added
            ++ [now (assign (setCurrentOperation op)
                       (assign (setIsProcessing true) (clearLogs s0)));
                now (assign (setIsProcessing true) (clearLogs s0))]).
    split.
    + unfold history in *. cbn [now past assign] in *. rewrite Hh.
      cbn [app]. now rewrite <- !app_assoc.
    + apply Forall_app. split; [|apply Forall_app; split].
      * repeat constructor; now apply busy_blocks_migrations.
      * eapply Forall_impl; [|exact Hadded]. apply busy_blocks_migrations.
      * repeat constructor; now apply busy_blocks_migrations.
Qed.

(** The states of a run that only grows. *)
Lemma Grows_Sorted (s0 : State) (run : Run) :
  Evolves Grows (clearLogs s0) run ->
  StronglySorted (fun newer older => Appends older newer) (history run).
Proof.
  intros Hev.
  apply Sorted_StronglySorted;
    [intros a b c' Hab Hbc; eapply Appends_trans; eassumption|].
  apply (Evolves_Sorted Appends (clearLogs s0)); [|repeat constructor].
  eapply Evolves_weaken; [apply Grows_Appends | exact Hev].
Qed.

End RunStates.

(** X7.  A run releases the processing flag when it ends, however it ends,
    and holds it in every state between the reset and the end: while a run
    is in progress the conditions of both migration buttons are false. *)
Theorem run_is_busy_until_it_ends :
  (forall (sc : LiveScenario) (s0 : State),
      BusyBetween (migrateLiveProject sc s0) s0)
  /\ (forall (sc : ZipScenario) (s0 : State) (loaded : Attempt (list ZipObject)),
        uploadedZip sc = Some loaded ->
        BusyBetween (migrateFromZip sc s0) s0).
Proof.
  split.
  - intros sc s0. unfold migrateLiveProject.
    pose proof (migrateLiveProjectBody_body sc
                  (assign (setCurrentOperation "Migrating from live project")
                     (assign (setIsProcessing true)
                        (interruptedBy (liveSwitches sc) (clearLogs s0))))) as H.
    destruct (migrateLiveProjectBody sc _) as [c r'].
    exact (catchFinally_busy s0 _ _ c r' H).
  - intros sc s0 loaded Hzip. unfold migrateFromZip. rewrite Hzip.
    pose proof (migrateFromZipBody_body sc loaded
                  (assign (setCurrentOperation "Migrating from ZIP file")
                     (assign (setIsProcessing true)
                        (interruptedBy (zipSwitches sc) (clearLogs s0))))) as H.
    destruct (migrateFromZipBody sc loaded _) as [c r'].
    exact (catchFinally_busy s0 _ _ c r' H).
Qed.

Lemma run_is_busy_until_it_ends_witness :
  BusyBetween (migrateFromZip secondUploadFails initialState) initialState.
Proof.
  destruct run_is_busy_until_it_ends as [_ Hzip].
  exact (Hzip secondUploadFails initialState _ eq_refl).
Defined.

(** X8.  While the tabs are left alone, the log and the list of requests of
    a run are append-only: of any two states of the run, the log of the
    earlier one is an initial segment of the log of the later one, and so
    are the requests.  A click on a tab during the run empties the log:
    the archive run with one click during its last upload is not
    append-only. *)
Theorem log_is_append_only :
  (forall (sc : LiveScenario) (s0 : State),
      liveSwitches sc = [] ->
      StronglySorted (fun newer older => Appends older newer)
        (history (migrateLiveProject sc s0)))
  /\ (forall (sc : ZipScenario) (s0 : State) (loaded : Attempt (list ZipObject)),
        uploadedZip sc = Some loaded ->
        zipSwitches sc = [] ->
        StronglySorted (fun newer older => Appends older newer)
          (history (migrateFromZip sc s0)))
  /\ ~ StronglySorted (fun newer older => Appends older newer)
         (history (migrateFromZip tabSwitchedDuringUpload initialState)).
Proof.
  split; [|split].
  - intros sc s0 Hquiet. apply (Grows_Sorted s0).
    now apply migrateLiveProject_history.
  - intros sc s0 loaded Hzip Hquiet. apply (Grows_Sorted s0).
    now apply (migrateFromZip_grows sc s0 loaded).
  - intros H. apply StronglySorted_inv in H. destruct H as [_ H].
    set (run := migrateFromZip tabSwitchedDuringUpload initialState) in *.
    assert (Hin : In (nth 4 (past run) initialState) (past run))
      by (apply nth_In; vm_compute; lia).
    apply (proj1 (Forall_forall _ _) H) in Hin. destruct Hin as [[t Ht] _].
    apply (f_equal (@length LogEntry)) in Ht. rewrite length_app in Ht.
    vm_compute in Ht. lia.
Qed.

Lemma log_is_append_only_witness :
  StronglySorted (fun newer older => Appends older newer)
    (history (migrateFromZip secondUploadFails initialState)).
Proof.
  destruct log_is_append_only as (_ & Hzip & _).
  exact (Hzip secondUploadFails initialState _ eq_refl eq_refl).
Defined.

(** X9.  A live run always ends in one of two states, decided by the
    creation of the clients and by the listing of the source buckets alone:
    it fails, with the thrown message as reason (prefixed by
    "Failed to list buckets: " when the listing returns an error), or it
    completes with no reason set.  In both the processing flag is
    released. *)
Theorem live_run_ends_as_its_setup_decides :
  forall (sc : LiveScenario) (s0 : State),
    Ends (now (migrateLiveProject sc s0)) (liveOutcome sc).
Proof.
  exact migrateLiveProject_ends.
Qed.

(** X10.  An archive run of a selected file always ends in one of two
    states, decided by the creation of the client, the reading of the
    archive, the parse of its layout and the listing of the destination
    buckets: it fails with the thrown message as reason (the message of the
    [TypeError] when the parse throws, and
    "No valid bucket structure found in ZIP file" when no bucket is
    inferred), or it completes with no reason set.  A listing of the
    destination that returns an error does not fail the run. *)
Theorem archive_run_ends_as_its_setup_decides :
  forall (sc : ZipScenario) (s0 : State) (loaded : Attempt (list ZipObject)),
    uploadedZip sc = Some loaded ->
    Ends (now (migrateFromZip sc s0)) (zipOutcome sc loaded).
Proof.
  exact migrateFromZip_ends.
Qed.

Lemma archive_run_ends_as_its_setup_decides_witness :
  EndsFailed (now (migrateFromZip corruptArchive initialState))
    "Corrupted zip: can't find end of central directory"
  /\ EndsCompleted (now (migrateFromZip secondUploadFails initialState))
  /\ EndsFailed (now (migrateFromZip inheritedBucketName initialState))
       "bucketFiles[bucketName].push is not a function".
Proof.
  split; [|split].
  - exact (archive_run_ends_as_its_setup_decides corruptArchive initialState _ eq_refl).
  - exact (archive_run_ends_as_its_setup_decides secondUploadFails initialState _ eq_refl).
  - exact (archive_run_ends_as_its_setup_decides inheritedBucketName initialState
             _ eq_refl).
Defined.

(** ** What the page displays *)

Section Display.

Lemma migrateLiveProjectBody_logged (sc : LiveScenario) (r : Run) :
  Quiet r ->
  Evolves Grows (addLog "Initializing Supabase clients..." Info r)
    (snd (migrateLiveProjectBody sc r)).
Proof.
  intros Hq. unfold migrateLiveProjectBody.
  destruct (liveClients sc) as [[]|msg]; [|cbn [snd]; constructor].
  destruct (sourceBuckets sc) as [buckets|msg|msg];
    try (unfold addLog; quiet; cbn [snd]; evolve).
  destruct (length buckets =? 0)%nat; cbn [snd].
  - unfold addLog. quiet. evolve.
  - apply Evolves_assign; [|step].
    eapply Evolves_trans; [|apply processLiveBuckets_evolves; quiet_side].
    unfold addLog. quiet. evolve.
Qed.

Lemma migrateFromZipBody_logged (sc : ZipScenario)
  (loaded : Attempt (list ZipObject)) (r : Run) :
  Quiet r ->
  Evolves Grows (addLog "Initializing Supabase client..." Info r)
    (snd (migrateFromZipBody sc loaded r)).
Proof.
  intros Hq. unfold migrateFromZipBody.
  destruct (zipClient sc) as [[]|msg]; [|cbn [snd]; constructor].
  destruct loaded as [entries|msg];
    [|unfold addLog; quiet; cbn [snd]; evolve].
  cbv zeta.
  assert (Hparse : Evolves Grows
            (addLog "Initializing Supabase client..." Info r)
            (snd (parseZipStructure entries
                    (request ZipLoadAsync
                       (addLog "Loading ZIP file..." Info
                          (addLog "Initializing Supabase client..." Info r)))))).
  { unfold parseZipStructure, addLog. quiet. cbn [snd].
    destruct (detectRootFolder entries); evolve. }
  destruct (fst (parseZipStructure entries _)) as [bucketFiles|msg];
    [|exact Hparse].
  destruct (length (objectKeys bucketFiles) =? 0)%nat; [exact Hparse|].
  eapply Evolves_trans;
    [|eapply Evolves_weaken;
      [apply ZipStep_Grows | apply transferPlan_evolves; quiet_side]].
  apply Evolves_assign; [apply Evolves_assign; [exact Hparse | step] | step].
Qed.

Lemma Evolves_Grows_logged (r r' : Run) :
  Evolves Grows r r' -> logs (now r) <> [] -> logs (now r') <> [].
Proof.
  intros H Hr. destruct (Evolves_Grows_now r r' H) as (_ & [t Ht] & _).
  rewrite Ht. intros E. apply app_eq_nil in E. now destruct E.
Qed.

Lemma run_logged (c : Completion) (first r' : Run) :
  logs (now first) <> [] ->
  Evolves Grows first r' ->
  logs (now (catchFinally (c, r'))) <> [].
Proof.
  intros Hfirst Hev.
  apply (Evolves_Grows_logged first); [|exact Hfirst].
  eapply Evolves_trans; [exact Hev | apply catchFinally_Grows].
Qed.

Lemma EndsFailed_lastLog (s : State) (reason : string) :
  EndsFailed s reason ->
  lastLog s = Some {| message := "Migration failed: " ++ reason; type := Error |}.
Proof.
  intros (Hf & _ & He & _). unfold isFailed in Hf. rewrite He in Hf.
  destruct (lastLog s) as [[m t]|]; [|now rewrite andb_false_r in Hf].
  apply andb_prop in Hf. destruct Hf as [_ Hf]. unfold isFailedEntry in Hf.
  cbn [message type] in Hf. apply andb_prop in Hf. destruct Hf as [Hm Ht].
  apply String.eqb_eq in Hm. destruct t; try discriminate Ht. now rewrite Hm.
Qed.

Lemma Ends_display (s : State) (o : Outcome) :
  Ends s o ->
  match o with
  | Completed =>
      Js.truthy (success s) = true /\ Js.truthy (error s) = false
      /\ (logs s <> [] -> showsProgress s = true)
  | Failed reason =>
      lastLog s
      = Some {| message := "Migration failed: " ++ reason; type := Error |}
      /\ showsProgress s = negb (Js.truthy reason)
      /\ Js.truthy (success s) = false
  end.
Proof.
  intros Hends.
  assert (Hshown : logs s <> [] ->
            ((0 <? totalItems s)%nat || (0 <? length (logs s))%nat) = true).
  { intros Hlogs. destruct (logs s); [now elim Hlogs|]. cbn. apply orb_true_r. }
  destruct o as [|reason]; cbn [Ends] in Hends.
  - destruct Hends as (Hc & _ & He & _).
    unfold isCompleted in Hc. apply andb_prop in Hc. destruct Hc as [_ Hc].
    split; [exact Hc|]. split; [now rewrite He|].
    intros Hlogs. unfold showsProgress. now rewrite (Hshown Hlogs), He.
  - pose proof (EndsFailed_lastLog s reason Hends) as Hlast.
    split; [exact Hlast|].
    destruct Hends as (Hf & _ & He & _). unfold showsProgress.
    rewrite Hshown, He.
    + split; [reflexivity|].
      unfold isFailed in Hf. apply andb_prop in Hf. destruct Hf as [Hf _].
      apply andb_prop in Hf. destruct Hf as [_ Hf]. now apply negb_true_iff in Hf.
    + unfold lastLog in Hlast. intros E. now rewrite E in Hlast.
Qed.

End Display.

(** X11.  What the page displays when a run has ended.  After a completed
    run the success banner is shown and the error banner is not, and if
    the tabs were left alone during the run, the progress panel with the
    log is shown.  After a failed run the last entry of the log is the
    failure report, the success banner is not shown, and the progress
    panel, which contains the log, is shown only if the reason is the empty
    string: with a reason the failure report is in the log but the log is
    not displayed. *)
Theorem failed_run_hides_its_log :
  (forall (sc : LiveScenario) (s0 : State),
      let final := now (migrateLiveProject sc s0) in
      match liveOutcome sc with
      | Completed =>
          Js.truthy (success final) = true /\ Js.truthy (error final) = false
          /\ (liveSwitches sc = [] -> showsProgress final = true)
      | Failed reason =>
          lastLog final
          = Some {| message := "Migration failed: " ++ reason; type := Error |}
          /\ showsProgress final = negb (Js.truthy reason)
          /\ Js.truthy (success final) = false
      end)
  /\ (forall (sc : ZipScenario) (s0 : State) (loaded : Attempt (list ZipObject)),
        uploadedZip sc = Some loaded ->
        let final := now (migrateFromZip sc s0) in
        match zipOutcome sc loaded with
        | Completed =>
            Js.truthy (success final) = true /\ Js.truthy (error final) = false
            /\ (zipSwitches sc = [] -> showsProgress final = true)
        | Failed reason =>
            lastLog final
            = Some {| message := "Migration failed: " ++ reason; type := Error |}
            /\ showsProgress final = negb (Js.truthy reason)
            /\ Js.truthy (success final) = false
        end).
Proof.
  split.
  - intros sc s0 final.
    pose proof (Ends_display final _ (migrateLiveProject_ends sc s0)) as H.
    destruct (liveOutcome sc) as [|reason]; [|exact H].
    destruct H as (Hs & He & Hshown). split; [exact Hs|]. split; [exact He|].
    intros Hquiet. apply Hshown. subst final. unfold migrateLiveProject.
    rewrite Hquiet.
    match goal with
    | |- context [migrateLiveProjectBody sc ?r] =>
        pose proof (migrateLiveProjectBody_logged sc r eq_refl) as Hev;
        destruct (migrateLiveProjectBody sc r) as [c r']
    end.
    eapply run_logged; [|exact Hev].
    unfold addLog. cbn [now assign logs setLogs].
    intros E. now apply app_eq_nil in E.
  - intros sc s0 loaded Hzip final.
    pose proof (Ends_display final _ (migrateFromZip_ends sc s0 loaded Hzip)) as H.
    destruct (zipOutcome sc loaded) as [|reason]; [|exact H].
    destruct H as (Hs & He & Hshown). split; [exact Hs|]. split; [exact He|].
    intros Hquiet. apply Hshown. subst final. unfold migrateFromZip.
    rewrite Hzip, Hquiet.
    match goal with
    | |- context [migrateFromZipBody sc loaded ?r] =>
        pose proof (migrateFromZipBody_logged sc loaded r eq_refl) as Hev;
        destruct (migrateFromZipBody sc loaded r) as [c r']
    end.
    eapply run_logged; [|exact Hev].
    unfold addLog. cbn [now assign logs setLogs].
    intros E. now apply app_eq_nil in E.
Qed.

Lemma failed_run_hides_its_log_witness :
  lastLog (now (migrateFromZip corruptArchive initialState))
  = Some {| message := "Migration failed: Corrupted zip: can't find end of central directory";
            type := Error |}
  /\ showsProgress (now (migrateFromZip corruptArchive initialState)) = false
  /\ showsProgress (now (migrateFromZip secondUploadFails initialState)) = true.
Proof.
  destruct failed_run_hides_its_log as [_ Hzip].
  destruct (Hzip corruptArchive initialState _ eq_refl) as (H1 & H2 & _).
  destruct (Hzip secondUploadFails initialState _ eq_refl) as (_ & _ & H3).
  split; [exact H1 | split; [exact H2 | exact (H3 eq_refl)]].
Defined.

(** X12.  The counters at the end of a live run during which the tabs are
    left alone.  The counter is the number of files of the source whose
    download and upload both succeeded, and the total is the number of
    items listed, folders included: the total exceeds the counter by the
    number of folders plus the number of files whose transfer failed, so a
    source with a folder never reaches its total. *)
Theorem live_counters_at_the_end :
  forall (sc : LiveScenario) (s0 : State),
    liveSwitches sc = [] ->
    let final := now (migrateLiveProject sc s0) in
    progress final = overSource migratedIn sc
    /\ totalItems final = overSource (fun f => 1 + listedIn f) sc
    /\ totalItems final
       = progress final + overSource foldersIn sc + overSource failedIn sc.
Proof.
  intros sc s0 Hquiet final.
  assert (H : progress final = overSource migratedIn sc
              /\ totalItems final = overSource (fun f => 1 + listedIn f) sc).
  { subst final. unfold migrateLiveProject, migrateLiveProjectBody, overSource.
    rewrite Hquiet.
    destruct (liveClients sc) as [[]|msg]; [|split; reflexivity].
    destruct (sourceBuckets sc) as [buckets|msg|msg];
      try (unfold addLog; quiet; split; reflexivity).
    destruct (length buckets =? 0)%nat eqn:Hlen.
    - apply Nat.eqb_eq, length_zero_iff_nil in Hlen. subst buckets.
      unfold addLog. quiet. split; reflexivity.
    - unfold catchFinally.
      cbn [fst snd now assign progress totalItems setIsProcessing setSuccess].
      rewrite (measure_fold (fun r => progress (now r)) processLiveBucket
                 (fun b => list_sum (map migratedIn (childrenOf (rootListing b)))));
        [|intros; apply switches_processLiveBucket
         |apply Forall_forall; intros b _ r Hr;
          now apply processLiveBucket_counts
         |quiet_side].
      rewrite (measure_fold (fun r => totalItems (now r)) processLiveBucket
                 (fun b => list_sum (map (fun f => 1 + listedIn f)
                                       (childrenOf (rootListing b)))));
        [|intros; apply switches_processLiveBucket
         |apply Forall_forall; intros b _ r Hr;
          now apply processLiveBucket_counts
         |quiet_side].
      unfold addLog. quiet. split; reflexivity. }
  destruct H as [Hp Ht]. split; [exact Hp|]. split; [exact Ht|].
  rewrite Ht, Hp. unfold overSource.
  destruct (liveClients sc) as [[]|msg]; [|reflexivity].
  destruct (sourceBuckets sc) as [buckets|msg|msg]; try reflexivity.
  rewrite <- !list_sum_add. apply list_sum_ext, Forall_forall. intros b _.
  rewrite <- !list_sum_add. apply list_sum_ext, Forall_forall. intros f _.
  apply item_is_counted_once.
Qed.

Lemma live_counters_at_the_end_witness :
  progress (now (migrateLiveProject secondTransferFails initialState)) = 2
  /\ totalItems (now (migrateLiveProject secondTransferFails initialState)) = 3.
Proof.
  destruct (live_counters_at_the_end secondTransferFails initialState eq_refl)
    as (Hp & Ht & _).
  split; [exact Hp | exact Ht].
Defined.

(** X13.  The counters and the summary at the end of an archive run that
    reaches its plan, when the tabs are left alone during the run.  The
    total is the number of objects of the plan, and the counter is the
    number of objects of the buckets that are ready, whatever their
    decompression and their upload answer: the summary reports as uploaded
    every object whose upload was attempted, and the total exceeds the
    counter by the objects of the buckets whose creation was refused. *)
Theorem archive_summary_counts_attempts :
  forall (sc : ZipScenario) (s0 : State) (entries : list ZipObject)
         (found : BucketFiles) (names : list string),
    uploadedZip sc = Some (Returned entries) ->
    zipClient sc = Returned tt ->
    parsed entries = Returned found ->
    found <> [] ->
    knownBuckets sc = Some names ->
    zipSwitches sc = [] ->
    let final := now (migrateFromZip sc s0) in
    let plan := objectEntries found in
    progress final = attempted sc names plan
    /\ totalItems final = planSize plan
    /\ totalItems final = progress final + leftOut sc names plan
    /\ success final
       = ("Migration completed! Uploaded " ++ Js.ofNat (attempted sc names plan)
          ++ " out of " ++ Js.ofNat (planSize plan) ++ " files.")%string.
Proof.
  intros sc s0 entries found names Hzip Hclient Hparsed Hplan Hknown Hquiet
    final plan.
  destruct (migrateFromZip_counts sc s0 entries found names Hzip Hclient Hparsed
              Hplan Hknown Hquiet) as (Hp & Ht & Hs).
  split; [exact Hp|]. split; [exact Ht|]. split; [|exact Hs].
  subst final plan. rewrite Ht, Hp. unfold planSize, attempted, leftOut.
  rewrite <- list_sum_add. apply list_sum_ext, Forall_forall. intros entry _.
  destruct (bucketReady sc names (fst entry)); lia.
Qed.

Lemma archive_summary_counts_attempts_witness :
  progress (now (migrateFromZip secondUploadFails initialState)) = 3
  /\ success (now (migrateFromZip secondUploadFails initialState))
     = "Migration completed! Uploaded 3 out of 3 files.".
Proof.
  destruct (archive_summary_counts_attempts secondUploadFails initialState
              _ _ [] eq_refl eq_refl eq_refl) as (Hp & _ & _ & Hs);
    [discriminate | reflexivity | reflexivity |].
  split; [exact Hp | exact Hs].
Defined.

(** X14.  The requests of an archive run of a selected file, in order,
    whatever the tab switches during the run: the reading of the archive;
    if the parse returns a plan with a bucket, the listing of the
    destination buckets; then, bucket by bucket in the order of the plan,
    the creation of the bucket as a private one unless the listing has it,
    and, if the bucket is ready, for each of its objects the decompression
    followed, when it succeeds, by the upload under the object's path with
    what the resolver gives for that path.  Nothing is requested when the
    client cannot be created, nothing after the reading when the parse
    throws, and nothing after a listing that throws. *)
Theorem archive_run_requests :
  forall (sc : ZipScenario) (s0 : State) (loaded : Attempt (list ZipObject)),
    uploadedZip sc = Some loaded ->
    requests (now (migrateFromZip sc s0)) = zipRequests sc loaded.
Proof.
  exact migrateFromZip_requests.
Qed.

Lemma archive_run_requests_witness :
  requests (now (migrateFromZip secondUploadFails initialState))
  = [ ZipLoadAsync; DstListBuckets; DstCreateBucket "photos" false;
      ZipAsync "photos/a.png"; DstUpload "photos" "a.png" (Str "image/png");
      ZipAsync "photos/b.png"; DstUpload "photos" "b.png" (Str "image/png");
      ZipAsync "photos/c.png"; DstUpload "photos" "c.png" (Str "image/png") ]
  /\ requests (now (migrateFromZip inheritedBucketName initialState))
     = [ ZipLoadAsync ]
  /\ requests (now (migrateFromZip tabSwitchedDuringUpload initialState))
     = requests (now (migrateFromZip secondUploadFails initialState)).
Proof.
  split; [|split].
  - exact (archive_run_requests secondUploadFails initialState _ eq_refl).
  - exact (archive_run_requests inheritedBucketName initialState _ eq_refl).
  - rewrite (archive_run_requests tabSwitchedDuringUpload initialState _ eq_refl).
    now rewrite (archive_run_requests secondUploadFails initialState _ eq_refl).
Defined.

(** X15.  The requests of a live run, in order: the listing of the source
    buckets; then, bucket by bucket, the creation of the bucket in the
    destination with the visibility of the source bucket, the listing of
    its root, and for each item listed, depth first, the download of a
    file followed, when it succeeds, by its upload under the same path
    with the content type of the source metadata, or the listing of a
    folder followed by the requests of its items.  The files of a bucket
    are requested whatever the creation of the bucket answered. *)
Theorem live_run_requests :
  forall (sc : LiveScenario) (s0 : State),
    requests (now (migrateLiveProject sc s0)) = liveRequests sc.
Proof.
  exact migrateLiveProject_requests.
Qed.

(** X16.  Which objects an archive run uploads: exactly the objects of the
    plan that the parse returns whose bucket is ready and whose
    decompression succeeds, each under its path within the bucket and with
    what the resolver gives for that path; nothing when the parse
    throws. *)
Theorem archive_uploads_are_the_ready_objects :
  forall (sc : ZipScenario) (s0 : State) (loaded : Attempt (list ZipObject)),
    uploadedZip sc = Some loaded ->
    forall b p ct,
      In (DstUpload b p ct) (requests (now (migrateFromZip sc s0)))
      <-> zipClient sc = Returned tt
          /\ exists entries plan names files info,
               loaded = Returned entries
               /\ parsed entries = Returned plan
               /\ knownBuckets sc = Some names
               /\ In (b, files) plan /\ In info files
               /\ bucketReady sc names b = true
               /\ async (file info) = Returned tt
               /\ p = path info /\ ct = getMimeType (path info).
Proof.
  intros sc s0 loaded Hzip b p ct.
  rewrite (migrateFromZip_requests sc s0 loaded Hzip). unfold zipRequests.
  split.
  - destruct (zipClient sc) as [[]|msg]; [|intros []].
    intros [H|H]; [discriminate|]. split; [reflexivity|].
    destruct loaded as [entries|msg]; [|destruct H].
    destruct (parsed entries) as [[|e plan]|msg] eqn:Hplan;
      [destruct H | | destruct H].
    destruct H as [H|H]; [discriminate|].
    destruct (knownBuckets sc) as [names|]; [|destruct H].
    apply in_flat_map in H. destruct H as ([b0 files] & Hin & H).
    apply (proj1 (objectEntries_In _ _)) in Hin.
    apply (proj1 (bucketRequests_upload _ _ _ _ _ _)) in H. cbn [fst snd] in H.
    destruct H as (-> & Hr & info & Hinfo & Ha & -> & ->).
    exists entries, (e :: plan), names, files, info. now repeat split.
  - intros (-> & entries & plan & names & files & info
            & -> & -> & -> & Hin & Hinfo & Hr & Ha & -> & ->).
    right. destruct plan as [|e plan]; [destruct Hin|].
    right. apply in_flat_map. exists (b, files).
    split; [now apply objectEntries_In|].
    apply bucketRequests_upload. cbn [fst snd]. split; [reflexivity|].
    split; [exact Hr|]. now exists info.
Qed.

Lemma archive_uploads_are_the_ready_objects_witness :
  In (DstUpload "photos" "b.png" (Str "image/png"))
     (requests (now (migrateFromZip secondUploadFails initialState))).
Proof.
  apply (archive_uploads_are_the_ready_objects secondUploadFails initialState
           _ eq_refl).
  split; [reflexivity|].
  exists [fileEntry "photos/a.png" (Returned tt) (Data tt);
          fileEntry "photos/b.png" (Returned tt) (ErrorResult "Payload too large");
          fileEntry "photos/c.png" (Returned tt) (Data tt)],
         [("photos",
           [ {| path := "a.png";
                file := fileEntry "photos/a.png" (Returned tt) (Data tt) |};
             {| path := "b.png";
                file := fileEntry "photos/b.png" (Returned tt)
                          (ErrorResult "Payload too large") |};
             {| path := "c.png";
                file := fileEntry "photos/c.png" (Returned tt) (Data tt) |} ])],
         [],
         [ {| path := "a.png";
              file := fileEntry "photos/a.png" (Returned tt) (Data tt) |};
           {| path := "b.png";
              file := fileEntry "photos/b.png" (Returned tt)
                        (ErrorResult "Payload too large") |};
           {| path := "c.png";
              file := fileEntry "photos/c.png" (Returned tt) (Data tt) |} ],
         {| path := "b.png";
            file := fileEntry "photos/b.png" (Returned tt)
                      (ErrorResult "Payload too large") |}.
  repeat split; try reflexivity.
  - left. reflexivity.
  - right. left. reflexivity.
Defined.

(** X17.  Bucket creation in an archive run.  A bucket that the listing of
    the destination has is never created; every bucket created is created
    as a private one; and every upload into a bucket that the listing does
    not have comes after the request to create that bucket. *)
Theorem archive_buckets_are_created_before_use :
  forall (sc : ZipScenario) (s0 : State) (loaded : Attempt (list ZipObject)),
    uploadedZip sc = Some loaded ->
    (forall b pub,
        In (DstCreateBucket b pub) (requests (now (migrateFromZip sc s0))) ->
        pub = false
        /\ exists names, knownBuckets sc = Some names /\ ~ In b names)
    /\ (forall before b p ct after,
          requests (now (migrateFromZip sc s0))
          = before ++ DstUpload b p ct :: after ->
          exists names,
            knownBuckets sc = Some names
            /\ (In b names \/ In (DstCreateBucket b false) before)).
Proof.
  intros sc s0 loaded Hzip.
  rewrite (migrateFromZip_requests sc s0 loaded Hzip). unfold zipRequests.
  split.
  - intros b pub H.
    destruct (zipClient sc) as [[]|msg]; [|destruct H].
    destruct H as [H|H]; [discriminate|].
    destruct loaded as [entries|msg]; [|destruct H].
    destruct (parsed entries) as [[|e plan]|msg']; [destruct H | | destruct H].
    destruct H as [H|H]; [discriminate|].
    destruct (knownBuckets sc) as [names|]; [|destruct H].
    apply in_flat_map in H. destruct H as (entry & _ & H).
    apply bucketRequests_create in H. destruct H as (_ & -> & Hn).
    split; [reflexivity|]. now exists names.
  - intros before b p ct after H.
    destruct (zipClient sc) as [[]|msg]; [|now destruct before].
    destruct before as [|q1 before]; [discriminate H|]. injection H as <- H.
    destruct loaded as [entries|msg]; [|now destruct before].
    destruct (parsed entries) as [[|e plan]|msg'];
      [now destruct before | | now destruct before].
    destruct before as [|q2 before]; [discriminate H|]. injection H as <- H.
    destruct (knownBuckets sc) as [names|]; [|now destruct before].
    exists names. split; [reflexivity|].
    destruct (flat_map_split _ _ _ _ _ H)
      as (l1 & entry & l2 & b1 & a1 & _ & Hentry & -> & _).
    destruct (bucketRequests_order sc names entry b1 a1 b p ct Hentry) as [Hn|Hc];
      [now left|].
    right. right. right. apply in_or_app. now right.
Qed.

Lemma archive_buckets_are_created_before_use_witness :
  exists names,
    knownBuckets secondUploadFails = Some names
    /\ (In "photos" names
        \/ In (DstCreateBucket "photos" false)
             [ZipLoadAsync; DstListBuckets; DstCreateBucket "photos" false;
              ZipAsync "photos/a.png"]).
Proof.
  destruct (archive_buckets_are_created_before_use secondUploadFails initialState
              _ eq_refl) as [_ Horder].
  exact (Horder [ZipLoadAsync; DstListBuckets; DstCreateBucket "photos" false;
                 ZipAsync "photos/a.png"]
           "photos" "a.png" (Str "image/png")
           [ZipAsync "photos/b.png"; DstUpload "photos" "b.png" (Str "image/png");
            ZipAsync "photos/c.png"; DstUpload "photos" "c.png" (Str "image/png")]
           eq_refl).
Defined.

(** X18.  In a live run every upload comes immediately after the download
    of the same path of the same bucket: nothing is uploaded that was not
    just downloaded, and no other request comes between the two. *)
Theorem live_uploads_follow_their_downloads :
  forall (sc : LiveScenario) (s0 : State),
    UploadsFollowDownloads (requests (now (migrateLiveProject sc s0))).
Proof.
  intros sc s0. rewrite migrateLiveProject_requests. unfold liveRequests.
  destruct (liveClients sc) as [[]|msg];
    [|intros before b p ct after H; now destruct before].
  apply UploadsFollowDownloads_cons; [reflexivity| |];
    (destruct (sourceBuckets sc) as [buckets|msg|msg];
     [|first [reflexivity | intros before b p ct after H; now destruct before]..]).
  - apply (UploadsFollowDownloads_flat_map sourceBucketRequests buckets).
    apply Forall_forall. intros b _. unfold sourceBucketRequests.
    destruct (UploadsFollowDownloads_flat_map
                (itemRequests (bucketName b) "") (childrenOf (rootListing b)))
      as [Hp Hs].
    { apply Forall_forall. intros f _. apply itemRequests_paired. }
    split; [|reflexivity].
    apply UploadsFollowDownloads_cons; [reflexivity| |reflexivity].
    now apply UploadsFollowDownloads_cons.
  - apply (UploadsFollowDownloads_flat_map sourceBucketRequests buckets).
    apply Forall_forall. intros b _. unfold sourceBucketRequests.
    destruct (UploadsFollowDownloads_flat_map
                (itemRequests (bucketName b) "") (childrenOf (rootListing b)))
      as [Hp Hs].
    { apply Forall_forall. intros f _. apply itemRequests_paired. }
    split; [|reflexivity].
    apply UploadsFollowDownloads_cons; [reflexivity| |reflexivity].
    now apply UploadsFollowDownloads_cons.
Qed.



(* ================================================================== *)
(** ** The upload form *)

Section UploadForm.

Lemma detectBucketsInZip_nonempty (entries : list ZipObject) :
  infer entries <> [] -> detectBucketsInZip (Returned entries) <> [].
Proof.
  intros Hplan. unfold detectBucketsInZip. fold (candidates entries []).
  destruct (infer entries) as [|[b files] rest] eqn:E; [now elim Hplan|].
  assert (Hb : In b (candidates entries [])).
  { destruct (infer_key entries b) as (f & rel & Hf & Hd & Hlay).
    - rewrite E. now left.
    - exact (candidates_layoutOf entries [] f _ b rel Hf Hd Hlay). }
  set (filtered := filter (fun n => negb (looksLikeProjectId n))
                     (candidates entries [])).
  destruct (0 <? length filtered)%nat eqn:El.
  - apply Nat.ltb_lt in El. intros H. rewrite H in El. simpl in El. lia.
  - intros H. rewrite H in Hb. destruct Hb.
Qed.

End UploadForm.

(** X19.  A selection that the form rejects: no file, or a file whose name
    does not end in ".zip" in lower case.  The page then has no file, shows
    the error "Please select a valid ZIP file", keeps its log and the
    buckets it had detected before, the ZIP migration cannot be started
    whatever the credentials, and [migrateFromZip] does nothing. *)
Theorem rejected_selection_blocks_the_archive_run :
  forall (input : option Form.File) (p : Form.Page),
    match input with
    | Some file => Js.endsWith ".zip" (Form.name file) = false
    | None => True
    end ->
    let p' := Form.handleZipUpload input p in
    Form.uploadedZip p' = None
    /\ error (Form.view p') = "Please select a valid ZIP file"
    /\ logs (Form.view p') = logs (Form.view p)
    /\ Form.detectedBuckets p' = Form.detectedBuckets p
    /\ (forall url key,
          canMigrateFromZip (Form.hasFile p') url key (Form.view p') = false)
    /\ (forall sc, uploadedZip sc = Form.archive p' ->
                   migrateFromZip sc (Form.view p') = start (Form.view p')).
Proof.
  intros input p Hbad p'.
  assert (Hp : p' = {| Form.view := setError "Please select a valid ZIP file"
                                      (Form.view p);
                       Form.uploadedZip := None;
                       Form.detectedBuckets := Form.detectedBuckets p;
                       Form.activeTab := Form.activeTab p |}).
  { subst p'. unfold Form.handleZipUpload.
    destruct input as [file|]; [now rewrite Hbad | reflexivity]. }
  rewrite Hp. repeat split.
  intros sc Hsc. unfold migrateFromZip. now rewrite Hsc.
Qed.

Lemma rejected_selection_blocks_the_archive_run_witness :
  let p := {| Form.view := initialState; Form.uploadedZip := None;
              Form.detectedBuckets := []; Form.activeTab := Form.Zip |} in
  let file := {| Form.name := "backup.ZIP"; Form.sizeText := "1.00";
                 Form.contents := Returned [] |} in
  Form.uploadedZip (Form.handleZipUpload (Some file) p) = None
  /\ error (Form.view (Form.handleZipUpload (Some file) p))
     = "Please select a valid ZIP file".
Proof.
  intros p file.
  destruct (rejected_selection_blocks_the_archive_run (Some file) p eq_refl)
    as (H1 & H2 & _).
  split; [exact H1 | exact H2].
Defined.

(** X20.  When the form cannot detect a bucket in a selected archive, the
    migration of that file cannot succeed: the form logs the warning
    "Could not detect bucket structure. Will attempt to parse during
    migration.", and every archive run of the file ends in the failed
    state. *)
Theorem undetected_structure_fails_the_migration :
  forall (file : Form.File) (p : Form.Page) (sc : ZipScenario) (s0 : State),
    Js.endsWith ".zip" (Form.name file) = true ->
    Form.detectedBuckets (Form.handleZipUpload (Some file) p) = [] ->
    uploadedZip sc = Form.archive (Form.handleZipUpload (Some file) p) ->
    lastLog (Form.view (Form.handleZipUpload (Some file) p))
    = Some {| message := "Could not detect bucket structure. Will attempt to parse during migration.";
              type := Warning |}
    /\ exists reason, EndsFailed (now (migrateFromZip sc s0)) reason.
Proof.
  intros file p sc s0 Hname. unfold Form.handleZipUpload. rewrite Hname.
  cbn [Form.detectedBuckets Form.view Form.archive Form.uploadedZip option_map].
  intros Hnone Hsc. rewrite Hnone. cbn [length Nat.ltb Nat.leb]. split.
  - unfold lastLog, Form.logged, addLog. cbn [now assign start logs setLogs].
    now rewrite rev_unit.
  - pose proof (migrateFromZip_ends sc s0 _ Hsc) as Hends.
    unfold zipOutcome in Hends.
    destruct (zipClient sc) as [[]|msg]; [|now exists msg].
    destruct (Form.contents file) as [entries|msg]; [|now exists msg].
    destruct (parsed entries) as [[|e plan]|msg] eqn:Hplan;
      [now exists "No valid bucket structure found in ZIP file"
      | | now exists msg].
    exfalso. apply (detectBucketsInZip_nonempty entries); [|exact Hnone].
    apply parsed_Returned in Hplan. destruct Hplan as [Hplan _].
    now rewrite <- Hplan.
Qed.

Lemma undetected_structure_fails_the_migration_witness :
  let p := {| Form.view := initialState; Form.uploadedZip := None;
              Form.detectedBuckets := []; Form.activeTab := Form.Zip |} in
  let file := {| Form.name := "notes.zip"; Form.sizeText := "0.01";
                 Form.contents :=
                   Returned [fileEntry "readme.txt" (Returned tt) (Data tt)] |} in
  let sc := {| uploadedZip := Some (Form.contents file);
               zipClient := Returned tt;
               existingBuckets := Data [];
               createBucket := fun _ => Data tt;
               zipSwitches := [] |} in
  exists reason, EndsFailed (now (migrateFromZip sc initialState)) reason.
Proof.
  intros p file sc.
  exact (proj2 (undetected_structure_fails_the_migration file p sc initialState
                  eq_refl eq_refl eq_refl)).
Defined.




(* ================================================================== *)
(* ================================================================== *)
(** ** The older variant of the archive mode *)

Section LegacyLayout.

Lemma legacy_groupEntries_groupFrom (entries : list ZipObject) :
  Legacy.groupEntries entries = groupFrom legacyCut entries (Returned []).
Proof.
  unfold Legacy.groupEntries, groupFrom.
  generalize (Returned (@nil (string * list FileInfo))).
  induction entries as [|f entries IH]; intros acc; [reflexivity|].
  cbn [fold_left]. rewrite IH. f_equal. unfold legacyCut, layoutOf.
  destruct acc as [bucketFiles|msg]; [|reflexivity].
  destruct (dir f); [reflexivity|].
  change (1 <? length (Js.split "/" (name f)))%nat
    with (2 <=? length (Js.split "/" (name f)))%nat.
  now destruct (2 <=? length (Js.split "/" (name f)))%nat.
Qed.

(** What the grouping of the older variant returns, and when it throws. *)
Lemma legacy_groupEntries_group (entries : list ZipObject) :
  Legacy.groupEntries entries
  = if plainKeys (group legacyCut entries [])
    then Returned (group legacyCut entries [])
    else Raised notAFunction.
Proof.
  rewrite legacy_groupEntries_groupFrom. now apply groupFrom_group.
Qed.

Lemma legacy_groupEntries_Returned (entries : list ZipObject)
  (plan : BucketFiles) :
  Legacy.groupEntries entries = Returned plan ->
  plan = group legacyCut entries [].
Proof.
  rewrite legacy_groupEntries_group.
  destruct (plainKeys (group legacyCut entries [])); [|discriminate].
  now intros [= <-].
Qed.

Lemma legacyCut_name (f : ZipObject) (b : string) (info : FileInfo) :
  legacyCut f = Some (b, info) ->
  file info = f /\ dir f = false
  /\ name f = (b ++ "/" ++ path info)%string
  /\ In b (firstn 1 (Js.split "/" (name f)))
  /\ (2 <=? length (Js.split "/" (name f)))%nat = true.
Proof.
  unfold legacyCut. destruct (dir f); [discriminate|].
  destruct (layoutOf false (Js.split "/" (name f))) as [[b0 rel]|] eqn:E;
    [|discriminate].
  intros [= <- <-]. cbn [file path]. split; [reflexivity|]. split; [reflexivity|].
  pose proof (layoutOf_join false _ _ _ E) as Hjoin.
  rewrite join_split in Hjoin. cbn [append] in Hjoin. split; [exact Hjoin|].
  unfold layoutOf in E.
  destruct (2 <=? length (Js.split "/" (name f)))%nat eqn:Hlen; [|discriminate].
  injection E as <- _. split; [|reflexivity].
  destruct (Js.split "/" (name f)); [discriminate Hlen|]. now left.
Qed.

Lemma previewBuckets_keep (entries : list ZipObject) (set : list string) (b : string) :
  In b set ->
  In b (fold_left
          (fun buckets f =>
             let parts := Js.split "/" (name f) in
             if (1 <? length parts)%nat && Js.truthy (nth 0 parts "")
             then setAdd (nth 0 parts "") buckets
             else buckets)
          entries set).
Proof.
  revert set. induction entries as [|f entries IH]; intros set H; [exact H|].
  cbn [fold_left]. apply IH.
  destruct ((1 <? length (Js.split "/" (name f)))%nat
            && Js.truthy (nth 0 (Js.split "/" (name f)) "")); [|exact H].
  apply setAdd_In. now right.
Qed.

Lemma previewBuckets_NoDup (entries : list ZipObject) (set : list string) :
  NoDup set ->
  NoDup (fold_left
           (fun buckets f =>
              let parts := Js.split "/" (name f) in
              if (1 <? length parts)%nat && Js.truthy (nth 0 parts "")
              then setAdd (nth 0 parts "") buckets
              else buckets)
           entries set).
Proof.
  revert set. induction entries as [|f entries IH]; intros set H; [exact H|].
  cbn [fold_left]. apply IH.
  destruct ((1 <? length (Js.split "/" (name f)))%nat
            && Js.truthy (nth 0 (Js.split "/" (name f)) "")); [|exact H].
  now apply setAdd_NoDup.
Qed.

Lemma previewBuckets_named (entries : list ZipObject) (set : list string) :
  ~ In EmptyString set ->
  ~ In EmptyString
      (fold_left
         (fun buckets f =>
            let parts := Js.split "/" (name f) in
            if (1 <? length parts)%nat && Js.truthy (nth 0 parts "")
            then setAdd (nth 0 parts "") buckets
            else buckets)
         entries set).
Proof.
  revert set. induction entries as [|f entries IH]; intros set H; [exact H|].
  cbn [fold_left]. apply IH.
  destruct (1 <? length (Js.split "/" (name f)))%nat; [|exact H].
  destruct (Js.truthy (nth 0 (Js.split "/" (name f)) "")) eqn:Ht; [|exact H].
  cbn [andb]. intros Hin. apply setAdd_In in Hin. destruct Hin as [He|Hin];
    [|now apply H].
  rewrite <- He in Ht. discriminate Ht.
Qed.

Lemma join_snoc (init : list string) (last : string) :
  Js.join "/" (init ++ [last])
  = match init with
    | [] => last
    | _ :: _ => (Js.join "/" init ++ "/" ++ last)%string
    end.
Proof.
  induction init as [|p init IH]; [reflexivity|].
  destruct init as [|q init]; [reflexivity|].
  change (Js.join "/" ((p :: q :: init) ++ [last]))
    with (p ++ "/" ++ Js.join "/" ((q :: init) ++ [last]))%string.
  rewrite IH.
  change (Js.join "/" (p :: q :: init))
    with (p ++ "/" ++ Js.join "/" (q :: init))%string.
  now rewrite !app_string_assoc.
Qed.

Lemma pop_last (l : list string) (d : string) :
  l <> [] -> Js.pop l = Some (last l d).
Proof.
  induction l as [|x l IH]; [easy|]. intros _.
  destruct l as [|y l]; [reflexivity|].
  change (Js.pop (x :: y :: l)) with (Js.pop (y :: l)).
  change (last (x :: y :: l) d) with (last (y :: l) d).
  now apply IH.
Qed.

End LegacyLayout.

(** X22.  The grouping of the older variant.  Every object of the plan
    that it returns comes from a file entry whose name is exactly the
    bucket, a slash and the path of the object.  On an archive without a
    wrapping root whose file names have no empty segment it does what the
    current inferencer does: it returns the same plan, or throws the same
    error. *)
Theorem legacy_grouping_agrees_on_plain_archives :
  forall entries : list ZipObject,
    (forall plan b files info,
        Legacy.groupEntries entries = Returned plan ->
        In (b, files) plan -> In info files ->
        In (file info) entries /\ dir (file info) = false
        /\ name (file info) = (b ++ "/" ++ path info)%string)
    /\ (stripsRoot entries = false ->
        (forall f, In f entries -> dir f = false -> cleanName (name f)) ->
        Legacy.groupEntries entries = parsed entries).
Proof.
  intros entries. split.
  - intros plan b files info Hplan Hin Hinfo.
    apply legacy_groupEntries_Returned in Hplan. subst plan.
    destruct (group_In _ _ _ _ _ _ Hin Hinfo) as [(files0 & [] & _)|(f & Hf & Hcut)].
    apply legacyCut_name in Hcut. destruct Hcut as (-> & Hd & Hn & _).
    now repeat split.
  - intros Hroot Hclean.
    rewrite legacy_groupEntries_group, parsed_infer, infer_group, Hroot.
    assert (E : group legacyCut entries []
                = group (cutEntry (layoutOf false)) entries []).
    { apply group_ext. intros f Hf. unfold legacyCut, cutEntry.
      destruct (dir f) eqn:Hd; [reflexivity|].
      now rewrite (Hclean f Hf Hd). }
    now rewrite E.
Qed.

Lemma legacy_grouping_agrees_on_plain_archives_witness :
  Legacy.groupEntries
    [fileEntry "photos/a.png" (Returned tt) (Data tt);
     fileEntry "docs/2024/b.pdf" (Returned tt) (Data tt)]
  = parsed [fileEntry "photos/a.png" (Returned tt) (Data tt);
            fileEntry "docs/2024/b.pdf" (Returned tt) (Data tt)].
Proof.
  apply (proj2 (legacy_grouping_agrees_on_plain_archives _)); [reflexivity|].
  intros f [<-|[<-|[]]] _; reflexivity.
Defined.

(** X23.  The preview of the older variant lists no bucket twice, never the
    empty name, and lists every bucket with a non-empty name of the plan
    that the grouping of the older variant returns. *)
Theorem legacy_preview_covers_its_buckets :
  forall entries : list ZipObject,
    NoDup (Legacy.previewBuckets entries)
    /\ ~ In EmptyString (Legacy.previewBuckets entries)
    /\ forall plan b,
         Legacy.groupEntries entries = Returned plan ->
         In b (map fst plan) ->
         b <> EmptyString -> In b (Legacy.previewBuckets entries).
Proof.
  intros entries. split; [apply previewBuckets_NoDup; constructor|].
  split; [apply previewBuckets_named; intros []|].
  intros plan b Hplan Hb Hne.
  apply legacy_groupEntries_Returned in Hplan. subst plan.
  destruct (lookup_present b _ Hb) as [files Hfiles].
  rewrite lookup_group in Hfiles.
  destruct (selected legacyCut b entries) as [|info sel] eqn:E;
    [discriminate Hfiles|].
  assert (Hin : In info (selected legacyCut b entries)) by (rewrite E; now left).
  unfold selected in Hin. apply in_flat_map in Hin as (f & Hf & Hcut).
  destruct (legacyCut f) as [[b0 info0]|] eqn:Ec; [|destruct Hcut].
  destruct (b0 =? b) eqn:Eb; [|destruct Hcut].
  apply String.eqb_eq in Eb. subst b0.
  apply legacyCut_name in Ec. destruct Ec as (_ & _ & _ & Hfirst & Hlen).
  clear Hcut E Hfiles Hb. unfold Legacy.previewBuckets.
  generalize (@nil string).
  induction entries as [|g entries IH]; intros set; [destruct Hf|].
  cbn [fold_left]. destruct Hf as [->|Hf]; [|now apply IH].
  apply previewBuckets_keep.
  change (1 <? length (Js.split "/" (name f)))%nat
    with (2 <=? length (Js.split "/" (name f)))%nat.
  rewrite Hlen.
  destruct (Js.split "/" (name f)) as [|p0 rest]; [destruct Hfirst|].
  destruct Hfirst as [->|[]]. cbn [nth andb].
  assert (Ht : Js.truthy b = true).
  { unfold Js.truthy. apply negb_true_iff, String.eqb_neq. exact Hne. }
  rewrite Ht. apply setAdd_In. now left.
Qed.

Lemma legacy_preview_covers_its_buckets_witness :
  In "photos"
     (Legacy.previewBuckets [fileEntry "photos/a.png" (Returned tt) (Data tt)]).
Proof.
  destruct (legacy_preview_covers_its_buckets
              [fileEntry "photos/a.png" (Returned tt) (Data tt)])
    as (_ & _ & Hshown).
  apply (Hshown _ "photos" eq_refl); [left; reflexivity | discriminate].
Defined.

(** X24.  The probe of the older variant for an existing object lists a
    folder and searches a name that make up the path of the object again:
    the path is the folder, a slash and the name when it has a slash, and
    the name alone when it has none. *)
Theorem probe_recomposes_the_path :
  forall path : string,
    exists searched,
      Legacy.probeName path = Some searched
      /\ path = (if (1 <? length (Js.split "/" path))%nat
                 then Legacy.probeFolder path ++ "/" ++ searched
                 else searched)%string
      /\ Js.includes "/" searched = false.
Proof.
  intros path. unfold Legacy.probeName, Legacy.probeFolder.
  pose proof (split_nonempty "/" path) as Hne.
  exists (last (Js.split "/" path) "").
  split; [now apply pop_last|].
  split.
  - rewrite <- (join_split path) at 1.
    rewrite (app_removelast_last "" Hne) at 1. rewrite join_snoc.
    destruct (Js.split "/" path) as [|p0 [|p1 rest]]; [now elim Hne| |];
      reflexivity.
  - clear Hne. induction path as [|c path IH]; [reflexivity|].
    cbn [Js.split]. destruct (Ascii.eqb c "/") eqn:Ec.
    + pose proof (split_nonempty "/" path) as Hne.
      destruct (Js.split "/" path) as [|h t]; [now elim Hne|]. exact IH.
    + pose proof (split_nonempty "/" path) as Hne.
      destruct (Js.split "/" path) as [|h t]; [now elim Hne|].
      destruct t as [|h' t'].
      * cbn [last] in *. cbn [Js.includes Js.startsWith].
        rewrite Ascii.eqb_sym, Ec. cbn [andb orb]. exact IH.
      * exact IH.
Qed.


(** X25.  The tabs stay enabled during a run, and switching the tab resets
    the counters but neither the processing flag nor the selected file.
    The uploads of a bucket that go on from a page on which the tab was
    switched count every object against a total of zero: from then on the
    counter exceeds the total. *)
Theorem tab_switch_resets_the_total_of_a_run :
  forall (tab : Form.ActiveTab) (p : Form.Page) (b : string)
         (files : list FileInfo),
    files <> [] ->
    let p' := Form.setActiveTab tab p in
    let r := uploadAll b files (start (Form.view p')) in
    isProcessing (Form.view p') = isProcessing (Form.view p)
    /\ Form.uploadedZip p' = Form.uploadedZip p
    /\ progress (now r) = length files
    /\ totalItems (now r) = 0
    /\ ~ Bounded (now r).
Proof.
  intros tab p b files Hne p' r.
  destruct (uploadAll_counts b files (start (Form.view p')) eq_refl)
    as [Hp Ht].
  fold r in Hp, Ht. cbn in Hp, Ht.
  split; [reflexivity|]. split; [reflexivity|].
  split; [exact Hp|]. split; [exact Ht|].
  unfold Bounded. rewrite Hp, Ht.
  destruct files; [now elim Hne | cbn [length]; lia].
Qed.

Lemma tab_switch_resets_the_total_of_a_run_witness :
  let p := {| Form.view := now (migrateFromZip secondUploadFails initialState);
              Form.uploadedZip := None;
              Form.detectedBuckets := []; Form.activeTab := Form.Zip |} in
  let files := [ {| path := "c.png";
                    file := fileEntry "photos/c.png" (Returned tt) (Data tt) |} ] in
  ~ Bounded (now (uploadAll "photos" files
                    (start (Form.view (Form.setActiveTab Form.Live p))))).
Proof.
  intros p files.
  destruct (tab_switch_resets_the_total_of_a_run Form.Live p "photos" files)
    as (_ & _ & _ & _ & H); [discriminate | exact H].
Defined.

